(** * Nomad: hex grid, reachability, visibility and turn logic

    A shallow embedding of the TypeScript game core of Nomad:
    - [hex-math.ts]   : offset/cube coordinates, distance, neighbours;
    - [pathfinder.ts] : the BFS reachability search and its cost cache;
    - [game-state.ts] : units, structures, fog of war, moves and attacks;
    - [actions/*.ts]  : attack and settle actions;
    - [ai.ts]         : the pursuit AI of the hostile phase;
    - [main.ts]       : the click handler that drives the player phase.

    Numbers of the source that are always integers (coordinates, costs, hit
    points, counters) are [Z].  [Infinity] movement costs are the constructor
    [Infinity] of [Cost].  JavaScript objects that are shared by reference
    (units) live in a heap [objs : gmap nat Unit]; the unit collection
    [gameState.units] is the list of references into it. *)

From Stdlib Require Import ZArith Lia QArith String List Reals Lra Relations.
From stdpp Require Import base gmap list.
Import ListNotations.

Open Scope Z_scope.

(* ------------------------------------------------------------------ *)
(** ** constants.ts *)

Definition HEX_SIZE : Z := 35.
Definition BOARD_COLS : Z := 100.
Definition BOARD_ROWS : Z := 80.
(** [STRUCTURE_SIGHT_RANGE] of game-state.ts. *)
Definition STRUCTURE_SIGHT_RANGE : Z := 3.

(** [for (let i = lo; i <= hi; i++)] enumerates this list. *)
Definition zrange (lo hi : Z) : list Z :=
  map (fun i => lo + Z.of_nat i) (seq 0 (Z.to_nat (hi - lo + 1))).

(* ------------------------------------------------------------------ *)
(** ** types.ts *)

Record Hex := mkHex { col : Z; row : Z }.

Definition hex_eqb (a b : Hex) : bool := (col a =? col b) && (row a =? row b).

Record CubeCoord := mkCube { q : Z; r : Z; s : Z }.

Inductive Owner := player | enemy1 | enemy2 | enemy3 | enemy4.

Definition owner_eqb (a b : Owner) : bool :=
  match a, b with
  | player, player | enemy1, enemy1 | enemy2, enemy2
  | enemy3, enemy3 | enemy4, enemy4 => true
  | _, _ => false
  end.

Inductive Turn := TPlayer | TEnemy.

Inductive TerrainType := plains | forest | mountain | ocean | desert | hills.

(** A movement cost: a number, or [Infinity] (impassable). *)
Inductive Cost := Fin (n : Z) | Infinity.

Record HexTile := mkTile {
  tile_col : Z;
  tile_row : Z;
  terrain : TerrainType;
  movementCost : Cost;
  defenseBonus : Q;
  blocksLineOfSight : bool;
  visible : bool;
  explored : bool
}.

Record Unit := mkUnit {
  id : Z;
  utype : string;
  owner : Owner;
  unit_col : Z;
  unit_row : Z;
  maxHp : Z;
  hp : Z;
  moveRange : Z;
  range : Z;
  damage : Z;
  movementRemaining : Z;
  hasActed : bool;
  sightRange : Z;
  isNaval : bool
}.

Inductive StructureType := City | Outpost | Fort | Farm.

Record Structure := mkStructure {
  sid : Z;
  stype : StructureType;
  sowner : Owner;
  s_col : Z;
  s_row : Z;
  s_maxHp : Z;
  s_hp : Z
}.

(** [board : HexTile[][]], indexed [board[row][col]]. *)
Abbreviation Board := (list (list HexTile)).

(** The movement-cost cache: a [Map<string, number>] keyed by ["col,row"];
    the key is kept as the pair [(col, row)]. *)
Abbreviation CostMap := (gmap (Z * Z) Z).

(** The global [gameState] object, together with the module-level
    variables of the same program: [cachedMoveCosts] of pathfinder.ts and
    the id counters of unit.ts and game-state.ts. *)
Record GameState := mkState {
  turn : Turn;
  units : list nat;
  objs : gmap nat Unit;
  structures : list Structure;
  board : Board;
  selectedUnit : option nat;
  validMoves : list Hex;
  validTargets : list Hex;
  isAnimating : bool;
  cachedMoveCosts : option CostMap;
  unitIdCounter : Z;
  structureIdCounter : Z
}.

(** Field updates of records (the assignments [obj.field = v]). *)
Definition set_pos (u : Unit) (c rw : Z) : Unit :=
  mkUnit (id u) (utype u) (owner u) c rw (maxHp u) (hp u) (moveRange u) (range u)
    (damage u) (movementRemaining u) (hasActed u) (sightRange u) (isNaval u).
Definition set_movementRemaining (u : Unit) (m : Z) : Unit :=
  mkUnit (id u) (utype u) (owner u) (unit_col u) (unit_row u) (maxHp u) (hp u)
    (moveRange u) (range u) (damage u) m (hasActed u) (sightRange u) (isNaval u).
Definition set_hp (u : Unit) (h : Z) : Unit :=
  mkUnit (id u) (utype u) (owner u) (unit_col u) (unit_row u) (maxHp u) h
    (moveRange u) (range u) (damage u) (movementRemaining u) (hasActed u)
    (sightRange u) (isNaval u).
Definition set_hasActed (u : Unit) (b : bool) : Unit :=
  mkUnit (id u) (utype u) (owner u) (unit_col u) (unit_row u) (maxHp u) (hp u)
    (moveRange u) (range u) (damage u) (movementRemaining u) b (sightRange u)
    (isNaval u).

Definition set_visible (t : HexTile) (b : bool) : HexTile :=
  mkTile (tile_col t) (tile_row t) (terrain t) (movementCost t) (defenseBonus t)
    (blocksLineOfSight t) b (explored t).
Definition set_explored (t : HexTile) (b : bool) : HexTile :=
  mkTile (tile_col t) (tile_row t) (terrain t) (movementCost t) (defenseBonus t)
    (blocksLineOfSight t) (visible t) b.

Definition set_turn (st : GameState) (t : Turn) : GameState :=
  mkState t (units st) (objs st) (structures st) (board st) (selectedUnit st)
    (validMoves st) (validTargets st) (isAnimating st) (cachedMoveCosts st)
    (unitIdCounter st) (structureIdCounter st).
Definition set_units (st : GameState) (us : list nat) : GameState :=
  mkState (turn st) us (objs st) (structures st) (board st) (selectedUnit st)
    (validMoves st) (validTargets st) (isAnimating st) (cachedMoveCosts st)
    (unitIdCounter st) (structureIdCounter st).
Definition set_objs (st : GameState) (o : gmap nat Unit) : GameState :=
  mkState (turn st) (units st) o (structures st) (board st) (selectedUnit st)
    (validMoves st) (validTargets st) (isAnimating st) (cachedMoveCosts st)
    (unitIdCounter st) (structureIdCounter st).
Definition set_board (st : GameState) (b : Board) : GameState :=
  mkState (turn st) (units st) (objs st) (structures st) b (selectedUnit st)
    (validMoves st) (validTargets st) (isAnimating st) (cachedMoveCosts st)
    (unitIdCounter st) (structureIdCounter st).
Definition set_selectedUnit (st : GameState) (x : option nat) : GameState :=
  mkState (turn st) (units st) (objs st) (structures st) (board st) x
    (validMoves st) (validTargets st) (isAnimating st) (cachedMoveCosts st)
    (unitIdCounter st) (structureIdCounter st).
Definition set_validMoves (st : GameState) (v : list Hex) : GameState :=
  mkState (turn st) (units st) (objs st) (structures st) (board st)
    (selectedUnit st) v (validTargets st) (isAnimating st) (cachedMoveCosts st)
    (unitIdCounter st) (structureIdCounter st).
Definition set_validTargets (st : GameState) (v : list Hex) : GameState :=
  mkState (turn st) (units st) (objs st) (structures st) (board st)
    (selectedUnit st) (validMoves st) v (isAnimating st) (cachedMoveCosts st)
    (unitIdCounter st) (structureIdCounter st).
Definition set_cachedMoveCosts (st : GameState) (c : option CostMap) : GameState :=
  mkState (turn st) (units st) (objs st) (structures st) (board st)
    (selectedUnit st) (validMoves st) (validTargets st) (isAnimating st) c
    (unitIdCounter st) (structureIdCounter st).
Definition set_structures (st : GameState) (l : list Structure) (ctr : Z) : GameState :=
  mkState (turn st) (units st) (objs st) l (board st)
    (selectedUnit st) (validMoves st) (validTargets st) (isAnimating st)
    (cachedMoveCosts st) (unitIdCounter st) ctr.

(* ------------------------------------------------------------------ *)
(** ** hex-math.ts (integer part) *)

(** [row & 1]. *)
Definition parity (rw : Z) : Z := Z.land rw 1.

(** [(row - (row & 1)) / 2]: the numerator is even, so the JavaScript
    division is exact and equals [Z.div]. *)
Definition oddrToCube (c rw : Z) : CubeCoord :=
  let q0 := c - (rw - parity rw) / 2 in
  mkCube q0 rw (- q0 - rw).

Definition cubeToOddr (cube : CubeCoord) : Hex :=
  mkHex (q cube + (r cube - parity (r cube)) / 2) (r cube).

(** [(|dq| + |dr| + |ds|) / 2]; the sum is even ([ds = -dq - dr]), so the
    division is exact. *)
Definition getDistance (a b : Hex) : Z :=
  let ac := oddrToCube (col a) (row a) in
  let bc := oddrToCube (col b) (row b) in
  (Z.abs (q ac - q bc) + Z.abs (r ac - r bc) + Z.abs (s ac - s bc)) / 2.

Definition getNeighbors (c rw : Z) : list Hex :=
  if parity rw =? 1 then
    map (fun d => mkHex (c + fst d) (rw + snd d))
      [(1, 0); (1, -1); (0, -1); (-1, 0); (0, 1); (1, 1)]
  else
    map (fun d => mkHex (c + fst d) (rw + snd d))
      [(1, 0); (0, -1); (-1, -1); (-1, 0); (-1, 1); (0, 1)].

(* ------------------------------------------------------------------ *)
(** ** constants.ts: TERRAIN_CONFIG, terrain.ts: createHexTile *)

Definition TERRAIN_movementCost (t : TerrainType) : Cost :=
  match t with
  | plains => Fin 1 | forest => Fin 2 | mountain => Infinity
  | ocean => Fin 1 | desert => Fin 2 | hills => Fin 2
  end.
Definition TERRAIN_defenseBonus (t : TerrainType) : Q :=
  match t with
  | plains => 0 | forest => 1 # 4 | mountain => 0
  | ocean => 0 | desert => 0 | hills => 1 # 4
  end.
Definition TERRAIN_blocksLineOfSight (t : TerrainType) : bool :=
  match t with forest | mountain => true | _ => false end.

Definition createHexTile (c rw : Z) (t : TerrainType) : HexTile :=
  mkTile c rw t (TERRAIN_movementCost t) (TERRAIN_defenseBonus t)
    (TERRAIN_blocksLineOfSight t) false false.

Definition generateEmptyBoard (t : TerrainType) : Board :=
  map (fun rw => map (fun c => createHexTile c rw t) (zrange 0 (BOARD_COLS - 1)))
    (zrange 0 (BOARD_ROWS - 1)).

(** [board[row]?.[col]]: a negative or too large index gives [undefined]. *)
Definition board_get (b : Board) (rw c : Z) : option HexTile :=
  if (rw <? 0) || (c <? 0) then None
  else match b !! Z.to_nat rw with
       | Some line => line !! Z.to_nat c
       | None => None
       end.

(** [board[row][col].field = v] on an existing tile. *)
Definition board_update (b : Board) (rw c : Z) (f : HexTile -> HexTile) : Board :=
  if (rw <? 0) || (c <? 0) then b
  else alter (fun line => alter f (Z.to_nat c) line) (Z.to_nat rw) b.

(* ------------------------------------------------------------------ *)
(** ** pathfinder.ts *)

Definition isPassableTile (tile : option HexTile) (naval : bool) : bool :=
  match tile with
  | None => false
  | Some t =>
      match movementCost t with
      | Infinity => false
      | Fin _ => match terrain t with ocean => naval | _ => negb naval end
      end
  end.

(** [cachedMoveCosts?.get(key) ?? 1]. *)
Definition getMovementCost (cache : option CostMap) (c rw : Z) : Z :=
  match cache with
  | Some m => match m !! (c, rw) with Some k => k | None => 1 end
  | None => 1
  end.

Definition clearMovementCache (st : GameState) : GameState :=
  set_cachedMoveCosts st None.

(** One entry of the BFS frontier: [{ col, row, cost }]. *)
Abbreviation FrontierEntry := (Z * Z * Z)%type.

Section Search.
Variable unit : Unit.
Variable brd : Board.
Variable getUnitAtFn : Z -> Z -> option nat.
Variable isValidHexFn : Z -> Z -> bool.

Abbreviation LoopState := (list FrontierEntry * CostMap * list Hex)%type.

(** The body of [for (const next of neighbors)] for the entry of cost
    [cost]. *)
Definition relax (cost : Z) (acc : LoopState) (next : Hex) : LoopState :=
  let '(frontier, reached, results) := acc in
  if negb (isValidHexFn (col next) (row next)) then acc else
  match getUnitAtFn (col next) (row next) with
  | Some _ => acc
  | None =>
    let tile := board_get brd (row next) (col next) in
    if negb (isPassableTile tile (isNaval unit)) then acc else
    match tile with
    | Some t =>
      match movementCost t with
      | Fin mc =>
        let newCost := cost + mc in
        let key := (col next, row next) in
        if (newCost <=? movementRemaining unit) &&
           match reached !! key with
           | None => true
           | Some old => newCost <? old
           end
        then (frontier ++ [(col next, row next, newCost)],
              <[key := newCost]> reached,
              results ++ [next])
        else acc
      | Infinity => acc
      end
    | None => acc
    end
  end.

(** [while (frontier.length > 0) { const current = frontier.shift()!; ... }],
    run for at most [fuel] iterations. *)
Fixpoint bfs_loop (fuel : nat) (st : LoopState) : LoopState :=
  match fuel with
  | O => st
  | S fuel' =>
    let '(frontier, reached, results) := st in
    match frontier with
    | [] => st
    | (cc, cr, cost) :: rest =>
      let st' :=
        if cost <? movementRemaining unit then
          fold_left (relax cost) (getNeighbors cc cr) (rest, reached, results)
        else (rest, reached, results) in
      bfs_loop fuel' st'
    end
  end.

Definition bfs_init : LoopState :=
  ([(unit_col unit, unit_row unit, 0)],
   <[(unit_col unit, unit_row unit) := 0]> (∅ : CostMap), []).

(** [getReachableHexes] of pathfinder.ts: the reachable hexes, and the
    map [reached] that the source stores into [cachedMoveCosts]. *)
Definition pathfinderGetReachableHexes (fuel : nat) : CostMap * list Hex :=
  let '(_, reached, results) := bfs_loop fuel bfs_init in (reached, results).
End Search.

(** The iteration budget given to the search: on the 100x80 board every
    iteration pops one entry, and each hex enters the frontier at most
    [movementRemaining + 1] times. *)
Definition reach_fuel (u : Unit) : nat :=
  Z.to_nat (BOARD_COLS * BOARD_ROWS * (movementRemaining u + 1)) + 1.

(** [findBestMoveTowards] of pathfinder.ts; [bestDist = Infinity] is [None]. *)
Definition pathfinderFindBestMove (reachableHexes : list Hex) (target : Hex)
  : option Hex :=
  fst (fold_left
         (fun acc hx =>
            let '(bestHex, bestDist) := acc in
            let d := getDistance hx target in
            if match bestDist with None => true | Some bd => d <? bd end
            then (Some hx, Some d) else acc)
         reachableHexes (None, None)).

(** [applyMovement]: returns the moved unit and the cost deducted. *)
Definition applyMovement (cache : option CostMap) (u : Unit) (c rw : Z) : Unit * Z :=
  let cost := getMovementCost cache c rw in
  (set_movementRemaining (set_pos u c rw) (movementRemaining u - cost), cost).

(* ------------------------------------------------------------------ *)
(** ** unit.ts *)

(** [UNIT_CONFIGS[type] || default]:
    (hp, moveRange, range, damage, sightRange, isNaval). *)
Definition UNIT_CONFIGS (t : string) : Z * Z * Z * Z * Z * bool :=
  if String.eqb t "Warrior" then (12, 2, 1, 4, 3, false)
  else if String.eqb t "Spearman" then (10, 2, 1, 3, 3, false)
  else if String.eqb t "Scout" then (6, 4, 1, 2, 5, false)
  else if String.eqb t "Horseman" then (10, 4, 1, 4, 4, false)
  else if String.eqb t "Settler" then (5, 2, 0, 0, 2, false)
  else if String.eqb t "Slinger" then (6, 2, 2, 2, 4, false)
  else (10, 3, 1, 3, 3, false).

(** [createUnit]: takes and returns [unitIdCounter]. *)
Definition createUnit (ctr : Z) (t : string) (o : Owner) (c rw : Z) : Unit * Z :=
  let ctr' := ctr + 1 in
  let '(h, mv, rg, dmg, sight, naval) := UNIT_CONFIGS t in
  (mkUnit ctr' t o c rw h h mv rg dmg mv false sight naval, ctr').

(* ------------------------------------------------------------------ *)
(** ** game-state.ts *)

(** [createStructure]: takes and returns [structureIdCounter]. *)
Definition createStructure (ctr : Z) (t : StructureType) (o : Owner) (c rw : Z)
  : Structure * Z :=
  let ctr' := ctr + 1 in
  let h := match t with City => 50 | _ => 25 end in
  (mkStructure ctr' t o c rw h h, ctr').

(** The unit objects of [gameState.units], in order. *)
Definition unit_objs (st : GameState) : list Unit :=
  omap (fun ref => objs st !! ref) (units st).

(** [gameState.units.find(u => u.col === col && u.row === row)]. *)
Definition getUnitAt (st : GameState) (c rw : Z) : option nat :=
  List.find (fun ref => match objs st !! ref with
                        | Some u => (unit_col u =? c) && (unit_row u =? rw)
                        | None => false
                        end) (units st).

Definition isValidHex (c rw : Z) : bool :=
  (0 <=? c) && (c <? BOARD_COLS) && (0 <=? rw) && (rw <? BOARD_ROWS).

(** [getReachableHexes] of game-state.ts: runs the search with [getUnitAt]
    and [isValidHex] and stores [reached] into [cachedMoveCosts]. *)
Definition getReachableHexes (st : GameState) (u : Unit) : GameState * list Hex :=
  let '(reached, results) :=
    pathfinderGetReachableHexes u (board st) (getUnitAt st) isValidHex (reach_fuel u) in
  (set_cachedMoveCosts st (Some reached), results).

(** Is there a unit of another owner than [o] at [(c, rw)]? *)
Definition enemy_occupant (st : GameState) (o : Owner) (c rw : Z) : bool :=
  match getUnitAt st c rw with
  | Some ref => match objs st !! ref with
                | Some occ => negb (owner_eqb (owner occ) o)
                | None => false
                end
  | None => false
  end.

Definition getAttackableTargets (st : GameState) (u : Unit) : list Hex :=
  if range u =? 0 then [] else
  if range u =? 1 then
    List.filter (fun hx => enemy_occupant st (owner u) (col hx) (row hx))
      (getNeighbors (unit_col u) (unit_row u))
  else
    flat_map (fun rw =>
      flat_map (fun c =>
        if negb (isValidHex c rw) then [] else
        if (c =? unit_col u) && (rw =? unit_row u) then [] else
        if getDistance (mkHex (unit_col u) (unit_row u)) (mkHex c rw) <=? range u then
          if enemy_occupant st (owner u) c rw then [mkHex c rw] else []
        else [])
        (zrange (unit_col u - range u) (unit_col u + range u)))
      (zrange (unit_row u - range u) (unit_row u + range u)).

(** First loop of [updateVisibility]: [visible = false] on every existing
    tile of the 100x80 area. *)
Definition reset_visibility (b : Board) : Board :=
  fold_left (fun b rw =>
    fold_left (fun b c =>
      match board_get b rw c with
      | Some _ => board_update b rw c (fun t => set_visible t false)
      | None => b
      end) (zrange 0 (BOARD_COLS - 1)) b)
    (zrange 0 (BOARD_ROWS - 1)) b.

Definition revealAroundPosition (b : Board) (centerCol centerRow sight : Z) : Board :=
  fold_left (fun b rw =>
    fold_left (fun b c =>
      if negb (isValidHex c rw) then b else
      if getDistance (mkHex centerCol centerRow) (mkHex c rw) <=? sight then
        match board_get b rw c with
        | Some _ => board_update b rw c
                      (fun t => set_explored (set_visible t true) true)
        | None => b
        end
      else b)
      (zrange (centerCol - sight - 1) (centerCol + sight + 1)) b)
    (zrange (centerRow - sight - 1) (centerRow + sight + 1)) b.

Definition revealAroundUnit (b : Board) (u : Unit) : Board :=
  revealAroundPosition b (unit_col u) (unit_row u) (sightRange u).

Definition updateVisibility (st : GameState) : GameState :=
  let b1 := reset_visibility (board st) in
  let playerUnits := List.filter (fun u => owner_eqb (owner u) player) (unit_objs st) in
  let b2 := fold_left revealAroundUnit playerUnits b1 in
  let playerStructures := List.filter (fun x => owner_eqb (sowner x) player) (structures st) in
  let b3 := fold_left (fun b x => revealAroundPosition b (s_col x) (s_row x)
                                    STRUCTURE_SIGHT_RANGE) playerStructures b2 in
  set_board st b3.

(** [selectedUnit = null; validMoves = []; validTargets = []]. *)
Definition deselect (st : GameState) : GameState :=
  set_validTargets (set_validMoves (set_selectedUnit st None) []) [].

Definition moveUnit (st : GameState) (ref : nat) (c rw : Z) : GameState :=
  match objs st !! ref with
  | None => st
  | Some u =>
    let '(u1, _) := applyMovement (cachedMoveCosts st) u c rw in
    let st1 := set_objs st (<[ref := u1]> (objs st)) in
    let st2 := if owner_eqb (owner u1) player then updateVisibility st1 else st1 in
    let st3 := if 0 <? movementRemaining u1
               then let '(st', vm) := getReachableHexes st2 u1 in set_validMoves st' vm
               else set_validMoves st2 [] in
    let st4 := if negb (hasActed u1)
               then set_validTargets st3 (getAttackableTargets st3 u1)
               else set_validTargets st3 [] in
    if (movementRemaining u1 <=? 0) && hasActed u1 then deselect st4 else st4
  end.

Definition findNearestPlayer (st : GameState) (e : Unit) : option nat :=
  fst (fold_left
         (fun acc ref =>
            let '(nearest, minDist) := acc in
            match objs st !! ref with
            | Some p =>
              if owner_eqb (owner p) player then
                let d := getDistance (mkHex (unit_col e) (unit_row e))
                                     (mkHex (unit_col p) (unit_row p)) in
                if match minDist with None => true | Some m => d <? m end
                then (Some ref, Some d) else acc
              else acc
            | None => acc
            end)
         (units st) (None, None)).

Definition findBestMoveTowards (st : GameState) (u target : Unit)
  : GameState * option Hex :=
  let '(st1, reachable) := getReachableHexes st u in
  (st1, pathfinderFindBestMove reachable (mkHex (unit_col target) (unit_row target))).

(* ------------------------------------------------------------------ *)
(** ** actions/attack.ts, actions/settle.ts *)

Definition attackUnit (st : GameState) (aref dref : nat) : GameState :=
  match objs st !! aref, objs st !! dref with
  | Some a, Some d =>
    let o1 := <[dref := set_hp d (hp d - damage a)]> (objs st) in
    let o2 := match o1 !! aref with
              | Some a' => <[aref := set_hasActed a' true]> o1
              | None => o1
              end in
    let st1 := set_objs st o2 in
    let st2 := match o2 !! dref with
               | Some d' => if hp d' <=? 0
                            then set_units st1 (List.filter (fun x => negb (x =? dref)%nat)
                                                       (units st1))
                            else st1
               | None => st1
               end in
    deselect st2
  | _, _ => st
  end.

Definition canSettle (st : GameState) (ref : nat) : bool :=
  match objs st !! ref with
  | None => false
  | Some u =>
    if negb (String.eqb (utype u) "Settler") then false else
    if hasActed u then false else
    match board_get (board st) (unit_row u) (unit_col u) with
    | None => false
    | Some t =>
      match terrain t with
      | ocean | mountain => false
      | _ =>
        match List.find (fun x => (s_col x =? unit_col u) && (s_row x =? unit_row u))
                (structures st) with
        | Some _ => false
        | None => true
        end
      end
    end
  end.

Definition settleCity (st : GameState) (ref : nat) : GameState :=
  if negb (canSettle st ref) then st else
  match objs st !! ref with
  | None => st
  | Some u =>
    let '(city, ctr) := createStructure (structureIdCounter st) City (owner u)
                          (unit_col u) (unit_row u) in
    let st1 := set_structures st (structures st ++ [city]) ctr in
    let st2 := set_units st1 (List.filter (fun x => negb (x =? ref)%nat) (units st1)) in
    updateVisibility (deselect st2)
  end.

(* ------------------------------------------------------------------ *)
(** ** ai.ts *)

(** Step 3 of the policy: after moving, attack the first target if the
    unit has not acted. *)
Definition ai_attack_after_move (st : GameState) (ref : nat) : GameState :=
  match objs st !! ref with
  | None => st
  | Some u =>
    if negb (hasActed u) then
      match getAttackableTargets st u with
      | t :: _ => match getUnitAt st (col t) (row t) with
                  | Some target => attackUnit st ref target
                  | None => st
                  end
      | [] => st
      end
    else st
  end.

(** The body of [for (const unit of enemies)] in [executeAITurn]; the
    pacing delays and the [onUpdate] re-render callback do not touch the
    state. *)
Definition ai_activate (st : GameState) (ref : nat) : GameState :=
  match objs st !! ref with
  | None => st
  | Some u0 =>
    if hp u0 <=? 0 then st else
    let u := set_hasActed (set_movementRemaining u0 (moveRange u0)) false in
    let st1 := set_objs st (<[ref := u]> (objs st)) in
    let targets := getAttackableTargets st1 u in
    let attacked :=
      match targets with
      | targetHex :: _ =>
        if negb (hasActed u) then
          match getUnitAt st1 (col targetHex) (row targetHex) with
          | Some target => Some (attackUnit st1 ref target)
          | None => None
          end
        else None
      | [] => None
      end in
    match attacked with
    | Some st' => st'
    | None =>
      if 0 <? movementRemaining u then
        match findNearestPlayer st1 u with
        | None => st1
        | Some nref =>
          match objs st1 !! nref with
          | None => st1
          | Some nearest =>
            let '(st2, bestHex) := findBestMoveTowards st1 u nearest in
            match bestHex with
            | None => st2
            | Some h => ai_attack_after_move (moveUnit st2 ref (col h) (row h)) ref
            end
          end
        end
      else st1
    end
  end.

(** End of the AI turn: reset the player units' actions. *)
Definition reset_player_units (st : GameState) : GameState :=
  set_objs st
    (fold_left (fun o ref =>
                  match o !! ref with
                  | Some u => if owner_eqb (owner u) player
                              then <[ref := set_hasActed
                                              (set_movementRemaining u (moveRange u))
                                              false]> o
                              else o
                  | None => o
                  end) (units st) (objs st)).

Definition executeAITurn (st : GameState) : GameState :=
  let st0 := deselect (set_turn st TEnemy) in
  let enemies := List.filter (fun ref => match objs st0 !! ref with
                                    | Some u => negb (owner_eqb (owner u) player)
                                    | None => false
                                    end) (units st0) in
  let st1 := fold_left ai_activate enemies st0 in
  reset_player_units (set_turn st1 TPlayer).

(* ------------------------------------------------------------------ *)
(** ** main.ts *)

(** [handleSelection(col, row)]; the [draw], [updateUI] and
    [handleWinCheck] calls only render or schedule a later restart. *)
Definition handleSelection (st : GameState) (c rw : Z) : GameState :=
  match turn st with
  | TEnemy => st
  | TPlayer =>
    if isAnimating st then st else
    let clicked := match getUnitAt st c rw with
                   | Some ref => match objs st !! ref with
                                 | Some u => if owner_eqb (owner u) player
                                             then Some (ref, u) else None
                                 | None => None
                                 end
                   | None => None
                   end in
    match clicked with
    | Some (ref, u) =>
      let canMove := 0 <? movementRemaining u in
      let canAct := negb (hasActed u) in
      let st1 := set_selectedUnit st (Some ref) in
      let st2 := if canMove
                 then let '(st', vm) := getReachableHexes st1 u in set_validMoves st' vm
                 else set_validMoves st1 [] in
      if canAct then set_validTargets st2 (getAttackableTargets st2 u)
      else set_validTargets st2 []
    | None =>
      match selectedUnit st with
      | None => st
      | Some sel =>
        if existsb (hex_eqb (mkHex c rw)) (validMoves st) then moveUnit st sel c rw
        else if existsb (hex_eqb (mkHex c rw)) (validTargets st) then
          match getUnitAt st c rw with
          | Some target => attackUnit st sel target
          | None => st
          end
        else deselect st
      end
    end
  end.

(** The board made by [generateRandomBoard]: one [createHexTile] per cell of
    the 100x80 grid, the terrain of each cell being chosen by the noise
    functions (kept abstract as [tf]). *)
Definition generatedBoard (tf : Z -> Z -> TerrainType) : Board :=
  map (fun rw => map (fun c => createHexTile c rw (tf c rw)) (zrange 0 (BOARD_COLS - 1)))
    (zrange 0 (BOARD_ROWS - 1)).

(** Starting roster of [initGameState]. *)
Definition starting_units : list (string * Owner * Z * Z) :=
  [("Settler", player, 5, 5); ("Warrior", player, 6, 5);
   ("Settler", enemy1, BOARD_COLS - 6, BOARD_ROWS - 6);
   ("Warrior", enemy1, BOARD_COLS - 7, BOARD_ROWS - 6);
   ("Settler", enemy2, BOARD_COLS - 6, 6); ("Warrior", enemy2, BOARD_COLS - 7, 6);
   ("Settler", enemy3, 6, BOARD_ROWS - 6); ("Warrior", enemy3, 5, BOARD_ROWS - 6);
   ("Settler", enemy4, BOARD_COLS / 2, BOARD_ROWS / 2);
   ("Warrior", enemy4, BOARD_COLS / 2 - 1, BOARD_ROWS / 2)]%string.

(** [gameState.units.push(createUnit(...))]: the new object gets the
    reference [id]. *)
Definition push_unit (st : GameState) (spec : string * Owner * Z * Z) : GameState :=
  let '(t, o, c, rw) := spec in
  let '(u, ctr) := createUnit (unitIdCounter st) t o c rw in
  let ref := Z.to_nat (id u) in
  mkState (turn st) (units st ++ [ref]) (<[ref := u]> (objs st)) (structures st)
    (board st) (selectedUnit st) (validMoves st) (validTargets st) (isAnimating st)
    (cachedMoveCosts st) ctr (structureIdCounter st).

(** [initGameState], on the board [b] produced by [generateRandomBoard]
    (the movement-cost cache of pathfinder.ts is left as it was). *)
Definition initGameState (cache : option CostMap) (b : Board) : GameState :=
  let st0 := mkState TPlayer [] ∅ [] b None [] [] false cache 0 0 in
  updateVisibility (fold_left push_unit starting_units st0).

(** The operations the program exposes during a game: a click on a hex of
    the board ([onMouseDown]), the [B] key on a selected unit ([onKeyDown])
    and the end-turn button ([onEndTurnClick]). *)
Inductive step : GameState -> GameState -> Prop :=
| step_click st c rw :
    isValidHex c rw = true -> step st (handleSelection st c rw)
| step_settle st ref :
    selectedUnit st = Some ref -> canSettle st ref = true ->
    step st (settleCity st ref)
| step_end_turn st :
    turn st = TPlayer -> step st (executeAITurn st).

(** States of a game started by [initGameState]. *)
Inductive reachable : GameState -> Prop :=
| reach_init cache tf : reachable (initGameState cache (generatedBoard tf))
| reach_step st st' : reachable st -> step st st' -> reachable st'.

(* ------------------------------------------------------------------ *)
(** ** hex-math.ts: pixel conversions

    The pixel functions compute with [Math.sqrt(3)] and fractions; they are
    modelled over the real numbers, [Math.round(x)] being [floor(x + 1/2)]
    and [Math.abs] being [Rabs].  The integer [row & 1] and [cubeToOddr]
    are the ones above. *)
Module Pixel.
Local Open Scope R_scope.

Record Pixel := mkPixel { px : R; py : R }.

Definition HEX_SIZE_R : R := IZR HEX_SIZE.

Definition hexToPixel (c rw : Z) : Pixel :=
  let x := HEX_SIZE_R * sqrt 3 * (IZR c + / 2 * IZR (parity rw)) in
  let y := HEX_SIZE_R * 3 / 2 * IZR rw in
  mkPixel (x + HEX_SIZE_R) (y + HEX_SIZE_R).

(** [Math.round]. *)
Definition Math_round (x : R) : Z := Int_part (x + / 2).

(** [a > b]. *)
Definition Rgtb (a b : R) : bool := if Rlt_dec b a then true else false.

Definition cubeRound (cq cr cs : R) : CubeCoord :=
  let rx := Math_round cq in
  let ry := Math_round cr in
  let rz := Math_round cs in
  let x_diff := Rabs (IZR rx - cq) in
  let y_diff := Rabs (IZR ry - cr) in
  let z_diff := Rabs (IZR rz - cs) in
  if Rgtb x_diff y_diff && Rgtb x_diff z_diff then mkCube (- ry - rz)%Z ry rz
  else if Rgtb y_diff z_diff then mkCube rx (- rx - rz)%Z rz
  else mkCube rx ry (- rx - ry)%Z.

Definition pixelToHex (x0 y0 : R) : Hex :=
  let x := x0 - HEX_SIZE_R in
  let y := y0 - HEX_SIZE_R in
  let cq := (sqrt 3 / 3 * x - 1 / 3 * y) / HEX_SIZE_R in
  let cr := (2 / 3 * y) / HEX_SIZE_R in
  cubeToOddr (cubeRound cq cr (- cq - cr)).
End Pixel.

(* ------------------------------------------------------------------ *)
(** ** Tile-wise view of the fog-of-war passes

    [map_board F b] applies [F row col] to every tile of [b]; the loops of
    [updateVisibility] are shown below to be such maps. *)
Definition map_board (F : Z -> Z -> HexTile -> HexTile) (b : Board) : Board :=
  imap (fun i line => imap (fun j t => F (Z.of_nat i) (Z.of_nat j) t) line) b.

Definition hide_tile (t : HexTile) : HexTile := set_visible t false.
Definition reveal_tile (t : HexTile) : HexTile := set_explored (set_visible t true) true.

(** Is tile [(i, j)] (row, column) touched by [revealAroundPosition] around
    [(cc, cr)] with range [sight]? *)
Definition in_view (cc cr sight i j : Z) : bool :=
  existsb (fun rw =>
    existsb (fun c => isValidHex c rw && (getDistance (mkHex cc cr) (mkHex c rw) <=? sight)
                      && ((i =? rw) && (j =? c)))
      (zrange (cc - sight - 1) (cc + sight + 1)))
    (zrange (cr - sight - 1) (cr + sight + 1)).

(** Is tile [(i, j)] touched by the reset loop? *)
Definition in_area (i j : Z) : bool :=
  existsb (fun rw => existsb (fun c => (i =? rw) && (j =? c)) (zrange 0 (BOARD_COLS - 1)))
    (zrange 0 (BOARD_ROWS - 1)).

Definition player_units (st : GameState) : list Unit :=
  List.filter (fun u => owner_eqb (owner u) player) (unit_objs st).

Definition player_structures (st : GameState) : list Structure :=
  List.filter (fun x => owner_eqb (sowner x) player) (structures st).

Definition seen_by_units (st : GameState) (i j : Z) : bool :=
  existsb (fun u => in_view (unit_col u) (unit_row u) (sightRange u) i j) (player_units st).

Definition seen_by_structures (st : GameState) (i j : Z) : bool :=
  existsb (fun x => in_view (s_col x) (s_row x) STRUCTURE_SIGHT_RANGE i j)
    (player_structures st).

(** What [updateVisibility st] does to the tile at row [i], column [j]. *)
Definition visibility_tile (st : GameState) (i j : Z) (t : HexTile) : HexTile :=
  let t1 := if in_area i j then hide_tile t else t in
  let t2 := if seen_by_units st i j then reveal_tile t1 else t1 in
  if seen_by_structures st i j then reveal_tile t2 else t2.

(** A tile explored on board [b] is still there and explored on [b']. *)
Definition explored_kept (b b' : Board) : Prop :=
  forall rw c t, board_get b rw c = Some t -> explored t = true ->
  exists t', board_get b' rw c = Some t' /\ explored t' = true.

(** Every visible tile of [b] is explored. *)
Definition visible_explored (b : Board) : Prop :=
  forall rw c t, board_get b rw c = Some t -> visible t = true -> explored t = true.

(** Every tile of [b] has a finite cost [>= 0] or cost [Infinity]. *)
Definition costs_ok (b : Board) : Prop :=
  forall rw c t, board_get b rw c = Some t ->
  match movementCost t with Fin n => 0 <= n | Infinity => True end.

Definition board_mono (b b' : Board) : Prop :=
  explored_kept b b' /\ (visible_explored b -> visible_explored b') /\
  (costs_ok b -> costs_ok b').

(** ** Invariants of a game *)

(** The bounds the spec asks of every unit of [gameState.units]. *)
Definition unit_ok (u : Unit) : Prop :=
  0 <= movementRemaining u <= moveRange u /\ 0 < hp u.

Definition units_ok (st : GameState) : Prop :=
  forall ref u, In ref (units st) -> objs st !! ref = Some u -> unit_ok u.

(** Every hex offered as a move to the selected unit has a cached cost within
    its remaining movement. *)
(** A boolean check of [units_ok]. *)
Definition units_ok_b (st : GameState) : bool :=
  forallb (fun ref => match objs st !! ref with
                      | Some u => (0 <=? movementRemaining u) &&
                                  (movementRemaining u <=? moveRange u) && (0 <? hp u)
                      | None => true
                      end) (units st).

Definition sel_ok (st : GameState) : Prop :=
  forall sel h, selectedUnit st = Some sel -> In h (validMoves st) ->
  exists u m k, objs st !! sel = Some u /\ cachedMoveCosts st = Some m /\
                m !! (col h, row h) = Some k /\ 0 <= k <= movementRemaining u.

Definition game_inv (st : GameState) : Prop :=
  units_ok st /\ sel_ok st /\ costs_ok (board st).

(** Invariant of the search loop for unit [u]: frontier costs and recorded
    costs are [>= 0], and every result has a recorded cost within the unit's
    remaining movement. *)
Definition loop_ok (u : Unit) (ls : list FrontierEntry * CostMap * list Hex) : Prop :=
  let '(frontier, reached, results) := ls in
  Forall (fun e : FrontierEntry => 0 <= snd e) frontier /\
  (forall key k, reached !! key = Some k -> 0 <= k) /\
  (forall h, In h results ->
     exists k, reached !! (col h, row h) = Some k /\ k <= movementRemaining u).

(* ------------------------------------------------------------------ *)
(** ** Concrete games *)

(** An all-plains board. *)
Definition plains_board : Board := generateEmptyBoard plains.

(** A player Warrior (id 1) at (5, 5) and a hostile Warrior (id 2) at (6, 5). *)
Definition warrior1 : Unit := fst (createUnit 0 "Warrior" player 5 5).
Definition warrior2 : Unit := fst (createUnit 1 "Warrior" enemy1 6 5).

Definition solo_state : GameState :=
  mkState TPlayer [1%nat] (<[1%nat := warrior1]> ∅) [] plains_board None [] [] false
    None 1 0.

Definition battle_state : GameState :=
  mkState TPlayer [1%nat; 2%nat] (<[2%nat := warrior2]> (<[1%nat := warrior1]> ∅)) []
    plains_board None [] [] false None 2 0.

(** The cache as a map ([new Map()] when there is none). *)
Definition cache_of (st : GameState) : CostMap :=
  match cachedMoveCosts st with Some m => m | None => ∅ end.

(** Two player Warriors: id 1 at (5, 5) and id 2 at (20, 20), the latter
    with its movement spent. *)
Definition spent_warrior : Unit :=
  set_movementRemaining (fst (createUnit 1 "Warrior" player 20 20)) 0.

Definition two_player_state : GameState :=
  mkState TPlayer [1%nat; 2%nat] (<[2%nat := spent_warrior]> (<[1%nat := warrior1]> ∅))
    [] plains_board None [] [] false None 2 0.

(* ------------------------------------------------------------------ *)
(** ** The reachable set of the search on uniform terrain *)

(** [free_walk occ sc sr n c rw]: a walk of [n] steps from [(sc, sr)] to
    [(c, rw)]; each step goes to a hex listed by [getNeighbors] that is in
    bounds and that [occ] reports free. *)
Inductive free_walk (occ : Z -> Z -> option nat) (sc sr : Z) : Z -> Z -> Z -> Prop :=
| free_walk_nil : free_walk occ sc sr 0 sc sr
| free_walk_step n c rw h :
    free_walk occ sc sr n c rw -> In h (getNeighbors c rw) ->
    isValidHex (col h) (row h) = true -> occ (col h) (row h) = None ->
    free_walk occ sc sr (n + 1) (col h) (row h).

(** Every in-bounds tile has movement cost 1 and is passable for the
    domain [naval]. *)
Definition unit_cost_tiles (b : Board) (naval : bool) : Prop :=
  forall c rw, isValidHex c rw = true ->
    exists t, board_get b rw c = Some t /\ movementCost t = Fin 1 /\
              isPassableTile (Some t) naval = true.

(** The in-bounds cells [(col, row)], row by row. *)
Definition all_hexes : list (Z * Z) :=
  flat_map (fun rw => map (fun c => (c, rw)) (zrange 0 (BOARD_COLS - 1)))
    (zrange 0 (BOARD_ROWS - 1)).

(** A decision procedure for [unit_cost_tiles]. *)
Definition unit_cost_tiles_b (b : Board) (naval : bool) : bool :=
  forallb (fun k => match board_get b (snd k) (fst k) with
                    | Some t => match movementCost t with
                                | Fin n => (n =? 1) && isPassableTile (Some t) naval
                                | Infinity => false
                                end
                    | None => false
                    end) all_hexes.

Definition sumZ (l : list Z) : Z := fold_right Z.add 0 l.

(** A potential of the map [reached] that every insertion of the search
    lowers: the recorded cost of each cell, [m + 1] for a cell with none. *)
Definition frontier_potential (m : Z) (reached : CostMap) : Z :=
  sumZ (map (fun k => match reached !! k with Some v => v | None => m + 1 end) all_hexes).

Section FreeSearchDefs.
Variable u : Unit.
Variable gua : Z -> Z -> option nat.

(** When [relax] pushes [next] on uniform terrain. *)
Definition pushable (cost : Z) (R : CostMap) (next : Hex) : bool :=
  isValidHex (col next) (row next) &&
  match gua (col next) (row next) with None => true | Some _ => false end &&
  (cost + 1 <=? movementRemaining u) &&
  match R !! (col next, row next) with None => true | Some old => cost + 1 <? old end.

(** Every free in-bounds neighbour of [k] has a recorded cost of at most
    [v + 1]. *)
Definition closed_at (R : CostMap) (k : Z * Z) (v : Z) : Prop :=
  forall z, In z (getNeighbors (fst k) (snd k)) -> isValidHex (col z) (row z) = true ->
    gua (col z) (row z) = None -> exists w, R !! (col z, row z) = Some w /\ w <= v + 1.

(** The invariant of the search loop: the start keeps cost 0; every
    recorded cost is the length of a free walk to its cell; frontier
    entries are such walks; [results] holds the free cells of [reached];
    and every cell recorded with a cost below [movementRemaining] is still
    waiting in the frontier, or has its neighbours recorded, or is the
    entry [P] being expanded. *)
Definition search_inv (P : Z * Z -> Z -> Prop) (ls : list FrontierEntry * CostMap * list Hex)
  : Prop :=
  let '(F, R, L) := ls in
  R !! (unit_col u, unit_row u) = Some 0 /\
  (forall k v, R !! k = Some v -> 0 <= v /\
     free_walk gua (unit_col u) (unit_row u) v (fst k) (snd k) /\
     (k = (unit_col u, unit_row u) \/
      (isValidHex (fst k) (snd k) = true /\ gua (fst k) (snd k) = None /\
       v <= movementRemaining u))) /\
  (forall c rw v, In (c, rw, v) F -> 0 <= v /\
     free_walk gua (unit_col u) (unit_row u) v c rw /\
     exists w, R !! (c, rw) = Some w /\ w <= v) /\
  (forall h, In h L <-> (exists v, R !! (col h, row h) = Some v) /\ gua (col h) (row h) = None) /\
  (forall k v, R !! k = Some v -> v < movementRemaining u ->
     In (fst k, snd k, v) F \/ closed_at R k v \/ P k v).

(** The variant of the search loop: frontier length plus potential. *)
Definition search_measure (ls : list FrontierEntry * CostMap * list Hex) : Z :=
  let '(F, R, _) := ls in Z.of_nat (length F) + frontier_potential (movementRemaining u) R.
End FreeSearchDefs.

(** Costs only go down from [R] to [R']. *)
Definition R_le (R R' : CostMap) : Prop :=
  forall k v, R !! k = Some v -> exists w, R' !! k = Some w /\ w <= v.

(** A Warrior at (5,5) whose six neighbours are all held by other units. *)
Definition ring_state : GameState :=
  mkState TPlayer [1%nat; 2%nat; 3%nat; 4%nat; 5%nat; 6%nat; 7%nat]
    (list_to_map [(1%nat, warrior1);
                  (2%nat, fst (createUnit 1 "Warrior" player 6 5));
                  (3%nat, fst (createUnit 2 "Warrior" player 6 4));
                  (4%nat, fst (createUnit 3 "Warrior" player 5 4));
                  (5%nat, fst (createUnit 4 "Warrior" player 4 5));
                  (6%nat, fst (createUnit 5 "Warrior" player 5 6));
                  (7%nat, fst (createUnit 6 "Warrior" player 6 6))])
    [] plains_board None [] [] false None 7 0.

(** One step of a first-minimum search: [key x = None] skips [x]; a
    strictly smaller key replaces the best so far. *)
Definition argmin_step {A} (key : A -> option Z) (acc : option A * option Z) (x : A)
  : option A * option Z :=
  match key x with
  | Some d => if match snd acc with None => true | Some m => d <? m end
              then (Some x, Some d) else acc
  | None => acc
  end.

Definition player_key (st : GameState) (e : Unit) (ref : nat) : option Z :=
  match objs st !! ref with
  | Some p => if owner_eqb (owner p) player
              then Some (getDistance (mkHex (unit_col e) (unit_row e))
                                     (mkHex (unit_col p) (unit_row p)))
              else None
  | None => None
  end.

Definition Rltb (a b : R) : bool := if Rlt_dec a b then true else false.

Definition chooseTerrain (elevation moisture : R) : TerrainType :=
  if Rltb elevation (1 / 4) then (if Rltb (1 / 2) moisture then ocean else hills)
  else if Rltb elevation (2 / 5) then
    (if Rltb moisture (3 / 10) then desert
     else if Rltb moisture (1 / 2) then plains else hills)
  else if Rltb elevation (13 / 20) then (if Rltb (1 / 2) moisture then forest else plains)
  else if Rltb elevation (4 / 5) then (if Rltb (2 / 5) moisture then forest else hills)
  else mountain.

Definition clearSpawnArea (board : Board) (centerCol centerRow radius : Z) : Board :=
  fold_left (fun b rw =>
    fold_left (fun b c =>
      if (0 <=? rw) && (rw <? BOARD_ROWS) && (0 <=? c) && (c <? BOARD_COLS) then
        let dx := c - centerCol in
        let dy := rw - centerRow in
        if Rle_dec (sqrt (IZR (dx * dx + dy * dy))) (IZR radius)
        then board_update b rw c (fun _ => createHexTile c rw plains)
        else b
      else b)
      (zrange (centerCol - radius) (centerCol + radius)) b)
    (zrange (centerRow - radius) (centerRow + radius)) board.

Definition generateRandomBoard (elevation moisture : Z -> Z -> R) : Board :=
  let board :=
    fold_left (fun b rw =>
      fold_left (fun b c =>
        board_update b rw c
          (fun _ => createHexTile c rw (chooseTerrain (elevation c rw) (moisture c rw))))
        (zrange 0 (BOARD_COLS - 1)) b)
      (zrange 0 (BOARD_ROWS - 1)) (generateEmptyBoard plains) in
  let spawnRadius := 8 in
  let board := clearSpawnArea board 5 5 spawnRadius in
  clearSpawnArea board (BOARD_COLS - 6) (BOARD_ROWS - 6) spawnRadius.

Definition getTile (board : Board) (c rw : Z) : option HexTile :=
  if (rw <? 0) || (Z.of_nat (length board) <=? rw) then None else
  match board !! Z.to_nat rw with
  | None => None
  | Some line =>
    if (c <? 0) || (Z.of_nat (length line) <=? c) then None else line !! Z.to_nat c
  end.

Definition in_disc (cc cr radius c rw : Z) : bool :=
  (c - cc) * (c - cc) + (rw - cr) * (rw - cr) <=? radius * radius.

Module Camera.
Import Pixel.
Local Open Scope R_scope.

Record Camera := mkCamera { cam_x : R; cam_y : R; zoom : R }.

Definition HEX_WIDTH : R := sqrt 3 * HEX_SIZE_R.
Definition HEX_HEIGHT : R := 2 * HEX_SIZE_R.

Definition getWorldBounds : R * R :=
  (IZR BOARD_COLS * HEX_WIDTH + HEX_WIDTH / 2,
   IZR BOARD_ROWS * HEX_HEIGHT * (3 / 4) + HEX_HEIGHT * (1 / 4)).

Definition worldToScreen (camera : Camera) (worldX worldY : R) : Pixel :=
  mkPixel ((worldX - cam_x camera) * zoom camera) ((worldY - cam_y camera) * zoom camera).


Definition panCamera (camera : Camera) (dx dy canvasWidth canvasHeight : R) : Camera :=
  let '(width, height) := getWorldBounds in
  let x := cam_x camera + dx in
  let y := cam_y camera + dy in
  let viewWidth := canvasWidth / zoom camera in
  let viewHeight := canvasHeight / zoom camera in
  let minX := - viewWidth * (1 / 5) in
  let minY := - viewHeight * (1 / 5) in
  let maxX := width - viewWidth * (4 / 5) in
  let maxY := height - viewHeight * (4 / 5) in
  mkCamera (Rmax minX (Rmin maxX x)) (Rmax minY (Rmin maxY y)) (zoom camera).



Definition resetCamera : Camera := mkCamera 0 0 1.

End Camera.

Module Viewport.
Import Pixel Camera.
Local Open Scope R_scope.

(** [Math.floor] and [Math.ceil]. *)
Definition Math_floor (x : R) : Z := Int_part x.
Definition Math_ceil (x : R) : Z := (- Int_part (- x))%Z.

Record HexRange := mkHexRange { minCol : Z; maxCol : Z; minRow : Z; maxRow : Z }.

Definition getVisibleHexRange (camera : Camera) (canvasWidth canvasHeight : R) : HexRange :=
  let viewWidth := canvasWidth / zoom camera in
  let viewHeight := canvasHeight / zoom camera in
  let padding := 2%Z in
  let minCol := Z.max 0 (Math_floor (cam_x camera / HEX_WIDTH) - padding) in
  let maxCol := Z.min (BOARD_COLS - 1)
                  (Math_ceil ((cam_x camera + viewWidth) / HEX_WIDTH) + padding) in
  let minRow := Z.max 0 (Math_floor (cam_y camera / (HEX_HEIGHT * (3 / 4))) - padding) in
  let maxRow := Z.min (BOARD_ROWS - 1)
                  (Math_ceil ((cam_y camera + viewHeight) / (HEX_HEIGHT * (3 / 4))) + padding) in
  mkHexRange minCol maxCol minRow maxRow.

End Viewport.

Definition costs_pos (b : Board) : Prop :=
  forall rw c t, board_get b rw c = Some t ->
  match movementCost t with Fin n => 1 <= n | Infinity => True end.

Definition loop_near (u : Unit) (brd : Board) (gua : Z -> Z -> option nat)
    (ivh : Z -> Z -> bool) (ls : list FrontierEntry * CostMap * list Hex) : Prop :=
  let '(frontier, reached, results) := ls in
  let start := mkHex (unit_col u) (unit_row u) in
  (forall c rw v, In (c, rw, v) frontier -> getDistance start (mkHex c rw) <= v) /\
  (forall k v, reached !! k = Some v -> getDistance start (mkHex (fst k) (snd k)) <= v) /\
  (forall h, In h results ->
     ivh (col h) (row h) = true /\ gua (col h) (row h) = None /\
     isPassableTile (board_get brd (row h) (col h)) (isNaval u) = true /\
     exists v, reached !! (col h, row h) = Some v /\ v <= movementRemaining u).

Inductive WinResult := victory | defeat.

Definition checkWinCondition (st : GameState) : option WinResult :=
  let enemies := List.filter (fun u => negb (owner_eqb (owner u) player)) (unit_objs st) in
  let players := List.filter (fun u => owner_eqb (owner u) player) (unit_objs st) in
  if (length enemies =? 0)%nat then Some victory
  else if (length players =? 0)%nat then Some defeat
  else None.

Definition structure_cells (st : GameState) : list (Z * Z) :=
  map (fun x => (s_col x, s_row x)) (structures st).

Definition reset_step (o : gmap nat Unit) (ref : nat) : gmap nat Unit :=
  match o !! ref with
  | Some u => if owner_eqb (owner u) player
              then <[ref := set_hasActed (set_movementRemaining u (moveRange u)) false]> o
              else o
  | None => o
  end.

Definition settler_state : GameState := initGameState None plains_board.

Definition settler1 : Unit := mkUnit 1 "Settler" player 5 5 5 5 2 0 0 2 false 2 false.

(* ================================================================== *)
(** * Proofs *)

(** Decide integer comparisons in boolean goals by case analysis and [lia]. *)
Ltac bool_lia :=
  repeat match goal with
         | |- context [Z.eqb ?a ?b] => destruct (Z.eqb_spec a b)
         | |- context [Z.ltb ?a ?b] => destruct (Z.ltb_spec a b)
         | |- context [Z.leb ?a ?b] => destruct (Z.leb_spec a b)
         end; simpl; first [reflexivity | lia].

(** ** Frame lemmas: which operations leave the unit heap alone *)

Lemma getReachableHexes_fst st u :
  fst (getReachableHexes st u)
  = set_cachedMoveCosts st
      (Some (fst (pathfinderGetReachableHexes u (board st) (getUnitAt st) isValidHex
                    (reach_fuel u)))).
Proof.
  unfold getReachableHexes.
  destruct (pathfinderGetReachableHexes _ _ _ _ _); reflexivity.
Qed.

Lemma getReachableHexes_snd st u :
  snd (getReachableHexes st u)
  = snd (pathfinderGetReachableHexes u (board st) (getUnitAt st) isValidHex
           (reach_fuel u)).
Proof.
  unfold getReachableHexes.
  destruct (pathfinderGetReachableHexes _ _ _ _ _); reflexivity.
Qed.

Lemma let_pair_fst {A B C} (p : A * B) (f : A -> B -> C) :
  (let '(a, b) := p in f a b) = f (fst p) (snd p).
Proof. destruct p; reflexivity. Qed.

Lemma objs_moveUnit st ref c rw :
  objs (moveUnit st ref c rw)
  = match objs st !! ref with
    | Some u => <[ref := fst (applyMovement (cachedMoveCosts st) u c rw)]> (objs st)
    | None => objs st
    end.
Proof.
  unfold moveUnit. destruct (objs st !! ref) as [u|]; [|reflexivity].
  rewrite (let_pair_fst (applyMovement _ _ _ _)).
  set (u1 := fst (applyMovement (cachedMoveCosts st) u c rw)).
  destruct (owner_eqb (owner u1) player), (0 <? movementRemaining u1);
    rewrite ?let_pair_fst, ?getReachableHexes_fst;
    destruct (negb (hasActed u1)), ((movementRemaining u1 <=? 0) && hasActed u1);
    reflexivity.
Qed.

Lemma units_moveUnit st ref c rw : units (moveUnit st ref c rw) = units st.
Proof.
  unfold moveUnit. destruct (objs st !! ref) as [u|]; [|reflexivity].
  rewrite (let_pair_fst (applyMovement _ _ _ _)).
  set (u1 := fst (applyMovement (cachedMoveCosts st) u c rw)).
  destruct (owner_eqb (owner u1) player), (0 <? movementRemaining u1);
    rewrite ?let_pair_fst, ?getReachableHexes_fst;
    destruct (negb (hasActed u1)), ((movementRemaining u1 <=? 0) && hasActed u1);
    reflexivity.
Qed.

(** ** C10: settling without the precondition is a no-op *)

(** C10: when [canSettle] is false for the unit, [settleCity] returns the
    game state unchanged (no structure added, the unit stays, selection and
    fog of war untouched). *)
Theorem settleCity_guard_noop st ref :
  canSettle st ref = false -> settleCity st ref = st.
Proof. intros H. unfold settleCity. rewrite H. reflexivity. Qed.

(** ** C3: a move deducts the cached cost *)

(** C3: [moveUnit] puts the unit on the destination and lowers its
    [movementRemaining] by exactly the cost that the cache of the preceding
    search recorded for the destination. *)
Theorem moveUnit_deducts_cached_cost st ref u c rw m k :
  objs st !! ref = Some u ->
  cachedMoveCosts st = Some m ->
  m !! (c, rw) = Some k ->
  exists u', objs (moveUnit st ref c rw) !! ref = Some u' /\
             unit_col u' = c /\ unit_row u' = rw /\
             movementRemaining u' = movementRemaining u - k.
Proof.
  intros Hu Hc Hk. rewrite objs_moveUnit, Hu, lookup_insert_eq.
  eexists; split; [reflexivity|].
  unfold applyMovement, getMovementCost. rewrite Hc, Hk. simpl. auto.
Qed.

(** Without a recorded cost (no search yet, or a destination the search did
    not reach) the deduction falls back to 1. *)
Lemma moveUnit_fallback_cost st ref u c rw :
  objs st !! ref = Some u ->
  match cachedMoveCosts st with Some m => m !! (c, rw) = None | None => True end ->
  exists u', objs (moveUnit st ref c rw) !! ref = Some u' /\
             movementRemaining u' = movementRemaining u - 1.
Proof.
  intros Hu Hc. rewrite objs_moveUnit, Hu, lookup_insert_eq.
  eexists; split; [reflexivity|].
  unfold applyMovement, getMovementCost.
  destruct (cachedMoveCosts st) as [m|]; [rewrite Hc|]; reflexivity.
Qed.

(** ** C5: attacks *)

Lemma objs_attackUnit st a d :
  objs (attackUnit st a d)
  = match objs st !! a, objs st !! d with
    | Some ua, Some ud =>
      let o1 := <[d := set_hp ud (hp ud - damage ua)]> (objs st) in
      match o1 !! a with
      | Some a' => <[a := set_hasActed a' true]> o1
      | None => o1
      end
    | _, _ => objs st
    end.
Proof.
  unfold attackUnit.
  destruct (objs st !! a) as [ua|], (objs st !! d) as [ud|]; try reflexivity.
  cbv zeta.
  destruct (<[d:=set_hp ud (hp ud - damage ua)]> (objs st) !! a) as [a'|];
  [ destruct (<[a:=set_hasActed a' true]> (<[d:=set_hp ud (hp ud - damage ua)]> (objs st)) !! d)
      as [d'|]; [destruct (hp d' <=? 0)|] 
  | destruct (<[d:=set_hp ud (hp ud - damage ua)]> (objs st) !! d) as [d'|];
      [destruct (hp d' <=? 0)|] ]; reflexivity.
Qed.

Lemma units_attackUnit st a d ua ud :
  objs st !! a = Some ua -> objs st !! d = Some ud ->
  units (attackUnit st a d)
  = if hp ud - damage ua <=? 0
    then List.filter (fun x => negb (x =? d)%nat) (units st)
    else units st.
Proof.
  intros Ha Hd. unfold attackUnit. rewrite Ha, Hd. cbv zeta.
  assert (Hd2 : forall o2 : gmap nat Unit,
             o2 = match <[d:=set_hp ud (hp ud - damage ua)]> (objs st) !! a with
                  | Some a' => <[a:=set_hasActed a' true]>
                                 (<[d:=set_hp ud (hp ud - damage ua)]> (objs st))
                  | None => <[d:=set_hp ud (hp ud - damage ua)]> (objs st)
                  end ->
             exists d', o2 !! d = Some d' /\ hp d' = hp ud - damage ua).
  { intros o2 ->.
    destruct (decide (a = d)) as [->|Hne].
    - rewrite lookup_insert_eq, lookup_insert_eq.
      eexists; split; reflexivity.
    - rewrite lookup_insert_ne by congruence.
      destruct (objs st !! a) as [a'|].
      + rewrite lookup_insert_ne by congruence. rewrite lookup_insert_eq.
        eexists; split; reflexivity.
      + rewrite lookup_insert_eq. eexists; split; reflexivity. }
  destruct (Hd2 _ eq_refl) as (d' & Hl & Hh).
  revert Hl Hh.
  generalize (match <[d:=set_hp ud (hp ud - damage ua)]> (objs st) !! a with
              | Some a' => <[a:=set_hasActed a' true]>
                             (<[d:=set_hp ud (hp ud - damage ua)]> (objs st))
              | None => <[d:=set_hp ud (hp ud - damage ua)]> (objs st)
              end).
  intros o2 Hl Hh. rewrite Hl, Hh.
  destruct (hp ud - damage ua <=? 0); reflexivity.
Qed.

(** C5 (amended): for an attacker and a distinct defender, with
    [damage >= 0], [attackUnit] does not raise the defender's health, leaves
    the attacker's health as it was, marks the attacker [hasActed], and a
    defender left at [hp <= 0] is no longer in [gameState.units]. *)
Theorem attackUnit_effects st a d ua ud :
  a <> d ->
  objs st !! a = Some ua -> objs st !! d = Some ud ->
  0 <= damage ua ->
  (exists ud', objs (attackUnit st a d) !! d = Some ud' /\ hp ud' <= hp ud) /\
  (exists ua', objs (attackUnit st a d) !! a = Some ua' /\ hp ua' = hp ua /\
               hasActed ua' = true) /\
  (hp ud - damage ua <= 0 -> ~ In d (units (attackUnit st a d))).
Proof.
  intros Hne Ha Hd Hdmg.
  split; [|split].
  - rewrite objs_attackUnit, Ha, Hd. cbv zeta.
    rewrite lookup_insert_ne by congruence. rewrite Ha.
    rewrite lookup_insert_ne by congruence. rewrite lookup_insert_eq.
    eexists; split; [reflexivity|]. simpl. lia.
  - rewrite objs_attackUnit, Ha, Hd. cbv zeta.
    rewrite lookup_insert_ne by congruence. rewrite Ha.
    rewrite lookup_insert_eq.
    eexists; split; [reflexivity|]. simpl. auto.
  - intros Hdead. rewrite (units_attackUnit st a d ua ud Ha Hd).
    replace (hp ud - damage ua <=? 0) with true by lia.
    intros Hin. apply filter_In in Hin as [_ Hx].
    rewrite Nat.eqb_refl in Hx. discriminate.
Qed.

(** ** C9: the AI attacks first when it can *)

Lemma enemy_occupant_getUnitAt st o c rw :
  enemy_occupant st o c rw = true -> exists ref, getUnitAt st c rw = Some ref.
Proof.
  unfold enemy_occupant. destruct (getUnitAt st c rw) as [ref|]; [eauto|discriminate].
Qed.

Lemma in_flat_map_zrange {A} (f : Z -> list A) lo hi x :
  In x (flat_map f (zrange lo hi)) -> exists i, In x (f i).
Proof. intros H. apply in_flat_map in H as (i & _ & H). eauto. Qed.

Lemma getAttackableTargets_occupied st u t :
  In t (getAttackableTargets st u) -> enemy_occupant st (owner u) (col t) (row t) = true.
Proof.
  unfold getAttackableTargets.
  destruct (range u =? 0); [intros []|].
  destruct (range u =? 1).
  - intros H. apply filter_In in H. tauto.
  - intros H. apply in_flat_map_zrange in H as (rw & H).
    apply in_flat_map_zrange in H as (c & H).
    destruct (negb (isValidHex c rw)); [destruct H|].
    destruct ((c =? unit_col u) && (rw =? unit_row u)); [destruct H|].
    destruct (getDistance _ _ <=? range u); [|destruct H].
    destruct (enemy_occupant st (owner u) c rw) eqn:E; [|destruct H].
    destruct H as [<-|[]]. exact E.
Qed.

Lemma attackUnit_keeps_position st a d ua :
  objs st !! a = Some ua ->
  exists ua', objs (attackUnit st a d) !! a = Some ua' /\
              unit_col ua' = unit_col ua /\ unit_row ua' = unit_row ua.
Proof.
  intros Ha. rewrite objs_attackUnit, Ha.
  destruct (objs st !! d) as [ud|] eqn:Hd; [|eauto].
  cbv zeta. destruct (decide (a = d)) as [->|Hne].
  - rewrite lookup_insert_eq, lookup_insert_eq.
    rewrite Ha in Hd. injection Hd as ->.
    eexists; split; [reflexivity|]. simpl. auto.
  - rewrite lookup_insert_ne by congruence. rewrite Ha, lookup_insert_eq.
    eexists; split; [reflexivity|]. simpl. auto.
Qed.

(** C9: when a hostile unit has an attackable target once its actions are
    reset, its activation is exactly one attack on the first target of
    [getAttackableTargets]: no move and no second attack, and its position
    is unchanged. *)
Theorem ai_activation_attacks_first_target st ref u t ts :
  objs st !! ref = Some u -> 0 < hp u -> owner u <> player ->
  getAttackableTargets
    (set_objs st (<[ref := set_hasActed (set_movementRemaining u (moveRange u)) false]>
                    (objs st)))
    (set_hasActed (set_movementRemaining u (moveRange u)) false) = t :: ts ->
  exists target,
    getUnitAt (set_objs st (<[ref := set_hasActed (set_movementRemaining u (moveRange u))
                                                 false]> (objs st)))
              (col t) (row t) = Some target /\
    ai_activate st ref
    = attackUnit (set_objs st (<[ref := set_hasActed (set_movementRemaining u (moveRange u))
                                                   false]> (objs st))) ref target /\
    exists u', objs (ai_activate st ref) !! ref = Some u' /\
               unit_col u' = unit_col u /\ unit_row u' = unit_row u.
Proof.
  intros Hu Hhp _ Ht.
  set (u1 := set_hasActed (set_movementRemaining u (moveRange u)) false) in *.
  set (st1 := set_objs st (<[ref := u1]> (objs st))) in *.
  assert (Hin : In t (getAttackableTargets st1 u1)) by (rewrite Ht; left; reflexivity).
  apply getAttackableTargets_occupied, enemy_occupant_getUnitAt in Hin as (target & Htg).
  assert (Hact : ai_activate st ref = attackUnit st1 ref target).
  { unfold ai_activate. rewrite Hu. replace (hp u <=? 0) with false by bool_lia.
    fold u1. fold st1. rewrite Ht. simpl (negb (hasActed u1)). rewrite Htg.
    reflexivity. }
  exists target. split; [exact Htg|]. split; [exact Hact|].
  rewrite Hact.
  destruct (attackUnit_keeps_position st1 ref target u1) as (u' & H1 & H2 & H3).
  { subst st1. simpl. apply lookup_insert_eq. }
  exists u'. auto.
Qed.

(** ** C8: pixel round trip *)

Module PixelProofs.
Import Pixel.
Local Open Scope R_scope.

Lemma Math_round_IZR n : Math_round (IZR n) = n.
Proof.
  unfold Math_round, Int_part.
  rewrite <- (tech_up (IZR n + / 2) (n + 1)).
  - lia.
  - rewrite plus_IZR. simpl. lra.
  - rewrite plus_IZR. simpl. lra.
Qed.

Lemma cubeRound_integral a b :
  cubeRound (IZR a) (IZR b) (- IZR a - IZR b) = mkCube a b (- a - b)%Z.
Proof.
  assert (Hs : - IZR a - IZR b = IZR (- a - b)).
  { rewrite minus_IZR, opp_IZR. reflexivity. }
  unfold cubeRound. rewrite Hs, !Math_round_IZR.
  rewrite !Rminus_diag, Rabs_R0.
  unfold Rgtb. destruct (Rlt_dec 0 0) as [H|_]; [lra|]. reflexivity.
Qed.

Lemma parity_div2 rw : (rw - parity rw = 2 * ((rw - parity rw) / 2))%Z.
Proof.
  unfold parity. change 1%Z with (Z.ones 1). rewrite Z.land_ones by lia.
  change (2 ^ 1)%Z with 2%Z.
  apply Z.div_exact; [lia|].
  rewrite Zminus_mod, Zmod_mod, Z.sub_diag. reflexivity.
Qed.

(** C8: for every cell [(col, row)], [pixelToHex] applied to the pixel
    centre [hexToPixel col row] gives back [(col, row)]. *)
Theorem pixelToHex_hexToPixel c rw :
  pixelToHex (px (hexToPixel c rw)) (py (hexToPixel c rw)) = mkHex c rw.
Proof.
  set (k := ((rw - parity rw) / 2)%Z).
  assert (Hk : IZR rw = 2 * IZR k + IZR (parity rw)).
  { rewrite <- mult_IZR, <- plus_IZR. f_equal. pose proof (parity_div2 rw). fold k in H. lia. }
  assert (H3 : sqrt 3 * sqrt 3 = 3) by (apply sqrt_sqrt; lra).
  assert (Hsz : HEX_SIZE_R <> 0) by (unfold HEX_SIZE_R, HEX_SIZE; discrR).
  unfold pixelToHex, hexToPixel. simpl.
  set (p := IZR (parity rw)). fold p in Hk.
  assert (Hq : (sqrt 3 / 3 * (HEX_SIZE_R * sqrt 3 * (IZR c + / 2 * p) + HEX_SIZE_R
                                 - HEX_SIZE_R)
                - 1 / 3 * (HEX_SIZE_R * 3 / 2 * IZR rw + HEX_SIZE_R - HEX_SIZE_R))
               / HEX_SIZE_R = IZR (c - k)).
  { rewrite minus_IZR, Hk.
    replace (sqrt 3 / 3 * (HEX_SIZE_R * sqrt 3 * (IZR c + / 2 * p) + HEX_SIZE_R
                             - HEX_SIZE_R))
      with (sqrt 3 * sqrt 3 * HEX_SIZE_R * (IZR c + / 2 * p) / 3) by (field).
    rewrite H3. field. exact Hsz. }
  assert (Hr : 2 / 3 * (HEX_SIZE_R * 3 / 2 * IZR rw + HEX_SIZE_R - HEX_SIZE_R)
               / HEX_SIZE_R = IZR rw).
  { field. exact Hsz. }
  rewrite Hq, Hr, cubeRound_integral.
  unfold cubeToOddr. simpl. fold k. f_equal. lia.
Qed.
End PixelProofs.

(** ** Witnesses and counterexamples of the concrete games *)

Lemma settleCity_guard_noop_witness :
  canSettle solo_state 1 = false /\ settleCity solo_state 1 = solo_state.
Proof.
  split; [vm_compute; reflexivity|].
  apply settleCity_guard_noop. vm_compute. reflexivity.
Defined.

Lemma moveUnit_deducts_cached_cost_witness :
  let st := handleSelection solo_state 5 5 in
  objs st !! 1%nat = Some warrior1 /\ cachedMoveCosts st = Some (cache_of st) /\
  cache_of st !! (5, 3) = Some 2 /\
  exists u', objs (moveUnit st 1 5 3) !! 1%nat = Some u' /\
             unit_col u' = 5 /\ unit_row u' = 3 /\
             movementRemaining u' = movementRemaining warrior1 - 2.
Proof.
  cbv zeta.
  split; [vm_compute; reflexivity|]. split; [vm_compute; reflexivity|].
  split; [vm_compute; reflexivity|].
  apply (moveUnit_deducts_cached_cost (handleSelection solo_state 5 5) 1 warrior1 5 3
           (cache_of (handleSelection solo_state 5 5)) 2);
    vm_compute; reflexivity.
Defined.

(** C5 as stated fails when a unit attacks itself: a Warrior attacking
    itself loses 4 health. *)
Lemma attackUnit_self_attack_counterexample :
  ~ (forall st a d ua ud,
        objs st !! a = Some ua -> objs st !! d = Some ud -> 0 <= damage ua ->
        exists ua', objs (attackUnit st a d) !! a = Some ua' /\ hp ua' = hp ua).
Proof.
  intros H.
  destruct (H solo_state 1%nat 1%nat warrior1 warrior1) as (ua' & Hl & Hh);
    [vm_compute; reflexivity | vm_compute; reflexivity | vm_compute; discriminate |].
  vm_compute in Hl. injection Hl as <-. vm_compute in Hh. discriminate.
Qed.

Lemma attackUnit_effects_witness :
  (1 <> 2)%nat /\ objs battle_state !! 1%nat = Some warrior1 /\
  objs battle_state !! 2%nat = Some warrior2 /\ 0 <= damage warrior1 /\
  (exists ud', objs (attackUnit battle_state 1 2) !! 2%nat = Some ud' /\
               hp ud' <= hp warrior2).
Proof.
  split; [discriminate|]. split; [vm_compute; reflexivity|].
  split; [vm_compute; reflexivity|]. split; [vm_compute; discriminate|].
  apply (attackUnit_effects battle_state 1 2 warrior1 warrior2);
    [discriminate | vm_compute; reflexivity | vm_compute; reflexivity |
     vm_compute; discriminate].
Defined.

Lemma ai_activation_attacks_first_target_witness :
  exists target,
    getUnitAt (set_objs battle_state
                 (<[2%nat := set_hasActed (set_movementRemaining warrior2 (moveRange warrior2))
                               false]> (objs battle_state))) 5 5 = Some target /\
    ai_activate battle_state 2
    = attackUnit (set_objs battle_state
                    (<[2%nat := set_hasActed
                                  (set_movementRemaining warrior2 (moveRange warrior2))
                                  false]> (objs battle_state))) 2 target /\
    exists u', objs (ai_activate battle_state 2) !! 2%nat = Some u' /\
               unit_col u' = unit_col warrior2 /\ unit_row u' = unit_row warrior2.
Proof.
  apply (ai_activation_attacks_first_target battle_state 2 warrior2 (mkHex 5 5) []).
  - vm_compute. reflexivity.
  - vm_compute. reflexivity.
  - discriminate.
  - vm_compute. reflexivity.
Defined.

(** ** C1: the movement-cost cache outlives selections and turns *)

(** C1 (code bug): [clearMovementCache] is never called.  Selecting Warrior 1
    fills the cache; selecting Warrior 2 (no movement left), clearing the
    selection, and ending the turn all leave Warrior 1's costs in it, so a
    later lookup for (5, 3) still answers 2, the cost of Warrior 1's search. *)
Theorem movement_cache_survives_selection_and_turn :
  let st1 := handleSelection two_player_state 5 5 in
  let st2 := handleSelection st1 20 20 in
  let st3 := handleSelection st2 50 50 in
  let st4 := executeAITurn st3 in
  selectedUnit st1 = Some 1%nat /\ cachedMoveCosts st1 <> None /\
  selectedUnit st2 = Some 2%nat /\ cachedMoveCosts st2 = cachedMoveCosts st1 /\
  selectedUnit st3 = None /\ cachedMoveCosts st3 = cachedMoveCosts st1 /\
  turn st4 = TPlayer /\ cachedMoveCosts st4 = cachedMoveCosts st1 /\
  getMovementCost (cachedMoveCosts st4) 5 3 = 2.
Proof.
  cbv zeta.
  split; [vm_compute; reflexivity|]. split; [vm_compute; discriminate|].
  repeat split; vm_compute; reflexivity.
Qed.

(** ** The fog-of-war passes as tile-wise maps *)

Lemma imap_id_like {A} (f : nat -> A -> A) (l : list A) :
  (forall j x, l !! j = Some x -> f j x = x) -> imap f l = l.
Proof.
  intros H. apply list_eq. intros j. rewrite list_lookup_imap.
  destruct (l !! j) eqn:E; simpl; [rewrite (H j a E)|]; reflexivity.
Qed.

Lemma map_board_ext_on F G b :
  (forall i j line t, b !! i = Some line -> line !! j = Some t ->
     F (Z.of_nat i) (Z.of_nat j) t = G (Z.of_nat i) (Z.of_nat j) t) ->
  map_board F b = map_board G b.
Proof.
  intros H. apply list_eq. intros i. unfold map_board. rewrite !list_lookup_imap.
  destruct (b !! i) as [line|] eqn:Ei; simpl; [|reflexivity]. f_equal.
  apply list_eq. intros j. rewrite !list_lookup_imap.
  destruct (line !! j) as [t|] eqn:Ej; simpl; [|reflexivity].
  rewrite (H i j line t Ei Ej). reflexivity.
Qed.

Lemma map_board_id b : map_board (fun _ _ t => t) b = b.
Proof.
  apply imap_id_like. intros i line _. apply imap_id_like. reflexivity.
Qed.

Lemma map_board_id_on F b :
  (forall i j line t, b !! i = Some line -> line !! j = Some t ->
     F (Z.of_nat i) (Z.of_nat j) t = t) ->
  map_board F b = b.
Proof.
  intros H. rewrite <- (map_board_id b) at 2. apply map_board_ext_on. exact H.
Qed.

Lemma map_board_compose F G b :
  map_board F (map_board G b) = map_board (fun i j t => F i j (G i j t)) b.
Proof.
  apply list_eq. intros i. unfold map_board. rewrite !list_lookup_imap.
  destruct (b !! i) as [line|]; simpl; [|reflexivity]. f_equal.
  apply list_eq. intros j. rewrite !list_lookup_imap.
  destruct (line !! j); reflexivity.
Qed.

Lemma board_get_map_board F b rw c :
  board_get (map_board F b) rw c = F rw c <$> board_get b rw c.
Proof.
  unfold board_get, map_board.
  destruct ((rw <? 0) || (c <? 0)) eqn:E; [reflexivity|].
  apply orb_false_iff in E as [E1 E2]. apply Z.ltb_ge in E1, E2.
  rewrite list_lookup_imap.
  destruct (b !! Z.to_nat rw) as [line|]; simpl; [|reflexivity].
  rewrite list_lookup_imap. rewrite !Z2Nat.id by lia. reflexivity.
Qed.

Lemma board_update_map b rw c f :
  board_update b rw c f
  = map_board (fun i j t => if (i =? rw) && (j =? c) then f t else t) b.
Proof.
  unfold board_update.
  destruct ((rw <? 0) || (c <? 0)) eqn:E.
  - symmetry. apply map_board_id_on. intros i j line t _ _.
    apply orb_true_iff in E as [E|E]; apply Z.ltb_lt in E.
    + replace (Z.of_nat i =? rw) with false by bool_lia. reflexivity.
    + replace (Z.of_nat j =? c) with false by bool_lia. rewrite andb_false_r. reflexivity.
  - apply orb_false_iff in E as [E1 E2]. apply Z.ltb_ge in E1, E2.
    apply list_eq. intros i. unfold map_board.
    rewrite list_lookup_alter, list_lookup_imap.
    destruct (decide (Z.to_nat rw = i)) as [<-|Hne].
    + destruct (b !! Z.to_nat rw) as [line|]; simpl; [|reflexivity]. f_equal.
      apply list_eq. intros j. rewrite list_lookup_alter, list_lookup_imap.
      rewrite Z2Nat.id, Z.eqb_refl by lia. simpl.
      destruct (decide (Z.to_nat c = j)) as [<-|Hj].
      * rewrite Z2Nat.id, Z.eqb_refl by lia. reflexivity.
      * destruct (line !! j); simpl; [|reflexivity].
        replace (Z.of_nat j =? c) with false by bool_lia. reflexivity.
    + destruct (b !! i) as [line|]; simpl; [|reflexivity]. f_equal.
      symmetry. apply imap_id_like. intros j x _.
      replace (Z.of_nat i =? rw) with false by bool_lia. reflexivity.
Qed.

Lemma board_update_missing b rw c f :
  board_get b rw c = None -> board_update b rw c f = b.
Proof.
  intros H. rewrite board_update_map. apply map_board_id_on.
  intros i j line t Hi Hj.
  destruct (Z.of_nat i =? rw) eqn:E1, (Z.of_nat j =? c) eqn:E2; try reflexivity.
  apply Z.eqb_eq in E1, E2. subst. exfalso.
  unfold board_get in H. rewrite !Nat2Z.id in H.
  replace ((Z.of_nat i <? 0) || (Z.of_nat j <? 0)) with false in H by bool_lia.
  rewrite Hi, Hj in H. discriminate.
Qed.

Lemma board_update_guarded b rw c f :
  match board_get b rw c with Some _ => board_update b rw c f | None => b end
  = board_update b rw c f.
Proof.
  destruct (board_get b rw c) eqn:E; [reflexivity|].
  symmetry. apply board_update_missing. exact E.
Qed.

Lemma fold_left_ext' {A B} (f g : A -> B -> A) xs a :
  (forall a x, f a x = g a x) -> fold_left f xs a = fold_left g xs a.
Proof.
  intros H. revert a. induction xs as [|x xs IH]; intros a; simpl; [reflexivity|].
  rewrite H. apply IH.
Qed.

Lemma fold_map_board {X} (P : X -> Z -> Z -> HexTile -> HexTile) xs b :
  fold_left (fun b x => map_board (P x) b) xs b
  = map_board (fun i j t => fold_left (fun t x => P x i j t) xs t) b.
Proof.
  revert b. induction xs as [|x xs IH]; intros b; simpl.
  - symmetry. apply map_board_id.
  - rewrite IH, map_board_compose. reflexivity.
Qed.

Lemma fold_idempotent {X} (p : X -> bool) (h : HexTile -> HexTile) xs t :
  (forall t, h (h t) = h t) ->
  fold_left (fun t x => if p x then h t else t) xs t
  = if existsb p xs then h t else t.
Proof.
  intros Hh. revert t. induction xs as [|x xs IH]; intros t; simpl; [reflexivity|].
  rewrite IH. destruct (p x); simpl; [|reflexivity].
  destruct (existsb p xs); [apply Hh|reflexivity].
Qed.

Lemma hide_tile_idem t : hide_tile (hide_tile t) = hide_tile t.
Proof. destruct t; reflexivity. Qed.

Lemma reveal_tile_idem t : reveal_tile (reveal_tile t) = reveal_tile t.
Proof. destruct t; reflexivity. Qed.

Lemma reset_visibility_map b :
  reset_visibility b = map_board (fun i j t => if in_area i j then hide_tile t else t) b.
Proof.
  unfold reset_visibility.
  rewrite (fold_left_ext' _
             (fun b rw => map_board (fun i j t =>
                fold_left (fun t c => if (i =? rw) && (j =? c) then hide_tile t else t)
                  (zrange 0 (BOARD_COLS - 1)) t) b)).
  2:{ intros b' rw. rewrite <- fold_map_board. apply fold_left_ext'.
      intros b'' c. rewrite board_update_guarded, board_update_map. reflexivity. }
  rewrite fold_map_board. apply map_board_ext_on. intros i j _ t _ _.
  rewrite (fold_left_ext' _ (fun t rw =>
             if existsb (fun c => (Z.of_nat i =? rw) && (Z.of_nat j =? c))
                  (zrange 0 (BOARD_COLS - 1)) then hide_tile t else t)).
  - apply fold_idempotent, hide_tile_idem.
  - intros t' rw. apply fold_idempotent, hide_tile_idem.
Qed.

Lemma revealAroundPosition_map b cc cr sight :
  revealAroundPosition b cc cr sight
  = map_board (fun i j t => if in_view cc cr sight i j then reveal_tile t else t) b.
Proof.
  unfold revealAroundPosition.
  rewrite (fold_left_ext' _
             (fun b rw => map_board (fun i j t =>
                fold_left (fun t c =>
                  if isValidHex c rw && (getDistance (mkHex cc cr) (mkHex c rw) <=? sight)
                     && ((i =? rw) && (j =? c)) then reveal_tile t else t)
                  (zrange (cc - sight - 1) (cc + sight + 1)) t) b)).
  2:{ intros b' rw. rewrite <- fold_map_board. apply fold_left_ext'.
      intros b'' c.
      destruct (isValidHex c rw), (getDistance (mkHex cc cr) (mkHex c rw) <=? sight);
        simpl; try (symmetry; apply map_board_id).
      rewrite board_update_guarded, board_update_map. reflexivity. }
  rewrite fold_map_board. apply map_board_ext_on. intros i j _ t _ _.
  unfold in_view.
  rewrite (fold_left_ext' _ (fun t rw =>
             if existsb (fun c => isValidHex c rw
                                  && (getDistance (mkHex cc cr) (mkHex c rw) <=? sight)
                                  && ((Z.of_nat i =? rw) && (Z.of_nat j =? c)))
                  (zrange (cc - sight - 1) (cc + sight + 1)) then reveal_tile t else t)).
  - apply fold_idempotent, reveal_tile_idem.
  - intros t' rw. apply fold_idempotent, reveal_tile_idem.
Qed.

Lemma updateVisibility_board st :
  board (updateVisibility st) = map_board (visibility_tile st) (board st).
Proof.
  unfold updateVisibility. simpl.
  rewrite (fold_left_ext' _ (fun b x => map_board (fun i j t =>
             if in_view (s_col x) (s_row x) STRUCTURE_SIGHT_RANGE i j
             then reveal_tile t else t) b))
    by (intros; apply revealAroundPosition_map).
  rewrite (fold_left_ext' revealAroundUnit (fun b u => map_board (fun i j t =>
             if in_view (unit_col u) (unit_row u) (sightRange u) i j
             then reveal_tile t else t) b))
    by (intros; apply revealAroundPosition_map).
  rewrite !fold_map_board, reset_visibility_map, !map_board_compose.
  apply map_board_ext_on. intros i j _ t _ _.
  rewrite !fold_idempotent by apply reveal_tile_idem. reflexivity.
Qed.

Lemma updateVisibility_as_map st :
  updateVisibility st = set_board st (map_board (visibility_tile st) (board st)).
Proof. rewrite <- updateVisibility_board. reflexivity. Qed.

Lemma visibility_tile_set_board st b : visibility_tile (set_board st b) = visibility_tile st.
Proof. reflexivity. Qed.

Lemma set_board_set_board st b b' : set_board (set_board st b) b' = set_board st b'.
Proof. reflexivity. Qed.

Lemma visibility_tile_idem st i j t :
  visibility_tile st i j (visibility_tile st i j t) = visibility_tile st i j t.
Proof.
  unfold visibility_tile.
  destruct (in_area i j), (seen_by_units st i j), (seen_by_structures st i j);
    destruct t; reflexivity.
Qed.

(** ** C7: [updateVisibility] is idempotent *)

(** C7: running [updateVisibility] a second time on its own result, with the
    units and structures unchanged, gives the same state, hence the same
    [visible] and [explored] flag on every tile. *)
Theorem updateVisibility_idempotent st :
  updateVisibility (updateVisibility st) = updateVisibility st.
Proof.
  rewrite (updateVisibility_as_map (updateVisibility st)).
  rewrite (updateVisibility_as_map st) at 1 2 3.
  rewrite visibility_tile_set_board, set_board_set_board. simpl.
  rewrite map_board_compose, (updateVisibility_as_map st). f_equal.
  apply map_board_ext_on. intros. apply visibility_tile_idem.
Qed.

(** ** How the operations change the board *)

Lemma board_mono_refl b : board_mono b b.
Proof. split; [intros rw c t H He; eauto | tauto]. Qed.

Lemma board_mono_trans b1 b2 b3 :
  board_mono b1 b2 -> board_mono b2 b3 -> board_mono b1 b3.
Proof.
  intros [K1 V1] [K2 V2]. split; [|tauto].
  intros rw c t H He. destruct (K1 rw c t H He) as (t' & H' & He').
  exact (K2 rw c t' H' He').
Qed.

Lemma board_mono_updateVisibility st :
  board_mono (board st) (board (updateVisibility st)).
Proof.
  rewrite updateVisibility_board. split; [|split].
  - intros rw c t H He. rewrite board_get_map_board, H.
    eexists; split; [reflexivity|]. unfold visibility_tile.
    destruct (in_area rw c), (seen_by_units st rw c), (seen_by_structures st rw c);
      destruct t; simpl in *; auto.
  - intros Hv rw c t' H Hvis. rewrite board_get_map_board in H.
    destruct (board_get (board st) rw c) as [t|] eqn:Ht; [|discriminate].
    injection H as <-. pose proof (Hv rw c t Ht) as Ht'. unfold visibility_tile in *.
    destruct (in_area rw c), (seen_by_units st rw c), (seen_by_structures st rw c);
      destruct t; simpl in *; auto; discriminate.
  - intros Hc rw c t' H. rewrite board_get_map_board in H.
    destruct (board_get (board st) rw c) as [t|] eqn:Ht; [|discriminate].
    injection H as <-. pose proof (Hc rw c t Ht) as Ht'. unfold visibility_tile in *.
    destruct (in_area rw c), (seen_by_units st rw c), (seen_by_structures st rw c);
      destruct t; simpl in *; auto.
Qed.

Ltac uv_mono :=
  match goal with
  | |- board_mono _ (board (updateVisibility ?x)) => exact (board_mono_updateVisibility x)
  end.

Lemma board_attackUnit st a d : board (attackUnit st a d) = board st.
Proof.
  unfold attackUnit.
  destruct (objs st !! a) as [ua|], (objs st !! d) as [ud|]; try reflexivity.
  cbv zeta.
  destruct (<[d:=set_hp ud (hp ud - damage ua)]> (objs st) !! a) as [a'|];
  [ destruct (<[a:=set_hasActed a' true]> (<[d:=set_hp ud (hp ud - damage ua)]> (objs st)) !! d)
      as [d'|]; [destruct (hp d' <=? 0)|]
  | destruct (<[d:=set_hp ud (hp ud - damage ua)]> (objs st) !! d) as [d'|];
      [destruct (hp d' <=? 0)|] ]; reflexivity.
Qed.

Lemma board_mono_moveUnit st ref c rw :
  board_mono (board st) (board (moveUnit st ref c rw)).
Proof.
  unfold moveUnit. destruct (objs st !! ref) as [u|]; [|apply board_mono_refl].
  rewrite (let_pair_fst (applyMovement _ _ _ _)).
  set (u1 := fst (applyMovement (cachedMoveCosts st) u c rw)).
  cbv zeta.
  assert (H2 : board_mono (board st)
                 (board (if owner_eqb (owner u1) player
                         then updateVisibility (set_objs st (<[ref:=u1]> (objs st)))
                         else set_objs st (<[ref:=u1]> (objs st))))).
  { destruct (owner_eqb (owner u1) player);
      [uv_mono | apply board_mono_refl]. }
  revert H2.
  generalize (if owner_eqb (owner u1) player
              then updateVisibility (set_objs st (<[ref:=u1]> (objs st)))
              else set_objs st (<[ref:=u1]> (objs st))).
  intros st2 H2.
  destruct (0 <? movementRemaining u1);
    rewrite ?let_pair_fst, ?getReachableHexes_fst;
    destruct (negb (hasActed u1)), ((movementRemaining u1 <=? 0) && hasActed u1);
    exact H2.
Qed.

Lemma board_mono_handleSelection st c rw :
  board_mono (board st) (board (handleSelection st c rw)).
Proof.
  unfold handleSelection.
  destruct (turn st); [|apply board_mono_refl].
  destruct (isAnimating st); [apply board_mono_refl|].
  assert (Hnone : board_mono (board st) (board
    (match selectedUnit st with
     | Some sel =>
       if existsb (hex_eqb (mkHex c rw)) (validMoves st) then moveUnit st sel c rw
       else if existsb (hex_eqb (mkHex c rw)) (validTargets st) then
         match getUnitAt st c rw with
         | Some target => attackUnit st sel target
         | None => st
         end
       else deselect st
     | None => st
     end))).
  { destruct (selectedUnit st) as [sel|]; [|apply board_mono_refl].
    destruct (existsb (hex_eqb (mkHex c rw)) (validMoves st));
      [apply board_mono_moveUnit|].
    destruct (existsb (hex_eqb (mkHex c rw)) (validTargets st)); [|apply board_mono_refl].
    destruct (getUnitAt st c rw); [rewrite board_attackUnit|]; apply board_mono_refl. }
  destruct (getUnitAt st c rw) as [r0|] eqn:Eg; [|exact Hnone].
  destruct (objs st !! r0) as [u|]; [|exact Hnone].
  destruct (owner_eqb (owner u) player); [|exact Hnone].
  cbv beta iota zeta.
  destruct (0 <? movementRemaining u);
    rewrite ?let_pair_fst, ?getReachableHexes_fst;
    destruct (negb (hasActed u)); apply board_mono_refl.
Qed.

Lemma board_mono_settleCity st ref :
  board_mono (board st) (board (settleCity st ref)).
Proof.
  unfold settleCity. destruct (negb (canSettle st ref)); [apply board_mono_refl|].
  destruct (objs st !! ref) as [u|]; [|apply board_mono_refl].
  rewrite (let_pair_fst (createStructure _ _ _ _ _)).
  uv_mono.
Qed.

Lemma board_findBestMoveTowards st u t : board (fst (findBestMoveTowards st u t)) = board st.
Proof.
  unfold findBestMoveTowards. rewrite let_pair_fst. simpl.
  rewrite getReachableHexes_fst. reflexivity.
Qed.

Lemma board_ai_attack_after_move st ref : board (ai_attack_after_move st ref) = board st.
Proof.
  unfold ai_attack_after_move.
  destruct (objs st !! ref) as [u|]; [|reflexivity].
  destruct (negb (hasActed u)); [|reflexivity].
  destruct (getAttackableTargets st u) as [|t ts]; [reflexivity|].
  destruct (getUnitAt st (col t) (row t)); [apply board_attackUnit|reflexivity].
Qed.

Lemma board_mono_ai_activate st ref :
  board_mono (board st) (board (ai_activate st ref)).
Proof.
  unfold ai_activate.
  destruct (objs st !! ref) as [u0|]; [|apply board_mono_refl].
  destruct (hp u0 <=? 0); [apply board_mono_refl|].
  set (u := set_hasActed (set_movementRemaining u0 (moveRange u0)) false).
  set (st1 := set_objs st (<[ref:=u]> (objs st))).
  change (board st) with (board st1).
  cbv zeta.
  assert (Hmove : board_mono (board st1) (board
    (if 0 <? movementRemaining u then
       match findNearestPlayer st1 u with
       | Some nref =>
         match objs st1 !! nref with
         | Some nearest =>
           let '(st2, bestHex) := findBestMoveTowards st1 u nearest in
           match bestHex with
           | Some h => ai_attack_after_move (moveUnit st2 ref (col h) (row h)) ref
           | None => st2
           end
         | None => st1
         end
       | None => st1
       end
     else st1))).
  { destruct (0 <? movementRemaining u); [|apply board_mono_refl].
    destruct (findNearestPlayer st1 u) as [nref|]; [|apply board_mono_refl].
    destruct (objs st1 !! nref) as [nearest|]; [|apply board_mono_refl].
    rewrite let_pair_fst.
    destruct (snd (findBestMoveTowards st1 u nearest)) as [h|].
    - rewrite board_ai_attack_after_move, <- (board_findBestMoveTowards st1 u nearest).
      apply board_mono_moveUnit.
    - rewrite board_findBestMoveTowards. apply board_mono_refl. }
  destruct (getAttackableTargets st1 u) as [|th tl]; [exact Hmove|].
  destruct (negb (hasActed u)); [|exact Hmove].
  destruct (getUnitAt st1 (col th) (row th)); [|exact Hmove].
  rewrite board_attackUnit. apply board_mono_refl.
Qed.

Lemma board_mono_fold_ai l st :
  board_mono (board st) (board (fold_left ai_activate l st)).
Proof.
  revert st. induction l as [|ref l IH]; intros st; simpl; [apply board_mono_refl|].
  eapply board_mono_trans; [apply board_mono_ai_activate|apply IH].
Qed.

Lemma board_mono_executeAITurn st :
  board_mono (board st) (board (executeAITurn st)).
Proof.
  unfold executeAITurn. cbv zeta.
  exact (board_mono_fold_ai _ (deselect (set_turn st TEnemy))).
Qed.

Lemma board_mono_step st st' : step st st' -> board_mono (board st) (board st').
Proof.
  intros []; [apply board_mono_handleSelection | apply board_mono_settleCity |
              apply board_mono_executeAITurn].
Qed.

Lemma visible_explored_hidden b :
  Forall (Forall (fun t => visible t = false)) b -> visible_explored b.
Proof.
  intros H rw c t Ht Hv. unfold board_get in Ht.
  destruct ((rw <? 0) || (c <? 0)); [discriminate|].
  destruct (b !! Z.to_nat rw) as [line|] eqn:El; [|discriminate].
  eapply Forall_lookup_1 in H; [|exact El].
  eapply Forall_lookup_1 in H; [|exact Ht]. congruence.
Qed.

Lemma board_push_units l st : board (fold_left push_unit l st) = board st.
Proof.
  revert st. induction l as [|[[[t o] c] rw] l IH]; intros st; simpl; [reflexivity|].
  rewrite IH. unfold push_unit. rewrite let_pair_fst. reflexivity.
Qed.

Lemma visible_explored_init cache tf :
  visible_explored (board (initGameState cache (generatedBoard tf))).
Proof.
  unfold initGameState.
  apply (board_mono_updateVisibility (fold_left push_unit starting_units _)).
  rewrite board_push_units. simpl. apply visible_explored_hidden.
  apply List.Forall_forall. intros line Hl. apply in_map_iff in Hl as (rw & <- & _).
  apply List.Forall_forall. intros t Ht. apply in_map_iff in Ht as (c & <- & _).
  reflexivity.
Qed.

Lemma visible_explored_reachable st : reachable st -> visible_explored (board st).
Proof.
  induction 1 as [cache tf|st st' _ IH Hs].
  - apply visible_explored_init.
  - apply (board_mono_step _ _ Hs). exact IH.
Qed.

(** ** C6: fog of war only ever uncovers tiles *)

(** C6: along any sequence of operations from a state of a started game,
    every tile explored at the start is still explored at the end, and on
    every board of the game each visible tile is explored. *)
Theorem explored_monotone_visible_explored st st' :
  reachable st -> clos_refl_trans _ step st st' ->
  explored_kept (board st) (board st') /\ visible_explored (board st').
Proof.
  intros Hr Hs.
  assert (Hm : board_mono (board st) (board st')).
  { clear Hr. induction Hs as [x y Hxy|x|x y z _ IH1 _ IH2].
    - apply board_mono_step, Hxy.
    - apply board_mono_refl.
    - exact (board_mono_trans _ _ _ IH1 IH2). }
  destruct Hm as (Hk & Hv & _). split; [exact Hk|].
  apply Hv, visible_explored_reachable, Hr.
Qed.

(** ** The search only offers hexes it can pay for *)

Section SearchCosts.
Variable u : Unit.
Variable brd : Board.
Variable gua : Z -> Z -> option nat.
Variable ivh : Z -> Z -> bool.
Hypothesis Hcosts : costs_ok brd.

Lemma relax_ok cost acc next :
  0 <= cost -> loop_ok u acc -> loop_ok u (relax u brd gua ivh cost acc next).
Proof.
  intros Hc Hok. destruct acc as [[F R] L]. unfold relax.
  destruct (negb (ivh (col next) (row next))); [exact Hok|].
  destruct (gua (col next) (row next)); [exact Hok|].
  destruct (negb (isPassableTile _ _)); [exact Hok|].
  destruct (board_get brd (row next) (col next)) as [t|] eqn:Et; [|exact Hok].
  pose proof (Hcosts _ _ _ Et) as Hmc.
  destruct (movementCost t) as [mc|]; [|exact Hok].
  destruct ((cost + mc <=? movementRemaining u) && _) eqn:Ec; [|exact Hok].
  apply andb_true_iff in Ec as [Ec _]. apply Z.leb_le in Ec.
  destruct Hok as (HF & HR & HL). split; [|split].
  - apply Forall_app. split; [exact HF|]. constructor; [simpl; lia|constructor].
  - intros key k Hk. apply lookup_insert_Some in Hk as [[_ <-]|[_ Hk]]; [lia|].
    exact (HR key k Hk).
  - intros h Hh. apply in_app_or in Hh as [Hh|[<-|[]]].
    + destruct (decide ((col next, row next) = (col h, row h))) as [E|E].
      * rewrite E, lookup_insert_eq. eexists; split; [reflexivity|lia].
      * rewrite lookup_insert_ne by exact E. exact (HL h Hh).
    + rewrite lookup_insert_eq. eexists; split; [reflexivity|lia].
Qed.

Lemma fold_relax_ok cost l acc :
  0 <= cost -> loop_ok u acc -> loop_ok u (fold_left (relax u brd gua ivh cost) l acc).
Proof.
  intros Hc. revert acc. induction l as [|x l IH]; intros acc Hok; simpl; [exact Hok|].
  apply IH, relax_ok; assumption.
Qed.

Lemma bfs_loop_ok fuel ls : loop_ok u ls -> loop_ok u (bfs_loop u brd gua ivh fuel ls).
Proof.
  revert ls. induction fuel as [|fuel IH]; intros [[F R] L] Hok; simpl; [exact Hok|].
  destruct F as [|[[cc cr] cost] rest]; [exact Hok|].
  destruct Hok as (HF & HR & HL). apply Forall_cons in HF as [Hcost HF].
  simpl in Hcost. apply IH.
  destruct (cost <? movementRemaining u).
  - apply fold_relax_ok; [exact Hcost|]. split; [exact HF|]. split; assumption.
  - split; [exact HF|]. split; assumption.
Qed.

Lemma bfs_init_ok : loop_ok u (bfs_init u).
Proof.
  split; [|split].
  - constructor; [simpl; lia|constructor].
  - intros key k Hk. apply lookup_insert_Some in Hk as [[_ <-]|[_ Hk]]; [lia|].
    rewrite lookup_empty in Hk. discriminate.
  - intros h [].
Qed.

Lemma search_costs fuel h :
  In h (snd (pathfinderGetReachableHexes u brd gua ivh fuel)) ->
  exists k, fst (pathfinderGetReachableHexes u brd gua ivh fuel) !! (col h, row h) = Some k
            /\ 0 <= k <= movementRemaining u.
Proof.
  unfold pathfinderGetReachableHexes.
  pose proof (bfs_loop_ok fuel _ bfs_init_ok) as Hok.
  destruct (bfs_loop u brd gua ivh fuel (bfs_init u)) as [[F R] L].
  destruct Hok as (_ & HR & HL). simpl. intros Hh.
  destruct (HL h Hh) as (k & Hk & Hle). exists k. split; [exact Hk|].
  pose proof (HR _ _ Hk). lia.
Qed.
End SearchCosts.

(** ** The unit bounds are kept by every operation *)

Lemma units_ok_moveUnit st ref u c rw m k :
  units_ok st -> objs st !! ref = Some u -> cachedMoveCosts st = Some m ->
  m !! (c, rw) = Some k -> 0 <= k <= movementRemaining u ->
  units_ok (moveUnit st ref c rw).
Proof.
  intros HU Hu Hc Hk Hb r x Hin Hl.
  rewrite units_moveUnit in Hin. rewrite objs_moveUnit, Hu in Hl.
  destruct (decide (r = ref)) as [->|Hne].
  - rewrite lookup_insert_eq in Hl. injection Hl as <-.
    destruct (HU ref u Hin Hu) as [Hmr Hhp].
    unfold applyMovement, getMovementCost. rewrite Hc, Hk.
    unfold unit_ok. simpl. lia.
  - rewrite lookup_insert_ne in Hl by congruence. exact (HU r x Hin Hl).
Qed.

Lemma sel_ok_deselect st : sel_ok (deselect st).
Proof. intros sel h Hs. discriminate Hs. Qed.

Lemma sel_ok_none st : selectedUnit st = None -> sel_ok st.
Proof. intros H sel h Hs. congruence. Qed.

Lemma sel_ok_no_moves st v : sel_ok (set_validTargets (set_validMoves st []) v).
Proof. intros sel h _ Hin. destruct Hin. Qed.

(** The selection after a fresh search for the selected unit [u1]. *)
Lemma sel_ok_fresh st2 ref u1 v :
  (selectedUnit st2 = Some ref \/ selectedUnit st2 = None) ->
  objs st2 !! ref = Some u1 -> costs_ok (board st2) ->
  sel_ok (set_validTargets
            (set_validMoves
               (set_cachedMoveCosts st2
                  (Some (fst (pathfinderGetReachableHexes u1 (board st2) (getUnitAt st2)
                                isValidHex (reach_fuel u1)))))
               (snd (pathfinderGetReachableHexes u1 (board st2) (getUnitAt st2)
                       isValidHex (reach_fuel u1)))) v).
Proof.
  intros Hs Hu Hc sel h Hsel Hin.
  unfold set_validTargets, set_validMoves, set_cachedMoveCosts in Hsel, Hin |- *.
  cbn [selectedUnit validMoves objs cachedMoveCosts] in Hsel, Hin |- *.
  destruct Hs as [Hs|Hs]; rewrite Hs in Hsel; [|discriminate].
  injection Hsel as <-.
  destruct (search_costs u1 (board st2) (getUnitAt st2) isValidHex Hc _ h Hin)
    as (k & Hk & Hb).
  exists u1, (fst (pathfinderGetReachableHexes u1 (board st2) (getUnitAt st2)
                     isValidHex (reach_fuel u1))), k.
  auto.
Qed.

Lemma moveUnit_sel st ref c rw u :
  objs st !! ref = Some u ->
  (selectedUnit st = Some ref \/ selectedUnit st = None) -> costs_ok (board st) ->
  sel_ok (moveUnit st ref c rw) /\
  (selectedUnit st = None -> selectedUnit (moveUnit st ref c rw) = None).
Proof.
  intros Hu Hsel Hc. unfold moveUnit. rewrite Hu.
  rewrite (let_pair_fst (applyMovement _ _ _ _)).
  set (u1 := fst (applyMovement (cachedMoveCosts st) u c rw)).
  cbv zeta.
  assert (H2 : forall st2,
             st2 = (if owner_eqb (owner u1) player
                    then updateVisibility (set_objs st (<[ref:=u1]> (objs st)))
                    else set_objs st (<[ref:=u1]> (objs st))) ->
             objs st2 !! ref = Some u1 /\ selectedUnit st2 = selectedUnit st /\
             costs_ok (board st2)).
  { intros st2 ->. destruct (owner_eqb (owner u1) player).
    - split; [apply lookup_insert_eq|split; [reflexivity|]].
      exact (proj2 (proj2 (board_mono_updateVisibility
                             (set_objs st (<[ref:=u1]> (objs st))))) Hc).
    - split; [apply lookup_insert_eq|split; [reflexivity|exact Hc]]. }
  specialize (H2 _ eq_refl). revert H2.
  generalize (if owner_eqb (owner u1) player
              then updateVisibility (set_objs st (<[ref:=u1]> (objs st)))
              else set_objs st (<[ref:=u1]> (objs st))).
  intros st2 (Hu2 & Hs2 & Hc2).
  assert (Hs2' : selectedUnit st2 = Some ref \/ selectedUnit st2 = None)
    by (rewrite Hs2; exact Hsel).
  destruct (0 <? movementRemaining u1);
    rewrite ?let_pair_fst, ?getReachableHexes_fst, ?getReachableHexes_snd;
    destruct (negb (hasActed u1)), ((movementRemaining u1 <=? 0) && hasActed u1);
    (split; [| intros Hn; first [reflexivity | exact (eq_trans Hs2 Hn)]]);
    first [ apply sel_ok_deselect | apply sel_ok_no_moves
          | apply (sel_ok_fresh st2 ref u1); assumption ].
Qed.

Lemma units_ok_attackUnit st a d : units_ok st -> units_ok (attackUnit st a d).
Proof.
  intros HU.
  destruct (objs st !! a) as [ua|] eqn:Ha;
    [|unfold attackUnit; rewrite Ha; exact HU].
  destruct (objs st !! d) as [ud|] eqn:Hd;
    [|unfold attackUnit; rewrite Ha, Hd; exact HU].
  intros r x Hin Hl.
  rewrite (units_attackUnit st a d ua ud Ha Hd) in Hin.
  assert (Hin' : In r (units st) /\ (hp ud - damage ua <= 0 -> r <> d)).
  { destruct (hp ud - damage ua <=? 0) eqn:E.
    - apply filter_In in Hin as [Hin Hx]. split; [exact Hin|].
      intros _ ->. rewrite Nat.eqb_refl in Hx. discriminate.
    - split; [exact Hin|]. intros Hle. apply Z.leb_le in Hle. congruence. }
  clear Hin. destruct Hin' as [Hin Hkeep].
  rewrite objs_attackUnit, Ha, Hd in Hl. cbv zeta in Hl.
  destruct (decide (r = d)) as [->|Hrd].
  - destruct (HU d ud Hin Hd) as [Hmr Hhp].
    assert (Halive : 0 < hp ud - damage ua)
      by (destruct (Z_le_gt_dec (hp ud - damage ua) 0); [exfalso; tauto | lia]).
    destruct (decide (a = d)) as [->|Had].
    + rewrite lookup_insert_eq, lookup_insert_eq in Hl. injection Hl as <-.
      split; simpl; lia.
    + rewrite lookup_insert_ne in Hl by congruence. rewrite Ha in Hl.
      rewrite lookup_insert_ne in Hl by congruence. rewrite lookup_insert_eq in Hl.
      injection Hl as <-. split; simpl; lia.
  - destruct (decide (r = a)) as [->|Hra].
    + rewrite lookup_insert_ne in Hl by congruence. rewrite Ha in Hl.
      rewrite lookup_insert_eq in Hl. injection Hl as <-.
      destruct (HU a ua Hin Ha). split; simpl; lia.
    + destruct (<[d:=set_hp ud (hp ud - damage ua)]> (objs st) !! a).
      * rewrite !lookup_insert_ne in Hl by congruence. exact (HU r x Hin Hl).
      * rewrite lookup_insert_ne in Hl by congruence. exact (HU r x Hin Hl).
Qed.

Lemma attackUnit_sel st a d :
  (sel_ok st -> sel_ok (attackUnit st a d)) /\
  (selectedUnit st = None -> selectedUnit (attackUnit st a d) = None).
Proof.
  unfold attackUnit.
  destruct (objs st !! a) as [ua|], (objs st !! d) as [ud|]; try tauto.
  split; intros _; [apply sel_ok_deselect|reflexivity].
Qed.

Lemma inv_handleSelection st c rw : game_inv st -> game_inv (handleSelection st c rw).
Proof.
  intros (HU & HS & HC).
  pose proof (proj2 (proj2 (board_mono_handleSelection st c rw)) HC) as HC'.
  enough (units_ok (handleSelection st c rw) /\ sel_ok (handleSelection st c rw))
    by (split; [tauto|split; [tauto|exact HC']]).
  clear HC'. unfold handleSelection.
  destruct (turn st); [|auto]. destruct (isAnimating st); [auto|].
  assert (Hnone : units_ok
    (match selectedUnit st with
     | Some sel =>
       if existsb (hex_eqb (mkHex c rw)) (validMoves st) then moveUnit st sel c rw
       else if existsb (hex_eqb (mkHex c rw)) (validTargets st) then
         match getUnitAt st c rw with
         | Some target => attackUnit st sel target
         | None => st
         end
       else deselect st
     | None => st
     end) /\ sel_ok
    (match selectedUnit st with
     | Some sel =>
       if existsb (hex_eqb (mkHex c rw)) (validMoves st) then moveUnit st sel c rw
       else if existsb (hex_eqb (mkHex c rw)) (validTargets st) then
         match getUnitAt st c rw with
         | Some target => attackUnit st sel target
         | None => st
         end
       else deselect st
     | None => st
     end)).
  { destruct (selectedUnit st) as [sel|] eqn:Es; [|auto].
    destruct (existsb (hex_eqb (mkHex c rw)) (validMoves st)) eqn:Em.
    - apply existsb_exists in Em as (h & Hin & Heq).
      unfold hex_eqb in Heq. apply andb_true_iff in Heq as [E1 E2].
      apply Z.eqb_eq in E1, E2. simpl in E1, E2.
      destruct (HS sel h Es Hin) as (u & m & k & Hu & Hm & Hk & Hb).
      rewrite <- E1, <- E2 in Hk.
      split; [apply (units_ok_moveUnit st sel u c rw m k); assumption|].
      apply (moveUnit_sel st sel c rw u); auto.
    - destruct (existsb (hex_eqb (mkHex c rw)) (validTargets st));
        [|split; [exact HU|apply sel_ok_deselect]].
      destruct (getUnitAt st c rw); [|auto].
      split; [apply units_ok_attackUnit, HU | apply attackUnit_sel, HS]. }
  destruct (getUnitAt st c rw) as [r0|] eqn:Eg; [|exact Hnone].
  destruct (objs st !! r0) as [u|] eqn:Eu; [|exact Hnone].
  destruct (owner_eqb (owner u) player); [|exact Hnone].
  cbv beta iota zeta.
  destruct (0 <? movementRemaining u);
    rewrite ?let_pair_fst, ?getReachableHexes_fst, ?getReachableHexes_snd;
    destruct (negb (hasActed u)); (split; [exact HU|]);
    first [ apply sel_ok_no_moves
          | apply (sel_ok_fresh (set_selectedUnit st (Some r0)) r0 u);
            [left; reflexivity | exact Eu | exact HC] ].
Qed.

Lemma inv_settleCity st ref : game_inv st -> game_inv (settleCity st ref).
Proof.
  intros (HU & HS & HC).
  pose proof (proj2 (proj2 (board_mono_settleCity st ref)) HC) as HC'.
  revert HC'. unfold settleCity.
  destruct (negb (canSettle st ref)); [intros _; split; auto|].
  destruct (objs st !! ref) as [u|]; [|intros _; split; auto].
  rewrite (let_pair_fst (createStructure _ _ _ _ _)). intros HC'.
  split; [|split; [apply sel_ok_none; reflexivity|exact HC']].
  intros r x Hin Hl.
  change (In r (List.filter (fun x => negb (x =? ref)%nat) (units st))) in Hin.
  change (objs st !! r = Some x) in Hl.
  apply filter_In in Hin as [Hin _]. exact (HU r x Hin Hl).
Qed.

Lemma findBestMoveTowards_fst st u t :
  fst (findBestMoveTowards st u t)
  = set_cachedMoveCosts st
      (Some (fst (pathfinderGetReachableHexes u (board st) (getUnitAt st) isValidHex
                    (reach_fuel u)))).
Proof.
  unfold findBestMoveTowards. rewrite let_pair_fst. apply getReachableHexes_fst.
Qed.

Lemma findBestMoveTowards_snd st u t :
  snd (findBestMoveTowards st u t)
  = pathfinderFindBestMove
      (snd (pathfinderGetReachableHexes u (board st) (getUnitAt st) isValidHex
              (reach_fuel u)))
      (mkHex (unit_col t) (unit_row t)).
Proof.
  unfold findBestMoveTowards. rewrite let_pair_fst. simpl.
  rewrite getReachableHexes_snd. reflexivity.
Qed.

Lemma pathfinderFindBestMove_in l t h : pathfinderFindBestMove l t = Some h -> In h l.
Proof.
  unfold pathfinderFindBestMove.
  match goal with |- context [fold_left ?f _ _] => set (F := f) end.
  assert (G : forall l' acc, incl l' l -> (forall h, fst acc = Some h -> In h l) ->
                forall h, fst (fold_left F l' acc) = Some h -> In h l).
  { induction l' as [|x l' IH]; intros acc Hincl Hacc; simpl; [exact Hacc|].
    apply IH; [intros y Hy; apply Hincl; right; exact Hy|].
    intros h'. unfold F. destruct acc as [bh bd].
    destruct (match bd with None => true | Some b => getDistance x t <? b end).
    - simpl. intros [= <-]. apply Hincl. left. reflexivity.
    - exact (Hacc h'). }
  apply G; [intros y Hy; exact Hy | intros h' [=]].
Qed.

Lemma inv_ai_attack_after_move st ref :
  units_ok st -> selectedUnit st = None ->
  units_ok (ai_attack_after_move st ref) /\ selectedUnit (ai_attack_after_move st ref) = None.
Proof.
  intros HU HS. unfold ai_attack_after_move.
  destruct (objs st !! ref) as [u|]; [|auto].
  destruct (negb (hasActed u)); [|auto].
  destruct (getAttackableTargets st u) as [|t ts]; [auto|].
  destruct (getUnitAt st (col t) (row t)); [|auto].
  split; [apply units_ok_attackUnit, HU | apply attackUnit_sel, HS].
Qed.

Lemma inv_ai_activate st ref :
  units_ok st -> selectedUnit st = None -> costs_ok (board st) ->
  units_ok (ai_activate st ref) /\ selectedUnit (ai_activate st ref) = None.
Proof.
  intros HU HS HC. unfold ai_activate.
  destruct (objs st !! ref) as [u0|] eqn:Hu0; [|auto].
  destruct (hp u0 <=? 0) eqn:Hhp; [auto|].
  set (u := set_hasActed (set_movementRemaining u0 (moveRange u0)) false).
  set (st1 := set_objs st (<[ref:=u]> (objs st))).
  assert (HU1 : units_ok st1).
  { intros r x Hin Hl. unfold st1, set_objs in Hl. cbn [objs] in Hl.
    destruct (decide (r = ref)) as [->|Hne].
    - rewrite lookup_insert_eq in Hl. injection Hl as <-.
      destruct (HU ref u0 Hin Hu0) as [Hmr _]. apply Z.leb_gt in Hhp.
      unfold unit_ok, u. simpl. lia.
    - rewrite lookup_insert_ne in Hl by congruence. exact (HU r x Hin Hl). }
  assert (HS1 : selectedUnit st1 = None) by exact HS.
  assert (HC1 : costs_ok (board st1)) by exact HC.
  assert (Hu1 : objs st1 !! ref = Some u) by apply lookup_insert_eq.
  cbv zeta.
  assert (Hmove : units_ok
    (if 0 <? movementRemaining u then
       match findNearestPlayer st1 u with
       | Some nref =>
         match objs st1 !! nref with
         | Some nearest =>
           let '(st2, bestHex) := findBestMoveTowards st1 u nearest in
           match bestHex with
           | Some h => ai_attack_after_move (moveUnit st2 ref (col h) (row h)) ref
           | None => st2
           end
         | None => st1
         end
       | None => st1
       end
     else st1) /\ selectedUnit
    (if 0 <? movementRemaining u then
       match findNearestPlayer st1 u with
       | Some nref =>
         match objs st1 !! nref with
         | Some nearest =>
           let '(st2, bestHex) := findBestMoveTowards st1 u nearest in
           match bestHex with
           | Some h => ai_attack_after_move (moveUnit st2 ref (col h) (row h)) ref
           | None => st2
           end
         | None => st1
         end
       | None => st1
       end
     else st1) = None).
  { destruct (0 <? movementRemaining u); [|auto].
    destruct (findNearestPlayer st1 u) as [nref|]; [|auto].
    destruct (objs st1 !! nref) as [nearest|]; [|auto].
    rewrite let_pair_fst, findBestMoveTowards_fst, findBestMoveTowards_snd.
    destruct (pathfinderFindBestMove _ _) as [h|] eqn:Eh; [|auto].
    apply pathfinderFindBestMove_in in Eh.
    destruct (search_costs u (board st1) (getUnitAt st1) isValidHex HC1 _ h Eh)
      as (k & Hk & Hb).
    set (st2 := set_cachedMoveCosts st1
                  (Some (fst (pathfinderGetReachableHexes u (board st1) (getUnitAt st1)
                                isValidHex (reach_fuel u))))).
    apply inv_ai_attack_after_move.
    - apply (units_ok_moveUnit st2 ref u (col h) (row h)
               (fst (pathfinderGetReachableHexes u (board st1) (getUnitAt st1)
                       isValidHex (reach_fuel u))) k); auto.
    - apply (moveUnit_sel st2 ref (col h) (row h) u); auto. }
  destruct (getAttackableTargets st1 u) as [|th tl]; [exact Hmove|].
  destruct (negb (hasActed u)); [|exact Hmove].
  destruct (getUnitAt st1 (col th) (row th)); [|exact Hmove].
  split; [apply units_ok_attackUnit, HU1 | apply attackUnit_sel, HS1].
Qed.

Lemma units_ok_reset_player_units st : units_ok st -> units_ok (reset_player_units st).
Proof.
  intros HU. unfold reset_player_units, units_ok, set_objs. cbn [units objs].
  match goal with |- context [fold_left ?f _ _] => set (F := f) end.
  assert (G : forall l o,
             (forall r x, In r (units st) -> o !! r = Some x -> unit_ok x) ->
             forall r x, In r (units st) -> fold_left F l o !! r = Some x -> unit_ok x).
  { induction l as [|ref l IH]; intros o Ho; simpl; [exact Ho|].
    apply IH. intros r x Hin Hl. unfold F in Hl.
    destruct (o !! ref) as [u|] eqn:Eo; [|exact (Ho r x Hin Hl)].
    destruct (owner_eqb (owner u) player); [|exact (Ho r x Hin Hl)].
    destruct (decide (r = ref)) as [->|Hne].
    - rewrite lookup_insert_eq in Hl. injection Hl as <-.
      destruct (Ho ref u Hin Eo) as [Hmr Hhp]. split; simpl; lia.
    - rewrite lookup_insert_ne in Hl by congruence. exact (Ho r x Hin Hl). }
  apply G. exact HU.
Qed.

Lemma inv_fold_ai l st :
  units_ok st -> selectedUnit st = None -> costs_ok (board st) ->
  units_ok (fold_left ai_activate l st) /\ selectedUnit (fold_left ai_activate l st) = None /\
  costs_ok (board (fold_left ai_activate l st)).
Proof.
  revert st. induction l as [|ref l IH]; intros st HU HS HC; simpl; [auto|].
  destruct (inv_ai_activate st ref HU HS HC) as [HU1 HS1].
  apply IH; [exact HU1|exact HS1|].
  exact (proj2 (proj2 (board_mono_ai_activate st ref)) HC).
Qed.

Lemma inv_executeAITurn st : game_inv st -> game_inv (executeAITurn st).
Proof.
  intros (HU & _ & HC). unfold executeAITurn. cbv zeta.
  match goal with |- context [fold_left ai_activate ?l _] =>
    destruct (inv_fold_ai l (deselect (set_turn st TEnemy)) HU eq_refl HC)
      as (HU1 & HS1 & HC1) end.
  split; [|split; [apply sel_ok_none; exact HS1|exact HC1]].
  apply units_ok_reset_player_units. exact HU1.
Qed.

Lemma inv_step st st' : step st st' -> game_inv st -> game_inv st'.
Proof.
  intros []; intros; [apply inv_handleSelection | apply inv_settleCity |
                      apply inv_executeAITurn]; assumption.
Qed.

Lemma board_get_Forall (P : HexTile -> Prop) b rw c t :
  Forall (Forall P) b -> board_get b rw c = Some t -> P t.
Proof.
  intros H Ht. unfold board_get in Ht.
  destruct ((rw <? 0) || (c <? 0)); [discriminate|].
  destruct (b !! Z.to_nat rw) as [line|] eqn:El; [|discriminate].
  eapply Forall_lookup_1 in H; [|exact El].
  eapply Forall_lookup_1 in H; [|exact Ht]. exact H.
Qed.

Lemma selected_push_units l st :
  selectedUnit (fold_left push_unit l st) = selectedUnit st.
Proof.
  revert st. induction l as [|[[[t o] c] rw] l IH]; intros st; simpl; [reflexivity|].
  rewrite IH. unfold push_unit. rewrite let_pair_fst. reflexivity.
Qed.

Lemma units_ok_b_sound st : units_ok_b st = true -> units_ok st.
Proof.
  intros H r x Hin Hl. unfold units_ok_b in H. rewrite forallb_forall in H.
  specialize (H r Hin). rewrite Hl in H.
  apply andb_true_iff in H as [H H3]. apply andb_true_iff in H as [H1 H2].
  apply Z.leb_le in H1, H2. apply Z.ltb_lt in H3. split; [split|]; assumption.
Qed.

Lemma units_ok_push_units cache b :
  units_ok (fold_left push_unit starting_units
              (mkState TPlayer [] ∅ [] b None [] [] false cache 0 0)).
Proof.
  apply units_ok_b_sound. vm_compute. reflexivity.
Qed.

Lemma units_ok_updateVisibility st : units_ok st -> units_ok (updateVisibility st).
Proof. intros H r x Hin Hl. exact (H r x Hin Hl). Qed.

Lemma selected_updateVisibility st : selectedUnit (updateVisibility st) = selectedUnit st.
Proof. reflexivity. Qed.

Lemma inv_init cache tf : game_inv (initGameState cache (generatedBoard tf)).
Proof.
  split; [|split].
  - unfold initGameState. apply units_ok_updateVisibility, units_ok_push_units.
  - apply sel_ok_none. unfold initGameState.
    rewrite selected_updateVisibility, selected_push_units. reflexivity.
  - unfold initGameState.
    apply (proj2 (proj2 (board_mono_updateVisibility (fold_left push_unit starting_units _)))).
    rewrite board_push_units. intros rw c t Ht.
    change (board_get (generatedBoard tf) rw c = Some t) in Ht.
    apply (board_get_Forall (fun t => match movementCost t with
                                      | Fin n => 0 <= n | Infinity => True end)
             (generatedBoard tf) rw c t); [|exact Ht].
    apply List.Forall_forall. intros line Hl. apply in_map_iff in Hl as (rw' & <- & _).
    apply List.Forall_forall. intros t' Ht'. apply in_map_iff in Ht' as (c' & <- & _).
    simpl. destruct (tf c' rw'); simpl; lia.
Qed.

Lemma inv_reachable st : reachable st -> game_inv st.
Proof.
  induction 1 as [cache tf|st st' _ IH Hs].
  - apply inv_init.
  - exact (inv_step st st' Hs IH).
Qed.

(** ** C4: unit bounds in every reachable state *)

(** C4: in every state of a game started by [initGameState] and driven by
    clicks (select, move, attack), settling and turn ends (with the AI's
    activations), every unit of [gameState.units] has
    [0 <= movementRemaining <= moveRange] and [hp > 0]. *)
Theorem units_bounded_in_reachable_states st ref u :
  reachable st -> In ref (units st) -> objs st !! ref = Some u ->
  0 <= movementRemaining u <= moveRange u /\ 0 < hp u.
Proof.
  intros Hr Hin Hu. destruct (inv_reachable st Hr) as (HU & _ & _).
  exact (HU ref u Hin Hu).
Qed.

Lemma explored_monotone_visible_explored_witness :
  let st := initGameState None (generatedBoard (fun _ _ => plains)) in
  let st' := handleSelection st 6 5 in
  reachable st /\ clos_refl_trans _ step st st' /\
  explored_kept (board st) (board st') /\ visible_explored (board st').
Proof.
  cbv zeta.
  assert (Hs : clos_refl_trans _ step (initGameState None (generatedBoard (fun _ _ => plains)))
                 (handleSelection (initGameState None (generatedBoard (fun _ _ => plains))) 6 5)).
  { apply rt_step, step_click. vm_compute. reflexivity. }
  split; [apply reach_init|]. split; [exact Hs|].
  apply explored_monotone_visible_explored; [apply reach_init|exact Hs].
Defined.

Lemma units_bounded_in_reachable_states_witness :
  let st := initGameState None (generatedBoard (fun _ _ => plains)) in
  reachable st /\ In 2%nat (units st) /\
  objs st !! 2%nat = Some (fst (createUnit 1 "Warrior" player 6 5)) /\
  0 <= movementRemaining (fst (createUnit 1 "Warrior" player 6 5))
    <= moveRange (fst (createUnit 1 "Warrior" player 6 5)) /\
  0 < hp (fst (createUnit 1 "Warrior" player 6 5)).
Proof.
  cbv zeta.
  split; [apply reach_init|]. split; [vm_compute; right; left; reflexivity|].
  split; [vm_compute; reflexivity|].
  apply (units_bounded_in_reachable_states
           (initGameState None (generatedBoard (fun _ _ => plains))) 2).
  - apply reach_init.
  - vm_compute. right. left. reflexivity.
  - vm_compute. reflexivity.
Defined.

(** ** C2: the reachable set of the search on uniform terrain *)

Lemma parity_mod rw : parity rw = rw mod 2.
Proof.
  unfold parity. change 1%Z with (Z.ones 1). rewrite Z.land_ones by lia. reflexivity.
Qed.

Lemma isValidHex_spec c rw :
  isValidHex c rw = true <-> 0 <= c < BOARD_COLS /\ 0 <= rw < BOARD_ROWS.
Proof.
  unfold isValidHex. rewrite !andb_true_iff, !Z.leb_le, !Z.ltb_lt. tauto.
Qed.

(** Hex distance goals: unfold the cube coordinates, turn [row & 1] into
    [row mod 2] and eliminate the divisions by 2. *)
Ltac hexlia :=
  unfold getDistance, oddrToCube in *; simpl in *; rewrite ?parity_mod in *;
  Z.div_mod_to_equations; lia.

Lemma getDistance_nonneg a b : 0 <= getDistance a b.
Proof. destruct a, b. hexlia. Qed.

Lemma getDistance_zero a b c d :
  getDistance (mkHex a b) (mkHex c d) = 0 -> a = c /\ b = d.
Proof. hexlia. Qed.

Lemma getDistance_refl a b : getDistance (mkHex a b) (mkHex a b) = 0.
Proof. hexlia. Qed.

Lemma getNeighbors_distance a c rw h :
  In h (getNeighbors c rw) -> getDistance a h <= getDistance a (mkHex c rw) + 1.
Proof.
  destruct a as [ac ar]. unfold getNeighbors. rewrite parity_mod.
  destruct (Z.eqb_spec (rw mod 2) 1); simpl;
    intros [<-|[<-|[<-|[<-|[<-|[<-|[]]]]]]]; hexlia.
Qed.

Lemma getNeighbors_common c rw dc dr :
  In (dc, dr) [(1, 0); (0, -1); (-1, 0); (0, 1)] ->
  In (mkHex (c + dc) (rw + dr)) (getNeighbors c rw).
Proof.
  intros Hd. unfold getNeighbors.
  destruct (parity rw =? 1); apply in_map_iff; exists (dc, dr);
    (split; [reflexivity|]); simpl in *; tauto.
Qed.

Lemma getNeighbors_odd c rw dr :
  rw mod 2 = 1 -> In dr [-1; 1] -> In (mkHex (c + 1) (rw + dr)) (getNeighbors c rw).
Proof.
  intros Hp Hd. unfold getNeighbors. rewrite parity_mod, Hp. simpl.
  destruct Hd as [<-|[<-|[]]]; tauto.
Qed.

Lemma getNeighbors_even c rw dr :
  rw mod 2 = 0 -> In dr [-1; 1] -> In (mkHex (c - 1) (rw + dr)) (getNeighbors c rw).
Proof.
  intros Hp Hd. unfold getNeighbors. rewrite parity_mod, Hp. simpl.
  replace (c - 1) with (c + -1) by lia.
  destruct Hd as [<-|[<-|[]]]; tauto.
Qed.

(** Every in-bounds hex other than [(sc, sr)] has an in-bounds neighbour one
    step closer to [(sc, sr)]. *)
Lemma hex_step_toward sc sr c rw :
  isValidHex sc sr = true -> isValidHex c rw = true -> (c, rw) <> (sc, sr) ->
  exists c' rw', isValidHex c' rw' = true /\
    getDistance (mkHex sc sr) (mkHex c' rw') + 1 = getDistance (mkHex sc sr) (mkHex c rw) /\
    In (mkHex c rw) (getNeighbors c' rw').
Proof.
  rewrite !isValidHex_spec. unfold BOARD_COLS, BOARD_ROWS. intros Hs Hv Hne.
  destruct (Z.lt_total rw sr) as [Hlt|[Heq|Hgt]].
  - (* the target is below: step to row [rw + 1] *)
    destruct (Z.eq_dec (getDistance (mkHex sc sr) (mkHex c (rw + 1)) + 1)
                (getDistance (mkHex sc sr) (mkHex c rw))) as [E|E].
    + exists c, (rw + 1).
      split; [apply isValidHex_spec; unfold BOARD_COLS, BOARD_ROWS; lia|]. split; [exact E|].
      replace (mkHex c rw) with (mkHex (c + 0) (rw + 1 + -1)) by (f_equal; lia).
      apply getNeighbors_common. simpl; tauto.
    + assert (Hp : rw mod 2 = 0 \/ rw mod 2 = 1) by (pose proof (Z.mod_pos_bound rw 2); lia).
      destruct Hp as [Hp|Hp].
      * exists (c - 1), (rw + 1). split; [|split].
        -- apply isValidHex_spec; unfold BOARD_COLS, BOARD_ROWS. split; [|lia]. hexlia.
        -- hexlia.
        -- replace (mkHex c rw) with (mkHex (c - 1 + 1) (rw + 1 + -1)) by (f_equal; lia).
           apply getNeighbors_odd; [|simpl; tauto].
           rewrite Zplus_mod, Hp. reflexivity.
      * exists (c + 1), (rw + 1). split; [|split].
        -- apply isValidHex_spec; unfold BOARD_COLS, BOARD_ROWS. split; [|lia]. hexlia.
        -- hexlia.
        -- replace (mkHex c rw) with (mkHex (c + 1 - 1) (rw + 1 + -1)) by (f_equal; lia).
           apply getNeighbors_even; [|simpl; tauto].
           rewrite Zplus_mod, Hp. reflexivity.
  - (* same row: step along the row *)
    subst sr. destruct (Z.lt_total c sc) as [Hc|[Hc|Hc]].
    + exists (c + 1), rw.
      split; [apply isValidHex_spec; unfold BOARD_COLS, BOARD_ROWS; lia|]. split; [hexlia|].
      replace (mkHex c rw) with (mkHex (c + 1 + -1) (rw + 0)) by (f_equal; lia).
      apply getNeighbors_common. simpl; tauto.
    + subst. congruence.
    + exists (c - 1), rw.
      split; [apply isValidHex_spec; unfold BOARD_COLS, BOARD_ROWS; lia|]. split; [hexlia|].
      replace (mkHex c rw) with (mkHex (c - 1 + 1) (rw + 0)) by (f_equal; lia).
      apply getNeighbors_common. simpl; tauto.
  - (* the target is above: step to row [rw - 1] *)
    destruct (Z.eq_dec (getDistance (mkHex sc sr) (mkHex c (rw - 1)) + 1)
                (getDistance (mkHex sc sr) (mkHex c rw))) as [E|E].
    + exists c, (rw - 1).
      split; [apply isValidHex_spec; unfold BOARD_COLS, BOARD_ROWS; lia|]. split; [exact E|].
      replace (mkHex c rw) with (mkHex (c + 0) (rw - 1 + 1)) by (f_equal; lia).
      apply getNeighbors_common. simpl; tauto.
    + assert (Hp : rw mod 2 = 0 \/ rw mod 2 = 1) by (pose proof (Z.mod_pos_bound rw 2); lia).
      destruct Hp as [Hp|Hp].
      * exists (c - 1), (rw - 1). split; [|split].
        -- apply isValidHex_spec; unfold BOARD_COLS, BOARD_ROWS. split; [|lia]. hexlia.
        -- hexlia.
        -- replace (mkHex c rw) with (mkHex (c - 1 + 1) (rw - 1 + 1)) by (f_equal; lia).
           apply getNeighbors_odd; [|simpl; tauto].
           rewrite Zminus_mod, Hp. reflexivity.
      * exists (c + 1), (rw - 1). split; [|split].
        -- apply isValidHex_spec; unfold BOARD_COLS, BOARD_ROWS. split; [|lia]. hexlia.
        -- hexlia.
        -- replace (mkHex c rw) with (mkHex (c + 1 - 1) (rw - 1 + 1)) by (f_equal; lia).
           apply getNeighbors_even; [|simpl; tauto].
           rewrite Zminus_mod, Hp. reflexivity.
Qed.

Lemma free_walk_nonneg occ sc sr n c rw : free_walk occ sc sr n c rw -> 0 <= n.
Proof. induction 1; lia. Qed.

Lemma sumZ_lt {A} (f g : A -> Z) l z :
  (forall k, In k l -> g k <= f k) -> In z l -> g z < f z ->
  sumZ (map g l) < sumZ (map f l).
Proof.
  induction l as [|x l IH]; simpl; [intros _ []|].
  intros Hle [->|Hz] Hlt.
  - pose proof (Hle z (or_introl eq_refl)).
    assert (sumZ (map g l) <= sumZ (map f l)).
    { clear IH Hlt. induction l as [|y l IHl]; simpl; [lia|].
      pose proof (Hle y (or_intror (or_introl eq_refl))).
      enough (sumZ (map g l) <= sumZ (map f l)) by lia.
      apply IHl. intros k [Hk|Hk]; apply Hle; [left|right; right]; assumption. }
    lia.
  - pose proof (Hle x (or_introl eq_refl)).
    pose proof (IH (fun k Hk => Hle k (or_intror Hk)) Hz Hlt). lia.
Qed.

Lemma sumZ_bounds {A} (f : A -> Z) l lo hi :
  (forall k, In k l -> lo <= f k <= hi) ->
  Z.of_nat (length l) * lo <= sumZ (map f l) <= Z.of_nat (length l) * hi.
Proof.
  induction l as [|x l IH]; simpl; intros H; [lia|].
  pose proof (H x (or_introl eq_refl)).
  pose proof (IH (fun k Hk => H k (or_intror Hk))). lia.
Qed.

Lemma sumZ_nonneg {A} (f : A -> Z) l :
  (forall k, In k l -> 0 <= f k) -> 0 <= sumZ (map f l).
Proof.
  induction l as [|x l IH]; simpl; intros H; [lia|].
  pose proof (H x (or_introl eq_refl)).
  pose proof (IH (fun k Hk => H k (or_intror Hk))). lia.
Qed.

Lemma in_zrange lo hi i : lo <= i <= hi -> In i (zrange lo hi).
Proof.
  intros Hi. unfold zrange. apply in_map_iff. exists (Z.to_nat (i - lo)).
  split; [lia|]. apply in_seq. lia.
Qed.

Lemma all_hexes_valid c rw : isValidHex c rw = true -> In (c, rw) all_hexes.
Proof.
  rewrite isValidHex_spec. unfold BOARD_COLS, BOARD_ROWS. intros Hv.
  unfold all_hexes, BOARD_COLS, BOARD_ROWS. apply in_flat_map. exists rw. split; [apply in_zrange; simpl; lia|].
  apply in_map_iff. exists c. split; [reflexivity|]. apply in_zrange; simpl; lia.
Qed.

Lemma all_hexes_length : Z.of_nat (length all_hexes) = 8000.
Proof. vm_compute. reflexivity. Qed.

Lemma bfs_loop_empty_frontier u brd gua ivh fuel R L :
  bfs_loop u brd gua ivh fuel ([], R, L) = ([], R, L).
Proof. destruct fuel; reflexivity. Qed.

(** *** The search on uniform terrain *)

Section FreeSearch.
Variable u : Unit.
Variable brd : Board.
Variable gua : Z -> Z -> option nat.
Hypothesis Hon : gua (unit_col u) (unit_row u) <> None.
Hypothesis Htiles : unit_cost_tiles brd (isNaval u).

Local Abbreviation M := (movementRemaining u).
Local Abbreviation src := (unit_col u, unit_row u).
Local Abbreviation walk n k := (free_walk gua (unit_col u) (unit_row u) n (fst k) (snd k)).
Local Abbreviation inv := (search_inv u gua).
Local Abbreviation inv0 := (search_inv u gua (fun _ _ => False)).
Local Abbreviation closed := (closed_at gua).
Local Abbreviation measure := (search_measure u).

Lemma relax_free cost F R L next :
  relax u brd gua isValidHex cost (F, R, L) next =
  if pushable u gua cost R next
  then (F ++ [(col next, row next, cost + 1)], <[(col next, row next) := cost + 1]> R,
        L ++ [next])
  else (F, R, L).
Proof.
  unfold relax, pushable. destruct (isValidHex (col next) (row next)) eqn:Ev; [|reflexivity]. simpl.
  destruct (gua (col next) (row next)); [reflexivity|]. simpl.
  destruct (Htiles _ _ Ev) as (t & Ht & Hc & Hp). rewrite Ht, Hp. simpl. rewrite Hc.
  reflexivity.
Qed.

Lemma R_le_refl R : R_le R R.
Proof. intros k v H. exists v. split; [exact H|lia]. Qed.

Lemma R_le_trans R1 R2 R3 : R_le R1 R2 -> R_le R2 R3 -> R_le R1 R3.
Proof.
  intros H12 H23 k v H. destruct (H12 k v H) as (w & Hw & Hle).
  destruct (H23 k w Hw) as (w' & Hw' & Hle'). exists w'. split; [exact Hw'|lia].
Qed.

Lemma closed_mono R R' k v : R_le R R' -> closed R k v -> closed R' k v.
Proof.
  intros Hle Hc z Hz Hv Hg. destruct (Hc z Hz Hv Hg) as (w & Hw & Hwle).
  destruct (Hle _ _ Hw) as (w' & Hw' & Hle'). exists w'. split; [exact Hw'|lia].
Qed.

(** One relaxation step. *)
Lemma relax_step P c0 cc cr F R L z :
  0 <= c0 -> walk c0 (cc, cr) -> In z (getNeighbors cc cr) ->
  inv P (F, R, L) ->
  let '(F', R', L') := relax u brd gua isValidHex c0 (F, R, L) z in
  inv P (F', R', L') /\ R_le R R' /\ (forall e, In e F -> In e F') /\
  (Z.of_nat (length F') + frontier_potential M R' <= Z.of_nat (length F) + frontier_potential M R) /\
  (isValidHex (col z) (row z) = true -> gua (col z) (row z) = None -> c0 < M ->
   exists w, R' !! (col z, row z) = Some w /\ w <= c0 + 1).
Proof.
  intros Hc0 Hw Hz Hinv. rewrite relax_free.
  destruct (pushable u gua c0 R z) eqn:Ep.
  - unfold pushable in Ep. rewrite !andb_true_iff in Ep.
    destruct Ep as [[[Ev Hg] Hle] Hold].
    destruct (gua (col z) (row z)) eqn:Eg; [discriminate|]. clear Hg.
    apply Z.leb_le in Hle.
    assert (Hns : (col z, row z) <> src).
    { intros E. injection E as E1 E2. apply Hon. rewrite <- E1, <- E2. exact Eg. }
    assert (Hwz : walk (c0 + 1) (col z, row z)) by (simpl; econstructor; eauto).
    destruct Hinv as (H1 & H2 & H3 & H4 & H5).
    assert (HRle : R_le R (<[(col z, row z) := c0 + 1]> R)).
    { intros k v Hk. destruct (decide (k = (col z, row z))) as [->|Hne].
      - rewrite lookup_insert_eq. exists (c0 + 1). split; [reflexivity|].
        rewrite Hk in Hold. apply Z.ltb_lt in Hold. lia.
      - rewrite lookup_insert_ne by congruence. exists v. split; [exact Hk|lia]. }
    split; [|split; [exact HRle|split; [|split]]].
    + split; [|split; [|split; [|split]]].
      * rewrite lookup_insert_ne by congruence. exact H1.
      * intros k v Hk. apply lookup_insert_Some in Hk as [[<- <-]|[_ Hk]].
        -- split; [lia|]. split; [exact Hwz|]. right. simpl. auto.
        -- exact (H2 k v Hk).
      * intros c rw v Hin. apply in_app_or in Hin as [Hin|[Hin|[]]].
        -- destruct (H3 c rw v Hin) as (Hv & Hwk & w & Hr & Hwv).
           split; [exact Hv|]. split; [exact Hwk|].
           destruct (HRle _ _ Hr) as (w' & Hr' & Hle'). exists w'. split; [exact Hr'|lia].
        -- injection Hin as <- <- <-. split; [lia|]. split; [exact Hwz|].
           rewrite lookup_insert_eq. eexists; split; [reflexivity|lia].
      * intros h. rewrite in_app_iff. simpl. split.
        -- intros [Hh|[<-|[]]].
           ++ apply H4 in Hh as [(v & Hv) Hgh]. split; [|exact Hgh].
              destruct (HRle _ _ Hv) as (w & Hw' & _). eauto.
           ++ rewrite lookup_insert_eq. split; [eauto|exact Eg].
        -- intros [(v & Hv) Hgh].
           destruct (decide ((col z, row z) = (col h, row h))) as [E|E].
           ++ right. left. destruct z, h. simpl in E. injection E as -> ->. reflexivity.
           ++ left. apply H4. rewrite lookup_insert_ne in Hv by exact E. eauto.
      * intros k v Hk Hlt. apply lookup_insert_Some in Hk as [[<- <-]|[Hne Hk]].
        -- left. apply in_or_app. right. left. reflexivity.
        -- destruct (H5 k v Hk Hlt) as [Hin|[Hc|Hp]].
           ++ left. apply in_or_app. left. exact Hin.
           ++ right. left. exact (closed_mono _ _ _ _ HRle Hc).
           ++ right. right. exact Hp.
    + intros e He. apply in_or_app. left. exact He.
    + rewrite length_app. simpl length.
      enough (frontier_potential M (<[(col z, row z) := c0 + 1]> R) < frontier_potential M R)
        by lia.
      unfold frontier_potential. apply sumZ_lt with (z := (col z, row z)).
      * intros k _. destruct (decide (k = (col z, row z))) as [->|Hne].
        -- rewrite lookup_insert_eq. destruct (R !! (col z, row z)) as [old|];
             [apply Z.ltb_lt in Hold|]; lia.
        -- rewrite lookup_insert_ne by congruence. lia.
      * apply all_hexes_valid. exact Ev.
      * rewrite lookup_insert_eq. destruct (R !! (col z, row z)) as [old|];
          [apply Z.ltb_lt in Hold|]; lia.
    + intros _ _ _. rewrite lookup_insert_eq. eexists; split; [reflexivity|lia].
  - split; [exact Hinv|]. split; [apply R_le_refl|]. split; [auto|]. split; [lia|].
    intros Ev Eg Hlt. unfold pushable in Ep. rewrite Ev, Eg in Ep. simpl in Ep.
    replace (c0 + 1 <=? M) with true in Ep by (symmetry; apply Z.leb_le; lia).
    simpl in Ep. destruct (R !! (col z, row z)) as [old|] eqn:Eo; [|discriminate].
    apply Z.ltb_ge in Ep. exists old. split; [reflexivity|lia].
Qed.

Lemma fold_relax_step P c0 cc cr ns F R L :
  0 <= c0 -> walk c0 (cc, cr) -> (forall z, In z ns -> In z (getNeighbors cc cr)) ->
  inv P (F, R, L) ->
  let '(F', R', L') := fold_left (relax u brd gua isValidHex c0) ns (F, R, L) in
  inv P (F', R', L') /\ R_le R R' /\ (forall e, In e F -> In e F') /\
  (Z.of_nat (length F') + frontier_potential M R' <= Z.of_nat (length F) + frontier_potential M R) /\
  (forall z, In z ns -> isValidHex (col z) (row z) = true -> gua (col z) (row z) = None ->
   c0 < M -> exists w, R' !! (col z, row z) = Some w /\ w <= c0 + 1).
Proof.
  intros Hc0 Hw. revert F R L.
  induction ns as [|z ns IH]; intros F R L Hns Hinv; cbn [fold_left].
  - cbv beta iota. split; [exact Hinv|]. split; [apply R_le_refl|]. split; [auto|]. split; [lia|].
    intros _ [].
  - pose proof (relax_step P c0 cc cr F R L z Hc0 Hw (Hns z (or_introl eq_refl)) Hinv) as Hst.
    destruct (relax u brd gua isValidHex c0 (F, R, L) z) as [[F1 R1] L1].
    cbv beta iota in Hst. destruct Hst as (Hinv1 & Hle1 & Hin1 & Hm1 & Hcov1).
    specialize (IH F1 R1 L1 (fun z' Hz' => Hns z' (or_intror Hz')) Hinv1).
    destruct (fold_left (relax u brd gua isValidHex c0) ns (F1, R1, L1)) as [[F2 R2] L2].
    cbv beta iota in IH |- *. destruct IH as (Hinv2 & Hle2 & Hin2 & Hm2 & Hcov2).
    split; [exact Hinv2|]. split; [exact (R_le_trans _ _ _ Hle1 Hle2)|].
    split; [auto|]. split; [lia|].
    intros z' [<-|Hz'] Hv Hg Hlt.
    + destruct (Hcov1 Hv Hg Hlt) as (w & Hw1 & Hwle).
      destruct (Hle2 _ _ Hw1) as (w' & Hw2 & Hle'). exists w'. split; [exact Hw2|lia].
    + exact (Hcov2 z' Hz' Hv Hg Hlt).
Qed.

Lemma inv_discharge P Q F R L :
  inv P (F, R, L) ->
  (forall k v, R !! k = Some v -> v < M -> P k v -> closed R k v \/ Q k v) ->
  inv Q (F, R, L).
Proof.
  intros (H1 & H2 & H3 & H4 & H5) HPQ. do 4 (split; [assumption|]).
  intros k v Hk Hlt. destruct (H5 k v Hk Hlt) as [Hin|[Hc|Hp]]; [left; exact Hin|
    right; left; exact Hc|].
  destruct (HPQ k v Hk Hlt Hp); tauto.
Qed.

Lemma potential_nonneg R :
  0 <= M -> (forall k v, R !! k = Some v -> 0 <= v) -> 0 <= frontier_potential M R.
Proof.
  intros HM HR. unfold frontier_potential. apply sumZ_nonneg.
  intros k _. destruct (R !! k) as [v|] eqn:Ek; [exact (HR k v Ek)|lia].
Qed.


(** One iteration of the loop keeps the invariant and lowers the variant. *)
Lemma pop_step cc cr c0 rest R L :
  inv0 ((cc, cr, c0) :: rest, R, L) ->
  let ls' := if c0 <? M
             then fold_left (relax u brd gua isValidHex c0) (getNeighbors cc cr) (rest, R, L)
             else (rest, R, L) in
  inv0 ls' /\ measure ls' + 1 <= measure ((cc, cr, c0) :: rest, R, L).
Proof.
  intros Hinv.
  assert (Hhead : 0 <= c0 /\ walk c0 (cc, cr)).
  { destruct Hinv as (_ & _ & H3 & _). destruct (H3 cc cr c0 (or_introl eq_refl)); tauto. }
  destruct Hhead as [Hc0 Hw].
  set (P := fun (k : Z * Z) v => k = (cc, cr) /\ v = c0).
  assert (Hinv' : inv P (rest, R, L)).
  { destruct Hinv as (H1 & H2 & H3 & H4 & H5).
    split; [exact H1|]. split; [exact H2|]. split.
    - intros c rw v Hin. exact (H3 c rw v (or_intror Hin)).
    - split; [exact H4|]. intros k v Hk Hlt.
      destruct (H5 k v Hk Hlt) as [[E|Hin]|[Hc|[]]].
      + right. right. destruct k as [k1 k2]. simpl in E. injection E as -> -> ->.
        split; reflexivity.
      + left. exact Hin.
      + right. left. exact Hc. }
  cbv zeta. destruct (Z.ltb_spec c0 M) as [Hlt|Hge].
  - pose proof (fold_relax_step P c0 cc cr (getNeighbors cc cr) rest R L Hc0 Hw
                  (fun z Hz => Hz) Hinv') as Hf.
    destruct (fold_left (relax u brd gua isValidHex c0) (getNeighbors cc cr) (rest, R, L))
      as [[F' R'] L'].
    cbv beta iota in Hf. destruct Hf as (Hinv2 & _ & _ & Hm & Hcov).
    split.
    + apply (inv_discharge P). exact Hinv2.
      intros k v _ _ [-> ->]. left. intros z Hz Hv Hg. exact (Hcov z Hz Hv Hg Hlt).
    + simpl. simpl in Hm. lia.
  - split.
    + apply (inv_discharge P). exact Hinv'.
      intros k v _ Hlt' [_ ->]. lia.
    + simpl. lia.
Qed.

(** With as much fuel as the variant, the loop ends with an empty
    frontier. *)
Lemma bfs_loop_drains fuel F R L :
  0 <= M -> inv0 (F, R, L) -> measure (F, R, L) <= Z.of_nat fuel ->
  let '(F', R', L') := bfs_loop u brd gua isValidHex fuel (F, R, L) in
  inv0 (F', R', L') /\ F' = [].
Proof.
  intros HM. revert F R L. induction fuel as [|fuel IH]; intros F R L Hinv Hm.
  - assert (Hp : 0 <= frontier_potential M R).
    { apply potential_nonneg; [exact HM|]. destruct Hinv as (_ & H2 & _).
      intros k v Hk. apply (H2 k v Hk). }
    simpl in Hm. destruct F; [|simpl in Hm; lia]. simpl. split; [exact Hinv|reflexivity].
  - destruct F as [|[[cc cr] c0] rest]; [simpl; split; [exact Hinv|reflexivity]|].
    pose proof (pop_step cc cr c0 rest R L Hinv) as Hp. cbv zeta in Hp.
    cbn [bfs_loop].
    destruct (if c0 <? M
              then fold_left (relax u brd gua isValidHex c0) (getNeighbors cc cr) (rest, R, L)
              else (rest, R, L)) as [[F' R'] L'].
    destruct Hp as [Hinv' Hm']. apply IH; [exact Hinv'|]. lia.
Qed.

Lemma bfs_init_inv0 : inv0 (bfs_init u).
Proof.
  unfold bfs_init. split; [|split; [|split; [|split]]].
  - apply lookup_insert_eq.
  - intros k v Hk. apply lookup_insert_Some in Hk as [[<- <-]|[_ Hk]];
      [|rewrite lookup_empty in Hk; discriminate].
    split; [lia|]. split; [constructor|]. left. reflexivity.
  - intros c rw v [E|[]]. injection E as <- <- <-. split; [lia|]. split; [constructor|].
    rewrite lookup_insert_eq. eexists; split; [reflexivity|lia].
  - intros h. split; [intros []|]. intros [(v & Hv) Hg].
    apply lookup_insert_Some in Hv as [[E _]|[_ Hv]];
      [|rewrite lookup_empty in Hv; discriminate].
    injection E as E1 E2. rewrite <- E1, <- E2 in Hg. contradiction.
  - intros k v Hk _. apply lookup_insert_Some in Hk as [[<- <-]|[_ Hk]];
      [|rewrite lookup_empty in Hk; discriminate].
    left. left. reflexivity.
Qed.

Lemma bfs_init_measure :
  0 <= M -> measure (bfs_init u) <= Z.of_nat (reach_fuel u).
Proof.
  intros HM. unfold search_measure, bfs_init, reach_fuel, frontier_potential.
  pose proof (sumZ_bounds
                (fun k => match <[src := 0]> (∅ : CostMap) !! k with
                          | Some v => v | None => M + 1 end) all_hexes 0 (M + 1)) as Hb.
  rewrite all_hexes_length in Hb. unfold BOARD_COLS, BOARD_ROWS.
  assert (sumZ (map (fun k => match <[src := 0]> (∅ : CostMap) !! k with
                          | Some v => v | None => M + 1 end) all_hexes) <= 8000 * (M + 1)).
  { refine (proj2 (Hb _)). intros k _.
    destruct (decide (k = src)) as [->|Hne].
    - rewrite lookup_insert_eq. lia.
    - rewrite lookup_insert_ne by congruence. rewrite lookup_empty. lia. }
  rewrite Nat2Z.inj_add, Z2Nat.id by lia.
  change (Z.of_nat (length [(unit_col u, unit_row u, 0)])) with 1.
  change (Z.of_nat 1) with 1. lia.
Qed.


(** Once the frontier is empty, every free walk of at most
    [movementRemaining u] steps ends on a recorded cell. *)
Lemma drained_complete R L :
  inv0 ([], R, L) ->
  forall n c rw, free_walk gua (unit_col u) (unit_row u) n c rw -> n <= M ->
  exists w, R !! (c, rw) = Some w /\ w <= n.
Proof.
  intros (H1 & _ & _ & _ & H5).
  induction 1 as [|n c rw h Hw IH Hh Hv Hg]; intros Hle.
  - exists 0. split; [exact H1|lia].
  - pose proof (free_walk_nonneg _ _ _ _ _ _ Hw).
    destruct (IH ltac:(lia)) as (w & Hr & Hwle).
    destruct (H5 (c, rw) w Hr ltac:(lia)) as [[]|[Hc|[]]].
    destruct (Hc h Hh Hv Hg) as (w' & Hr' & Hle'). exists w'. split; [exact Hr'|lia].
Qed.

(** The search on uniform terrain returns exactly the free in-bounds hexes
    reached by a free walk of at most [movementRemaining u] steps. *)
Lemma free_search_results h :
  In h (snd (pathfinderGetReachableHexes u brd gua isValidHex (reach_fuel u))) <->
  isValidHex (col h) (row h) = true /\ gua (col h) (row h) = None /\
  exists n, n <= M /\ free_walk gua (unit_col u) (unit_row u) n (col h) (row h).
Proof.
  unfold pathfinderGetReachableHexes.
  destruct (Z_lt_le_dec M 0) as [HM|HM].
  - assert (Hf : reach_fuel u = 1%nat).
    { unfold reach_fuel. rewrite Z2Nat.nonpos by (unfold BOARD_COLS, BOARD_ROWS; lia).
      reflexivity. }
    rewrite Hf. unfold bfs_init. cbn [bfs_loop].
    replace (0 <? M) with false by (symmetry; apply Z.ltb_ge; lia).
    simpl. split; [intros []|]. intros (_ & _ & n & Hn & Hw).
    pose proof (free_walk_nonneg _ _ _ _ _ _ Hw). lia.
  - pose proof bfs_init_inv0 as Hi0. pose proof (bfs_init_measure HM) as Hm0.
    unfold bfs_init in *.
    pose proof (bfs_loop_drains (reach_fuel u) _ _ _ HM Hi0 Hm0) as Hd.
    destruct (bfs_loop u brd gua isValidHex (reach_fuel u) _) as [[F R] L].
    cbv beta iota in Hd. destruct Hd as [Hinv ->]. simpl.
    pose proof (drained_complete R L Hinv) as Hcomp.
    destruct Hinv as (H1 & H2 & _ & H4 & _). rewrite H4. split.
    + intros [(v & Hv) Hg]. destruct (H2 _ _ Hv) as (_ & Hw & [E|(Hval & _ & Hle)]).
      * exfalso. apply Hon. injection E as E1 E2. rewrite <- E1, <- E2. exact Hg.
      * split; [exact Hval|]. split; [exact Hg|]. exists v. split; [exact Hle|exact Hw].
    + intros (_ & Hg & n & Hn & Hw). split; [|exact Hg].
      destruct (Hcomp n _ _ Hw Hn) as (w & Hw' & _). eauto.
Qed.

End FreeSearch.

Lemma unit_cost_tiles_b_sound b naval :
  unit_cost_tiles_b b naval = true -> unit_cost_tiles b naval.
Proof.
  unfold unit_cost_tiles_b. rewrite forallb_forall. intros H c rw Hv.
  specialize (H (c, rw) (all_hexes_valid c rw Hv)). simpl in H.
  destruct (board_get b rw c) as [t|]; [|discriminate].
  destruct (movementCost t) as [n|] eqn:Ec; [|discriminate].
  apply andb_true_iff in H as [Hn Hp]. apply Z.eqb_eq in Hn. subst n.
  exists t. split; [reflexivity|]. split; [exact Ec|]. simpl. rewrite Ec. exact Hp.
Qed.

Lemma free_walk_distance occ sc sr n c rw :
  free_walk occ sc sr n c rw -> getDistance (mkHex sc sr) (mkHex c rw) <= n.
Proof.
  induction 1 as [|n c rw h Hw IH Hh _ _].
  - rewrite getDistance_refl. lia.
  - pose proof (getNeighbors_distance (mkHex sc sr) c rw h Hh). destruct h. simpl in *. lia.
Qed.

(** When every in-bounds hex except the start is free, each in-bounds hex
    is reached by a free walk as long as its hex distance. *)
Lemma distance_free_walk occ sc sr :
  isValidHex sc sr = true -> (forall c rw, (c, rw) <> (sc, sr) -> occ c rw = None) ->
  forall c rw, isValidHex c rw = true ->
  free_walk occ sc sr (getDistance (mkHex sc sr) (mkHex c rw)) c rw.
Proof.
  intros Hs Hfree.
  enough (forall k c rw, Z.to_nat (getDistance (mkHex sc sr) (mkHex c rw)) = k ->
            isValidHex c rw = true ->
            free_walk occ sc sr (getDistance (mkHex sc sr) (mkHex c rw)) c rw)
    by (intros c rw; eauto).
  induction k as [|k IH]; intros c rw Hk Hv;
    pose proof (getDistance_nonneg (mkHex sc sr) (mkHex c rw)).
  - assert (E : getDistance (mkHex sc sr) (mkHex c rw) = 0) by lia.
    destruct (getDistance_zero _ _ _ _ E) as [<- <-]. rewrite E. constructor.
  - assert (Hne : (c, rw) <> (sc, sr)).
    { intros E. injection E as -> ->. rewrite getDistance_refl in Hk. discriminate. }
    destruct (hex_step_toward sc sr c rw Hs Hv Hne) as (c' & rw' & Hv' & Hd & Hn).
    rewrite <- Hd.
    apply (free_walk_step occ sc sr _ c' rw' (mkHex c rw)); [apply IH; [lia|exact Hv']|
      exact Hn|exact Hv|exact (Hfree c rw Hne)].
Qed.

(** C2: the set [getReachableHexes] returns for a unit [u] with
    [movementRemaining u = M].  If [M <= 0] the set is empty.  If [u] stands
    on an in-bounds hex that [getUnitAt] reports occupied, and every
    in-bounds tile has movement cost 1 and is passable for [u]'s domain,
    then the set is exactly the in-bounds hexes not occupied by any unit
    that are reached from [u]'s hex by a walk of at most [M] steps through
    in-bounds hexes not occupied by any unit.  If, in addition, no other
    unit is on the board, the set is exactly the in-bounds hexes at hex
    distance between 1 and [M] from [u]'s hex. *)
Theorem getReachableHexes_free_walks st u :
  (movementRemaining u <= 0 -> snd (getReachableHexes st u) = []) /\
  (isValidHex (unit_col u) (unit_row u) = true ->
   getUnitAt st (unit_col u) (unit_row u) <> None ->
   unit_cost_tiles (board st) (isNaval u) ->
   (forall h, In h (snd (getReachableHexes st u)) <->
      isValidHex (col h) (row h) = true /\ getUnitAt st (col h) (row h) = None /\
      exists n, n <= movementRemaining u /\
        free_walk (getUnitAt st) (unit_col u) (unit_row u) n (col h) (row h)) /\
   ((forall c rw, (c, rw) <> (unit_col u, unit_row u) -> getUnitAt st c rw = None) ->
    forall h, In h (snd (getReachableHexes st u)) <->
      isValidHex (col h) (row h) = true /\
      1 <= getDistance (mkHex (unit_col u) (unit_row u)) h <= movementRemaining u)).
Proof.
  rewrite getReachableHexes_snd. split.
  - intros HM. unfold pathfinderGetReachableHexes, reach_fuel.
    rewrite Nat.add_comm. cbn [Nat.add bfs_loop bfs_init].
    replace (0 <? movementRemaining u) with false by (symmetry; apply Z.ltb_ge; lia).
    rewrite bfs_loop_empty_frontier. reflexivity.
  - intros Hs Hon Htiles.
    pose proof (free_search_results u (board st) (getUnitAt st) Hon Htiles) as Hres.
    split; [exact Hres|].
    intros Hfree h. rewrite Hres. split.
    + intros (Hv & Hg & n & Hn & Hw). split; [exact Hv|].
      pose proof (free_walk_distance _ _ _ _ _ _ Hw). destruct h as [c rw]. simpl in *.
      split; [|lia].
      destruct (Z.eq_dec (getDistance (mkHex (unit_col u) (unit_row u)) (mkHex c rw)) 0)
        as [E|E]; [|pose proof (getDistance_nonneg (mkHex (unit_col u) (unit_row u))
                                  (mkHex c rw)); lia].
      destruct (getDistance_zero _ _ _ _ E) as [<- <-]. contradiction.
    + intros (Hv & Hd). destruct h as [c rw]. simpl in *.
      assert (Hne : (c, rw) <> (unit_col u, unit_row u)).
      { intros E. injection E as -> ->. rewrite getDistance_refl in Hd. lia. }
      split; [exact Hv|]. split; [exact (Hfree c rw Hne)|].
      exists (getDistance (mkHex (unit_col u) (unit_row u)) (mkHex c rw)).
      split; [lia|]. apply distance_free_walk; assumption.
Qed.

(** C2 as stated fails when other units block the way: a Warrior at (5,5)
    with 2 moves whose six neighbours are held by other units gets no
    reachable hex, although (5,3) is in bounds, at distance 2 and free. *)
Lemma getReachableHexes_blocked_counterexample :
  ~ (forall st u, unit_cost_tiles (board st) (isNaval u) ->
       forall h, In h (snd (getReachableHexes st u)) <->
         isValidHex (col h) (row h) = true /\
         getDistance (mkHex (unit_col u) (unit_row u)) h <= movementRemaining u /\
         getUnitAt st (col h) (row h) = None).
Proof.
  intros H.
  assert (Ht : unit_cost_tiles (board ring_state) (isNaval warrior1)).
  { apply unit_cost_tiles_b_sound. vm_compute. reflexivity. }
  destruct (H ring_state warrior1 Ht (mkHex 5 3)) as [_ Hback].
  assert (Hnil : snd (getReachableHexes ring_state warrior1) = []) by (vm_compute; reflexivity).
  rewrite Hnil in Hback. apply Hback.
  split; [vm_compute; reflexivity|]. split; [vm_compute; discriminate|vm_compute; reflexivity].
Qed.

Lemma getReachableHexes_free_walks_witness :
  isValidHex (unit_col warrior1) (unit_row warrior1) = true /\
  getUnitAt solo_state (unit_col warrior1) (unit_row warrior1) <> None /\
  unit_cost_tiles (board solo_state) (isNaval warrior1) /\
  (In (mkHex 5 3) (snd (getReachableHexes solo_state warrior1)) <->
   isValidHex 5 3 = true /\
   1 <= getDistance (mkHex (unit_col warrior1) (unit_row warrior1)) (mkHex 5 3)
     <= movementRemaining warrior1).
Proof.
  assert (Hs : isValidHex (unit_col warrior1) (unit_row warrior1) = true)
    by (vm_compute; reflexivity).
  assert (Hon : getUnitAt solo_state (unit_col warrior1) (unit_row warrior1) <> None)
    by (vm_compute; discriminate).
  assert (Ht : unit_cost_tiles (board solo_state) (isNaval warrior1))
    by (apply unit_cost_tiles_b_sound; vm_compute; reflexivity).
  split; [exact Hs|]. split; [exact Hon|]. split; [exact Ht|].
  apply (proj2 (proj2 (getReachableHexes_free_walks solo_state warrior1) Hs Hon Ht)).
  intros c rw Hne. unfold getUnitAt.
  change (units solo_state) with [1%nat]. cbn [List.find].
  change (objs solo_state !! 1%nat) with (Some warrior1). cbv beta iota.
  change (unit_col warrior1) with 5 in *. change (unit_row warrior1) with 5 in *.
  destruct (Z.eqb_spec 5 c); destruct (Z.eqb_spec 5 rw); simpl; try reflexivity.
  subst. contradiction.
Defined.

Lemma getNeighbors_iff_distance c rw h :
  In h (getNeighbors c rw) <-> getDistance (mkHex c rw) h = 1.
Proof.
  destruct h as [hc hr]. split.
  + unfold getNeighbors. rewrite parity_mod.
    destruct (Z.eqb_spec (rw mod 2) 1); simpl;
      intros [H|[H|[H|[H|[H|[H|[]]]]]]]; injection H as <- <-; hexlia.
  + intros Hd.
    assert (Hr : hr = rw - 1 \/ hr = rw \/ hr = rw + 1) by hexlia.
    assert (Hc : hc = c - 1 \/ hc = c \/ hc = c + 1) by hexlia.
    assert (Hp : rw mod 2 = 0 \/ rw mod 2 = 1) by (pose proof (Z.mod_pos_bound rw 2); lia).
    unfold getNeighbors. rewrite parity_mod.
    destruct Hp as [Hp|Hp]; rewrite Hp; simpl;
      destruct Hr as [-> | [-> | ->]]; destruct Hc as [-> | [-> | ->]];
      first [ exfalso; hexlia
            | repeat first [ left; f_equal; lia | right ] ].
Qed.


(** [cubeToOddr] undoes [oddrToCube]: converting offset coordinates to
    cube coordinates and back gives the original hex. *)
Theorem cubeToOddr_oddrToCube c rw : cubeToOddr (oddrToCube c rw) = mkHex c rw.
Proof.
  unfold cubeToOddr, oddrToCube. simpl. f_equal. rewrite parity_mod.
  Z.div_mod_to_equations; lia.
Qed.

(** [oddrToCube] undoes [cubeToOddr] on every cube coordinate with
    [q + r + s = 0]. *)
Theorem oddrToCube_cubeToOddr cube :
  q cube + r cube + s cube = 0 ->
  oddrToCube (col (cubeToOddr cube)) (row (cubeToOddr cube)) = cube.
Proof.
  destruct cube as [cq cr cs]. unfold cubeToOddr, oddrToCube. simpl. intros H.
  rewrite parity_mod. f_equal; Z.div_mod_to_equations; lia.
Qed.

Lemma oddrToCube_cubeToOddr_witness :
  q (mkCube 1 (-3) 2) + r (mkCube 1 (-3) 2) + s (mkCube 1 (-3) 2) = 0 /\
  oddrToCube (col (cubeToOddr (mkCube 1 (-3) 2))) (row (cubeToOddr (mkCube 1 (-3) 2)))
  = mkCube 1 (-3) 2.
Proof.
  assert (H : q (mkCube 1 (-3) 2) + r (mkCube 1 (-3) 2) + s (mkCube 1 (-3) 2) = 0)
    by reflexivity.
  split; [exact H|]. exact (oddrToCube_cubeToOddr (mkCube 1 (-3) 2) H).
Defined.

(** [getDistance] is a metric: symmetric, zero exactly on equal hexes,
    and it satisfies the triangle inequality. *)
Theorem getDistance_metric a b c :
  getDistance a b = getDistance b a /\
  (getDistance a b = 0 <-> a = b) /\
  getDistance a c <= getDistance a b + getDistance b c.
Proof.
  destruct a as [ac ar], b as [bc br], c as [cc cr].
  split; [hexlia|]. split; [|hexlia].
  split; [intros H; apply getDistance_zero in H as [-> ->]; reflexivity|].
  intros [= -> ->]. apply getDistance_refl.
Qed.

(** [getNeighbors] lists six distinct hexes, and they are exactly the
    hexes at distance 1. *)
Theorem getNeighbors_at_distance_one c rw :
  length (getNeighbors c rw) = 6%nat /\ NoDup (getNeighbors c rw) /\
  forall h, In h (getNeighbors c rw) <-> getDistance (mkHex c rw) h = 1.
Proof.
  split; [unfold getNeighbors; destruct (parity rw =? 1); reflexivity|].
  split.
  - apply NoDup_ListNoDup. unfold getNeighbors. destruct (parity rw =? 1); simpl;
      repeat (apply List.NoDup_cons; [simpl; intros H; repeat destruct H as [H|H];
                                   try injection H; lia|]); apply List.NoDup_nil.
  - intros h. apply getNeighbors_iff_distance.
Qed.

(** A hex is among [getAttackableTargets] exactly when an enemy of the
    unit stands there, its distance is between 1 and the unit's range, and
    (for a range above 1) it is on the board. *)
Theorem getAttackableTargets_spec st u h :
  In h (getAttackableTargets st u) <->
  enemy_occupant st (owner u) (col h) (row h) = true /\
  1 <= getDistance (mkHex (unit_col u) (unit_row u)) h <= range u /\
  (range u = 1 \/ isValidHex (col h) (row h) = true).
Proof.
  unfold getAttackableTargets.
  destruct (Z.eqb_spec (range u) 0) as [E0|E0].
  { split; [intros []|]. intros (_ & Hd & _). lia. }
  destruct (Z.eqb_spec (range u) 1) as [E1|E1].
  - rewrite filter_In, getNeighbors_iff_distance. rewrite E1. split.
    + intros [Hd He]. split; [exact He|]. split; [lia|left; reflexivity].
    + intros (He & Hd & _). split; [lia|exact He].
  - rewrite in_flat_map. split.
    + intros (rw & Hrw & Hin). apply in_flat_map in Hin as (c & Hc & Hin).
      destruct (isValidHex c rw) eqn:Ev; simpl in Hin; [|destruct Hin].
      destruct ((c =? unit_col u) && (rw =? unit_row u)) eqn:Es; [destruct Hin|].
      destruct (Z.leb_spec (getDistance (mkHex (unit_col u) (unit_row u)) (mkHex c rw)) (range u));
        [|destruct Hin].
      destruct (enemy_occupant st (owner u) c rw) eqn:Ee; [|destruct Hin].
      destruct Hin as [<-|[]]. simpl. split; [exact Ee|]. split; [|right; exact Ev].
      split; [|assumption].
      pose proof (getDistance_nonneg (mkHex (unit_col u) (unit_row u)) (mkHex c rw)).
      destruct (Z.eq_dec (getDistance (mkHex (unit_col u) (unit_row u)) (mkHex c rw)) 0) as [Z0|];
        [|lia].
      apply getDistance_zero in Z0 as [Z1 Z2]. rewrite Z1, Z2, !Z.eqb_refl in Es. discriminate.
    + intros (He & Hd & [Hr|Hv]); [contradiction|].
      destruct h as [c rw]. simpl in *.
      assert (Hbox : unit_row u - range u <= rw <= unit_row u + range u /\
                     unit_col u - range u <= c <= unit_col u + range u) by hexlia.
      exists rw. split; [apply in_zrange; lia|].
      apply in_flat_map. exists c. split; [apply in_zrange; lia|].
      rewrite Hv. simpl.
      replace ((c =? unit_col u) && (rw =? unit_row u)) with false.
      2:{ symmetry. apply andb_false_iff.
          destruct (Z.eqb_spec c (unit_col u)), (Z.eqb_spec rw (unit_row u)); auto.
          subst. rewrite getDistance_refl in Hd. lia. }
      replace (getDistance _ _ <=? range u) with true by (symmetry; apply Z.leb_le; lia).
      rewrite He. left. reflexivity.
Qed.

Lemma argmin_inv {A} (key : A -> option Z) l :
  let acc := fold_left (argmin_step key) l (None, None) in
  match acc with
  | (None, None) => forall x, In x l -> key x = None
  | (Some h, Some dh) =>
      key h = Some dh /\
      exists pre post, l = pre ++ h :: post /\
        (forall x d, In x pre -> key x = Some d -> dh < d) /\
        (forall x d, In x post -> key x = Some d -> dh <= d)
  | _ => False
  end.
Proof.
  induction l as [|x l IH] using rev_ind; simpl; [intros x []|].
  rewrite fold_left_app. simpl.
  destruct (fold_left (argmin_step key) l (None, None)) as [[h|] [dh|]];
    try contradiction; unfold argmin_step at 1; simpl.
  - destruct IH as (Hh & pre & post & -> & Hpre & Hpost).
    destruct (key x) as [d|] eqn:Ex.
    + destruct (Z.ltb_spec d dh).
      * split; [exact Ex|]. exists (pre ++ h :: post), []. split; [reflexivity|].
        split; [|intros ? ? []].
        intros y dy Hy Hky. apply in_app_or in Hy as [Hy|[<-|Hy]].
        -- pose proof (Hpre y dy Hy Hky). lia.
        -- congruence.
        -- pose proof (Hpost y dy Hy Hky). lia.
      * split; [exact Hh|]. exists pre, (post ++ [x]).
        split; [rewrite <- app_assoc; reflexivity|]. split; [exact Hpre|].
        intros y dy Hy Hky. apply in_app_or in Hy as [Hy|[<-|[]]].
        -- exact (Hpost y dy Hy Hky).
        -- congruence.
    + split; [exact Hh|]. exists pre, (post ++ [x]).
      split; [rewrite <- app_assoc; reflexivity|]. split; [exact Hpre|].
      intros y dy Hy Hky. apply in_app_or in Hy as [Hy|[<-|[]]].
      * exact (Hpost y dy Hy Hky).
      * congruence.
  - destruct (key x) as [d|] eqn:Ex.
    + split; [exact Ex|]. exists l, []. split; [reflexivity|].
      split; [|intros ? ? []].
      intros y dy Hy Hky. rewrite (IH y Hy) in Hky. discriminate.
    + intros y Hy. apply in_app_or in Hy as [Hy|[<-|[]]]; [exact (IH y Hy)|exact Ex].
Qed.

Lemma pathfinderFindBestMove_argmin l t :
  pathfinderFindBestMove l t
  = fst (fold_left (argmin_step (fun h => Some (getDistance h t))) l (None, None)).
Proof.
  unfold pathfinderFindBestMove. f_equal. apply fold_left_ext'.
  intros [bh bd] x. reflexivity.
Qed.

(** [pathfinderFindBestMove] returns [null] only on an empty list; it
    otherwise returns the first hex of smallest distance to the target. *)
Theorem pathfinderFindBestMove_first_nearest l t :
  (pathfinderFindBestMove l t = None <-> l = []) /\
  (forall h, pathfinderFindBestMove l t = Some h ->
     exists pre post, l = pre ++ h :: post /\
       (forall x, In x pre -> getDistance h t < getDistance x t) /\
       (forall x, In x post -> getDistance h t <= getDistance x t)).
Proof.
  rewrite pathfinderFindBestMove_argmin.
  pose proof (argmin_inv (fun h => Some (getDistance h t)) l) as I. simpl in I.
  destruct (fold_left _ l (None, None)) as [[h|] [dh|]]; try contradiction; simpl.
  - destruct I as ([= <-] & pre & post & -> & Hpre & Hpost). split.
    + split; [discriminate|]. intros E. destruct pre; discriminate.
    + intros h' [= <-]. exists pre, post. split; [reflexivity|]. split.
      * intros x Hx. exact (Hpre x _ Hx eq_refl).
      * intros x Hx. exact (Hpost x _ Hx eq_refl).
  - split; [|intros ? [=]]. split; [|reflexivity]. intros _.
    destruct l as [|x l]; [reflexivity|]. specialize (I x (or_introl eq_refl)). discriminate.
Qed.


Lemma findNearestPlayer_argmin st e :
  findNearestPlayer st e = fst (fold_left (argmin_step (player_key st e)) (units st) (None, None)).
Proof.
  unfold findNearestPlayer. f_equal. apply fold_left_ext'.
  intros [nr md] ref. unfold argmin_step, player_key.
  destruct (objs st !! ref) as [p|]; [|reflexivity].
  destruct (owner_eqb (owner p) player); reflexivity.
Qed.


Lemma owner_eqb_true a b : owner_eqb a b = true <-> a = b.
Proof. destruct a, b; simpl; split; congruence. Qed.

Lemma filter_nil_iff {A} (p : A -> bool) l :
  List.filter p l = [] <-> forall x, In x l -> p x = false.
Proof.
  induction l as [|x l IH]; simpl; [split; [intros _ _ []|reflexivity]|].
  destruct (p x) eqn:E; split.
  - discriminate.
  - intros H. specialize (H x (or_introl eq_refl)). congruence.
  - intros H y [<-|Hy]; [exact E|]. apply IH; assumption.
  - intros H. apply IH. intros y Hy. apply H. right. exact Hy.
Qed.


(** [findNearestPlayer] returns [null] exactly when no unit of the list
    belongs to the player; it otherwise returns the first player unit of
    [gameState.units] at the smallest distance from the enemy. *)
Theorem findNearestPlayer_first_nearest st e :
  (findNearestPlayer st e = None <->
     forall ref p, In ref (units st) -> objs st !! ref = Some p -> owner p <> player) /\
  (forall ref, findNearestPlayer st e = Some ref ->
     exists p, objs st !! ref = Some p /\ owner p = player /\
     exists pre post, units st = pre ++ ref :: post /\
       (forall ref' p', In ref' pre -> objs st !! ref' = Some p' -> owner p' = player ->
          getDistance (mkHex (unit_col e) (unit_row e)) (mkHex (unit_col p) (unit_row p))
          < getDistance (mkHex (unit_col e) (unit_row e)) (mkHex (unit_col p') (unit_row p'))) /\
       (forall ref' p', In ref' post -> objs st !! ref' = Some p' -> owner p' = player ->
          getDistance (mkHex (unit_col e) (unit_row e)) (mkHex (unit_col p) (unit_row p))
          <= getDistance (mkHex (unit_col e) (unit_row e)) (mkHex (unit_col p') (unit_row p')))).
Proof.
  rewrite findNearestPlayer_argmin.
  pose proof (argmin_inv (player_key st e) (units st)) as I. simpl in I.
  destruct (fold_left _ (units st) (None, None)) as [[h|] [dh|]]; try contradiction; simpl.
  - destruct I as (Hk & pre & post & Hl & Hpre & Hpost).
    unfold player_key in Hk.
    destruct (objs st !! h) as [p|] eqn:Ep; [|discriminate].
    destruct (owner_eqb (owner p) player) eqn:Eo; [|discriminate].
    apply owner_eqb_true in Eo. injection Hk as Hk. split.
    + split; [discriminate|]. intros H. exfalso. apply (H h p); [rewrite Hl; apply in_or_app; right; left; reflexivity|exact Ep|exact Eo].
    + intros ref [= <-]. exists p. split; [exact Ep|]. split; [exact Eo|].
      exists pre, post. split; [exact Hl|]. split.
      * intros ref' p' Hin Ep' Eo'. rewrite Hk. apply (Hpre ref'); [exact Hin|].
        unfold player_key. rewrite Ep'. apply owner_eqb_true in Eo'. rewrite Eo'. reflexivity.
      * intros ref' p' Hin Ep' Eo'. rewrite Hk. apply (Hpost ref'); [exact Hin|].
        unfold player_key. rewrite Ep'. apply owner_eqb_true in Eo'. rewrite Eo'. reflexivity.
  - split; [|intros ? [=]]. split; [|reflexivity]. intros _ ref p Hin Ep Eo.
    specialize (I ref Hin). unfold player_key in I. rewrite Ep in I.
    apply owner_eqb_true in Eo. rewrite Eo in I. discriminate.
Qed.


Lemma zrange_bounds lo hi i : In i (zrange lo hi) -> lo <= i <= hi.
Proof.
  unfold zrange. intros H. apply in_map_iff in H as (n & <- & Hn).
  apply in_seq in Hn. lia.
Qed.

Lemma lookup_map_seq {A} (g : nat -> A) s k n :
  map g (seq s k) !! n = if (n <? k)%nat then Some (g (s + n)%nat) else None.
Proof.
  revert s n. induction k as [|k IH]; intros s n; [reflexivity|].
  destruct n as [|n]; simpl; [rewrite Nat.add_0_r; reflexivity|].
  rewrite IH. replace (S s + n)%nat with (s + S n)%nat by lia. reflexivity.
Qed.

Lemma lookup_map_zrange {A} (f : Z -> A) lo hi n :
  map f (zrange lo hi) !! n = if Z.of_nat n <=? hi - lo then Some (f (lo + Z.of_nat n)) else None.
Proof.
  unfold zrange. rewrite map_map, lookup_map_seq.
  destruct (Nat.ltb_spec n (Z.to_nat (hi - lo + 1))), (Z.leb_spec (Z.of_nat n) (hi - lo));
    try reflexivity; lia.
Qed.

Lemma generatedBoard_get tf rw c :
  board_get (generatedBoard tf) rw c
  = if isValidHex c rw then Some (createHexTile c rw (tf c rw)) else None.
Proof.
  unfold board_get, generatedBoard.
  destruct ((rw <? 0) || (c <? 0)) eqn:E.
  - replace (isValidHex c rw) with false; [reflexivity|].
    unfold isValidHex. apply orb_true_iff in E as [E|E]; apply Z.ltb_lt in E; bool_lia.
  - apply orb_false_iff in E as [E1 E2]. apply Z.ltb_ge in E1, E2.
    rewrite lookup_map_zrange. rewrite Z2Nat.id by lia.
    destruct (Z.leb_spec rw (BOARD_ROWS - 1 - 0)).
    + rewrite lookup_map_zrange, Z2Nat.id by lia.
      destruct (Z.leb_spec c (BOARD_COLS - 1 - 0)).
      * replace (isValidHex c rw) with true by (unfold isValidHex; bool_lia).
        rewrite !Z.add_0_l. reflexivity.
      * replace (isValidHex c rw) with false by (unfold isValidHex; bool_lia). reflexivity.
    + replace (isValidHex c rw) with false by (unfold isValidHex; bool_lia). reflexivity.
Qed.

Lemma fold_if_const {X} (P : X -> bool) (V : HexTile) l t :
  fold_left (fun t x => if P x then V else t) l t = if existsb P l then V else t.
Proof.
  revert t. induction l as [|x l IH]; intros t; simpl; [reflexivity|].
  rewrite IH. destruct (P x), (existsb P l); reflexivity.
Qed.

Lemma fold_rows_cols_update (G : Z -> Z -> bool) (T : Z -> Z -> HexTile) rows cols b :
  fold_left (fun b rw =>
    fold_left (fun b c => if G rw c then board_update b rw c (fun _ => T rw c) else b) cols b)
    rows b
  = map_board (fun i j t =>
      if existsb (fun rw => existsb (fun c => G rw c && (i =? rw) && (j =? c)) cols) rows
      then T i j else t) b.
Proof.
  rewrite (fold_left_ext' _
             (fun b rw => map_board (fun i j t =>
                if existsb (fun c => G rw c && (i =? rw) && (j =? c)) cols then T i j else t) b)).
  - rewrite fold_map_board. apply map_board_ext_on. intros i j _ t _ _.
    apply fold_if_const.
  - intros b' rw.
    rewrite (fold_left_ext' _
               (fun b c => map_board (fun i j t =>
                  if G rw c && (i =? rw) && (j =? c) then T i j else t) b)).
    + rewrite fold_map_board. apply map_board_ext_on. intros i j _ t _ _.
      apply fold_if_const.
    + intros b'' c. rewrite board_update_map. destruct (G rw c).
      * apply map_board_ext_on. intros i j _ t _ _. simpl.
        destruct (Z.eqb_spec (Z.of_nat i) rw), (Z.eqb_spec (Z.of_nat j) c); subst; reflexivity.
      * symmetry. apply map_board_id_on. reflexivity.
Qed.

Lemma sqrt_le_IZR n rad : 0 <= n -> 0 <= rad -> (sqrt (IZR n) <= IZR rad)%R <-> n <= rad * rad.
Proof.
  intros Hn Hr. split.
  - intros H. apply le_IZR. rewrite mult_IZR.
    rewrite <- (sqrt_sqrt (IZR n)) by (apply IZR_le; exact Hn).
    pose proof (sqrt_pos (IZR n)).
    apply Rmult_le_compat; assumption.
  - intros H. rewrite <- (sqrt_square (IZR rad)) by (apply IZR_le; exact Hr).
    apply sqrt_le_1_alt. rewrite <- mult_IZR. apply IZR_le. exact H.
Qed.

Lemma existsb_zrange (P : Z -> bool) lo hi :
  existsb P (zrange lo hi) = true <-> exists i, lo <= i <= hi /\ P i = true.
Proof.
  rewrite existsb_exists. split.
  - intros (i & Hi & HP). exists i. split; [apply zrange_bounds; exact Hi|exact HP].
  - intros (i & Hi & HP). exists i. split; [apply in_zrange; exact Hi|exact HP].
Qed.

Lemma disc_box x y r : 0 <= r -> x * x + y * y <= r * r -> -r <= x <= r.
Proof.
  intros Hr H. assert (Hy : 0 <= y * y) by nia. split.
  - destruct (Z_le_gt_dec (- r) x) as [|Hx]; [assumption|].
    assert (r + 1 <= - x) by lia. nia.
  - destruct (Z_le_gt_dec x r) as [|Hx]; [assumption|].
    assert (r + 1 <= x) by lia. nia.
Qed.

Lemma clearSpawnArea_map b cc cr rad :
  0 <= rad ->
  clearSpawnArea b cc cr rad
  = map_board (fun i j t => if isValidHex j i && in_disc cc cr rad j i
                            then createHexTile j i plains else t) b.
Proof.
  intros Hr. unfold clearSpawnArea.
  rewrite (fold_left_ext' _
    (fun b rw => fold_left (fun b c =>
       if (0 <=? rw) && (rw <? BOARD_ROWS) && (0 <=? c) && (c <? BOARD_COLS) &&
          (if Rle_dec (sqrt (IZR ((c - cc) * (c - cc) + (rw - cr) * (rw - cr)))) (IZR rad)
           then true else false)
       then board_update b rw c (fun _ => createHexTile c rw plains) else b)
       (zrange (cc - rad) (cc + rad)) b)).
  2:{ intros b' rw. apply fold_left_ext'. intros b'' c.
      destruct ((0 <=? rw) && (rw <? BOARD_ROWS) && (0 <=? c) && (c <? BOARD_COLS)); [|reflexivity].
      destruct (Rle_dec _ _); reflexivity. }
  rewrite (fold_rows_cols_update
             (fun rw c => (0 <=? rw) && (rw <? BOARD_ROWS) && (0 <=? c) && (c <? BOARD_COLS) &&
                (if Rle_dec (sqrt (IZR ((c - cc) * (c - cc) + (rw - cr) * (rw - cr)))) (IZR rad)
                 then true else false))
             (fun rw c => createHexTile c rw plains)).
  apply map_board_ext_on. intros i j _ t _ _.
  set (I := Z.of_nat i). set (J := Z.of_nat j).
  match goal with |- (if ?a then _ else _) = (if ?b then _ else _) => replace a with b; [reflexivity|] end.
  apply Bool.eq_iff_eq_true. rewrite existsb_zrange. unfold isValidHex, in_disc.
  rewrite !andb_true_iff, !Z.leb_le, !Z.ltb_lt. split.
  - intros [[[[H1 H2] H3] H4] H5].
    pose proof (disc_box (J - cc) (I - cr) rad Hr H5).
    pose proof (disc_box (I - cr) (J - cc) rad Hr ltac:(lia)).
    exists I. split; [lia|]. apply existsb_zrange. exists J. split; [lia|].
    rewrite !andb_true_iff, !Z.leb_le, !Z.ltb_lt, !Z.eqb_refl.
    destruct (Rle_dec _ _) as [|Hn]; [tauto|].
    exfalso. apply Hn. apply sqrt_le_IZR; [|lia|lia].
    pose proof (Z.square_nonneg (J - cc)). pose proof (Z.square_nonneg (I - cr)). lia.
  - intros (rw & Hrw & Hc). apply existsb_zrange in Hc as (c & Hc & E).
    rewrite !andb_true_iff, !Z.leb_le, !Z.ltb_lt, !Z.eqb_eq in E.
    destruct E as [[[[[[H1 H2] H3] H4] H5] <-] <-].
    destruct (Rle_dec _ _) as [Hs|]; [|discriminate].
    apply sqrt_le_IZR in Hs; [tauto| |exact Hr].
    pose proof (Z.square_nonneg (J - cc)). pose proof (Z.square_nonneg (I - cr)). lia.
Qed.

Lemma fill_loop_map (T : Z -> Z -> HexTile) b :
  fold_left (fun b rw =>
    fold_left (fun b c => board_update b rw c (fun _ => T rw c))
      (zrange 0 (BOARD_COLS - 1)) b) (zrange 0 (BOARD_ROWS - 1)) b
  = map_board (fun i j t => if isValidHex j i then T i j else t) b.
Proof.
  etransitivity; [exact (fold_rows_cols_update (fun _ _ => true) T _ _ b)|].
  apply map_board_ext_on. intros i j _ t _ _.
  match goal with |- (if ?a then _ else _) = (if ?b then _ else _) => replace a with b; [reflexivity|] end.
  apply Bool.eq_iff_eq_true. rewrite existsb_zrange. rewrite isValidHex_spec. split.
  - intros [Hj Hi]. exists (Z.of_nat i). split; [unfold BOARD_ROWS in *; lia|].
    apply existsb_zrange. exists (Z.of_nat j). split; [unfold BOARD_COLS in *; lia|].
    rewrite !Z.eqb_refl. reflexivity.
  - intros (rw & Hrw & Hc). apply existsb_zrange in Hc as (c & Hc & E).
    simpl in E. apply andb_true_iff in E as [E1 E2]. apply Z.eqb_eq in E1, E2. subst.
    unfold BOARD_ROWS, BOARD_COLS in *. lia.
Qed.

(** The tile [generateRandomBoard] leaves at an in-bounds hex: plains
    within distance 8 of one of the two spawn points, otherwise the terrain
    chosen from the hex's elevation and moisture; there is no tile out of
    bounds. *)
Theorem generateRandomBoard_tiles elevation moisture rw c :
  board_get (generateRandomBoard elevation moisture) rw c
  = if isValidHex c rw then
      Some (createHexTile c rw
              (if in_disc 5 5 8 c rw || in_disc (BOARD_COLS - 6) (BOARD_ROWS - 6) 8 c rw
               then plains else chooseTerrain (elevation c rw) (moisture c rw)))
    else None.
Proof.
  unfold generateRandomBoard.
  rewrite (fill_loop_map (fun rw c => createHexTile c rw
                             (chooseTerrain (elevation c rw) (moisture c rw)))).
  rewrite !clearSpawnArea_map by lia.
  rewrite !board_get_map_board.
  change (generateEmptyBoard plains) with (generatedBoard (fun _ _ => plains)).
  rewrite generatedBoard_get.
  destruct (isValidHex c rw); simpl; [|reflexivity].
  destruct (in_disc 5 5 8 c rw), (in_disc (BOARD_COLS - 6) (BOARD_ROWS - 6) 8 c rw);
    reflexivity.
Qed.

(** [generateEmptyBoard t] holds a tile of terrain [t] at every in-bounds
    hex and nothing elsewhere. *)
Theorem generateEmptyBoard_tiles t rw c :
  board_get (generateEmptyBoard t) rw c
  = if isValidHex c rw then Some (createHexTile c rw t) else None.
Proof. apply (generatedBoard_get (fun _ _ => t)). Qed.

(** [getTile] and the [board[row]?.[col]] lookup agree on every board and
    every coordinate, negative or too large ones included. *)
Theorem getTile_board_get b c rw : getTile b c rw = board_get b rw c.
Proof.
  unfold getTile, board_get.
  destruct (Z.ltb_spec rw 0); [reflexivity|]. simpl.
  destruct (Z.leb_spec (Z.of_nat (length b)) rw) as [Hl|Hl].
  - destruct (Z.ltb_spec c 0); [reflexivity|].
    rewrite lookup_ge_None_2 by lia. reflexivity.
  - destruct (b !! Z.to_nat rw) as [line|] eqn:E.
    + destruct (Z.ltb_spec c 0); [reflexivity|]. simpl.
      destruct (Z.leb_spec (Z.of_nat (length line)) c); [|reflexivity].
      rewrite lookup_ge_None_2 by lia. reflexivity.
    + destruct (c <? 0); reflexivity.
Qed.

(** The starting hexes of the player's and the first enemy's units are
    plains on every random board. *)
Theorem generateRandomBoard_spawns_plains elevation moisture t o c rw :
  In (t, o, c, rw) starting_units -> o = player \/ o = enemy1 ->
  board_get (generateRandomBoard elevation moisture) rw c = Some (createHexTile c rw plains).
Proof.
  intros Hin Ho. rewrite generateRandomBoard_tiles.
  unfold starting_units in Hin. simpl in Hin.
  repeat destruct Hin as [Hin|Hin]; try contradiction; injection Hin as <- <- <- <-;
    destruct Ho as [Ho|Ho]; try discriminate; vm_compute; reflexivity.
Qed.

Lemma generateRandomBoard_spawns_plains_witness :
  In ("Settler"%string, enemy1, BOARD_COLS - 6, BOARD_ROWS - 6) starting_units /\
  (enemy1 = player \/ enemy1 = enemy1) /\
  board_get (generateRandomBoard (fun _ _ => 0%R) (fun _ _ => 1%R))
    (BOARD_ROWS - 6) (BOARD_COLS - 6)
  = Some (createHexTile (BOARD_COLS - 6) (BOARD_ROWS - 6) plains).
Proof.
  assert (Hin : In ("Settler"%string, enemy1, BOARD_COLS - 6, BOARD_ROWS - 6) starting_units)
    by (right; right; left; reflexivity).
  assert (Ho : enemy1 = player \/ enemy1 = enemy1) by (right; reflexivity).
  split; [exact Hin|]. split; [exact Ho|].
  exact (generateRandomBoard_spawns_plains (fun _ _ => 0%R) (fun _ _ => 1%R)
           "Settler" enemy1 (BOARD_COLS - 6) (BOARD_ROWS - 6) Hin Ho).
Defined.

Module CameraProofs.
Import Pixel Camera.
Local Open Scope R_scope.




Lemma clamp_bounds lo hi v : lo <= Rmax lo (Rmin hi v) /\ (lo <= hi -> Rmax lo (Rmin hi v) <= hi).
Proof.
  split; [apply Rmax_l|]. intros H. apply Rmax_lub; [exact H|apply Rmin_l].
Qed.

Lemma clamp_idem lo hi v : Rmax lo (Rmin hi (Rmax lo (Rmin hi v))) = Rmax lo (Rmin hi v).
Proof.
  destruct (Rle_dec lo hi) as [H|H].
  - destruct (clamp_bounds lo hi v) as [H1 H2]. specialize (H2 H).
    rewrite (Rmin_right hi) by exact H2. apply Rmax_right. exact H1.
  - assert (E : Rmax lo (Rmin hi v) = lo).
    { apply Rmax_left. pose proof (Rmin_l hi v). lra. }
    rewrite E, Rmin_left by lra. apply Rmax_left. lra.
Qed.

(** [panCamera] keeps the zoom and clamps the position: never below a
    fifth of a view before the world's origin, and never beyond the
    world's size minus four fifths of a view when the world is at least
    three fifths of a view wide (high). *)
Theorem panCamera_bounds camera dx dy canvasWidth canvasHeight :
  let cam' := panCamera camera dx dy canvasWidth canvasHeight in
  let viewWidth := canvasWidth / zoom camera in
  let viewHeight := canvasHeight / zoom camera in
  zoom cam' = zoom camera /\
  - viewWidth * (1 / 5) <= cam_x cam' /\ - viewHeight * (1 / 5) <= cam_y cam' /\
  (viewWidth * (3 / 5) <= fst getWorldBounds ->
     cam_x cam' <= fst getWorldBounds - viewWidth * (4 / 5)) /\
  (viewHeight * (3 / 5) <= snd getWorldBounds ->
     cam_y cam' <= snd getWorldBounds - viewHeight * (4 / 5)).
Proof.
  unfold panCamera. destruct getWorldBounds as [width height]. simpl.
  split; [reflexivity|].
  split; [apply clamp_bounds|]. split; [apply clamp_bounds|].
  split; intros H; apply clamp_bounds; lra.
Qed.

(** Panning a camera that [panCamera] returned by zero leaves it
    unchanged. *)
Theorem panCamera_reclamp camera dx dy canvasWidth canvasHeight :
  let cam' := panCamera camera dx dy canvasWidth canvasHeight in
  panCamera cam' 0 0 canvasWidth canvasHeight = cam'.
Proof.
  unfold panCamera. destruct getWorldBounds as [width height]. simpl.
  rewrite !Rplus_0_r, !clamp_idem. reflexivity.
Qed.


Lemma sqrt3_ge_1 : 1 <= sqrt 3.
Proof. rewrite <- sqrt_1. apply sqrt_le_1_alt. lra. Qed.



End CameraProofs.


Section SearchNear.
Variable u : Unit.
Variable brd : Board.
Variable gua : Z -> Z -> option nat.
Variable ivh : Z -> Z -> bool.
Hypothesis Hpos : costs_pos brd.

Lemma relax_near cc cr cost acc next :
  In next (getNeighbors cc cr) ->
  getDistance (mkHex (unit_col u) (unit_row u)) (mkHex cc cr) <= cost ->
  loop_near u brd gua ivh acc -> loop_near u brd gua ivh (relax u brd gua ivh cost acc next).
Proof.
  intros Hn Hc Hok. destruct acc as [[F R] L]. unfold relax.
  destruct (ivh (col next) (row next)) eqn:Ev; [|exact Hok]. simpl negb. cbv iota.
  destruct (gua (col next) (row next)) eqn:Eg; [exact Hok|].
  destruct (isPassableTile (board_get brd (row next) (col next)) (isNaval u)) eqn:Ep;
    [|exact Hok]. simpl negb. cbv iota.
  destruct (board_get brd (row next) (col next)) as [t|] eqn:Et; [|exact Hok].
  pose proof (Hpos _ _ _ Et) as Hmc.
  destruct (movementCost t) as [mc|]; [|exact Hok].
  destruct ((cost + mc <=? movementRemaining u) && _) eqn:Ec; [|exact Hok].
  apply andb_true_iff in Ec as [Ec _]. apply Z.leb_le in Ec.
  pose proof (getNeighbors_distance (mkHex (unit_col u) (unit_row u)) cc cr next Hn) as Hd.
  destruct next as [nc nr]. simpl in *.
  destruct Hok as (HF & HR & HL). split; [|split].
  - intros c rw v Hin. apply in_app_or in Hin as [Hin|[Hin|[]]].
    + exact (HF c rw v Hin).
    + injection Hin as <- <- <-. lia.
  - intros key k Hk. apply lookup_insert_Some in Hk as [[<- <-]|[_ Hk]]; [simpl; lia|].
    exact (HR key k Hk).
  - intros h Hh. apply in_app_or in Hh as [Hh|[<-|[]]].
    + destruct (HL h Hh) as (H1 & H2 & H3 & v & Hv & Hle).
      split; [exact H1|]. split; [exact H2|]. split; [exact H3|].
      destruct (decide ((nc, nr) = (col h, row h))) as [E|E].
      * rewrite E, lookup_insert_eq. eexists; split; [reflexivity|lia].
      * rewrite lookup_insert_ne by exact E. exists v. split; assumption.
    + simpl. rewrite Et. split; [exact Ev|]. split; [exact Eg|]. split; [exact Ep|].
      rewrite lookup_insert_eq. eexists; split; [reflexivity|lia].
Qed.

Lemma bfs_loop_near fuel ls : loop_near u brd gua ivh ls ->
  loop_near u brd gua ivh (bfs_loop u brd gua ivh fuel ls).
Proof.
  revert ls. induction fuel as [|fuel IH]; intros [[F R] L] Hok; simpl; [exact Hok|].
  destruct F as [|[[cc cr] cost] rest]; [exact Hok|].
  destruct Hok as (HF & HR & HL).
  assert (Hc : getDistance (mkHex (unit_col u) (unit_row u)) (mkHex cc cr) <= cost)
    by (apply HF; left; reflexivity).
  assert (Hrest : loop_near u brd gua ivh (rest, R, L)).
  { split; [|split; assumption]. intros c rw v Hin. apply HF. right. exact Hin. }
  apply IH. destruct (cost <? movementRemaining u); [|exact Hrest].
  assert (G : forall l acc, incl l (getNeighbors cc cr) -> loop_near u brd gua ivh acc ->
             loop_near u brd gua ivh (fold_left (relax u brd gua ivh cost) l acc)).
  { induction l as [|x l IHl]; intros acc Hincl Hacc; simpl; [exact Hacc|].
    apply IHl; [intros y Hy; apply Hincl; right; exact Hy|].
    apply (relax_near cc cr); [apply Hincl; left; reflexivity|exact Hc|exact Hacc]. }
  apply G; [intros y Hy; exact Hy|exact Hrest].
Qed.

Lemma bfs_init_near : loop_near u brd gua ivh (bfs_init u).
Proof.
  split; [|split].
  - intros c rw v [Hin|[]]. injection Hin as <- <- <-. rewrite getDistance_refl. lia.
  - intros key k Hk. apply lookup_insert_Some in Hk as [[<- <-]|[_ Hk]].
    + simpl. rewrite getDistance_refl. lia.
    + rewrite lookup_empty in Hk. discriminate.
  - intros h [].
Qed.
End SearchNear.

(** When every tile's finite movement cost is at least 1, each hex that
    [getReachableHexes] offers is on the board, free, passable, and has a
    cached cost between its distance from the unit and the unit's remaining
    movement. *)
Theorem getReachableHexes_offers st u h :
  costs_pos (board st) ->
  In h (snd (getReachableHexes st u)) ->
  isValidHex (col h) (row h) = true /\ getUnitAt st (col h) (row h) = None /\
  isPassableTile (board_get (board st) (row h) (col h)) (isNaval u) = true /\
  exists m k, cachedMoveCosts (fst (getReachableHexes st u)) = Some m /\
    m !! (col h, row h) = Some k /\
    getDistance (mkHex (unit_col u) (unit_row u)) h <= k <= movementRemaining u.
Proof.
  intros Hpos Hin. rewrite getReachableHexes_snd in Hin. rewrite getReachableHexes_fst.
  simpl. unfold pathfinderGetReachableHexes in *.
  pose proof (bfs_loop_near u (board st) (getUnitAt st) isValidHex Hpos (reach_fuel u) _
                (bfs_init_near u (board st) (getUnitAt st) isValidHex)) as Hok.
  destruct (bfs_loop _ _ _ _ _ _) as [[F R] L]. simpl in *.
  destruct Hok as (_ & HR & HL). destruct (HL h Hin) as (H1 & H2 & H3 & v & Hv & Hle).
  split; [exact H1|]. split; [exact H2|]. split; [exact H3|].
  exists R, v. split; [reflexivity|]. split; [exact Hv|].
  split; [|exact Hle]. destruct h as [hc hr]. exact (HR _ _ Hv).
Qed.

Lemma getReachableHexes_offers_witness :
  costs_pos (board solo_state) /\
  In (mkHex 5 3) (snd (getReachableHexes solo_state warrior1)) /\
  isValidHex 5 3 = true /\ getUnitAt solo_state 5 3 = None /\
  isPassableTile (board_get (board solo_state) 3 5) (isNaval warrior1) = true /\
  exists m k, cachedMoveCosts (fst (getReachableHexes solo_state warrior1)) = Some m /\
    m !! (5, 3) = Some k /\
    getDistance (mkHex (unit_col warrior1) (unit_row warrior1)) (mkHex 5 3) <= k
    <= movementRemaining warrior1.
Proof.
  assert (Hpos : costs_pos (board solo_state)).
  { intros rw c t Ht. simpl in Ht. unfold plains_board in Ht.
    change (generateEmptyBoard plains) with (generatedBoard (fun _ _ => plains)) in Ht.
    rewrite generatedBoard_get in Ht. destruct (isValidHex c rw); [|discriminate].
    injection Ht as <-. simpl. lia. }
  assert (Hin : In (mkHex 5 3) (snd (getReachableHexes solo_state warrior1))).
  { vm_compute. repeat first [left; reflexivity | right]. }
  split; [exact Hpos|]. split; [exact Hin|].
  exact (getReachableHexes_offers solo_state warrior1 (mkHex 5 3) Hpos Hin).
Defined.

(** [checkWinCondition]: victory exactly when every unit is the player's,
    defeat exactly when there are units and none is the player's, [null]
    exactly when both kinds remain. *)
Theorem checkWinCondition_spec st :
  (checkWinCondition st = Some victory <-> forall u, In u (unit_objs st) -> owner u = player) /\
  (checkWinCondition st = Some defeat <->
     (exists u, In u (unit_objs st)) /\ forall u, In u (unit_objs st) -> owner u <> player) /\
  (checkWinCondition st = None <->
     (exists u, In u (unit_objs st) /\ owner u = player) /\
     (exists u, In u (unit_objs st) /\ owner u <> player)).
Proof.
  unfold checkWinCondition.
  set (l := unit_objs st).
  assert (HE : List.filter (fun u => negb (owner_eqb (owner u) player)) l = [] <->
               forall u, In u l -> owner u = player).
  { rewrite filter_nil_iff. split; intros H u Hu; specialize (H u Hu).
    - apply negb_false_iff, owner_eqb_true in H. exact H.
    - apply negb_false_iff, owner_eqb_true. exact H. }
  assert (HP : List.filter (fun u => owner_eqb (owner u) player) l = [] <->
               forall u, In u l -> owner u <> player).
  { rewrite filter_nil_iff. split; intros H u Hu; specialize (H u Hu).
    - intros E. apply owner_eqb_true in E. congruence.
    - destruct (owner_eqb (owner u) player) eqn:E; [|reflexivity].
      apply owner_eqb_true in E. contradiction. }
  destruct (List.filter (fun u => negb (owner_eqb (owner u) player)) l) as [|e es] eqn:Ee;
    simpl.
  - assert (Hall : forall u, In u l -> owner u = player) by (apply HE; reflexivity).
    split; [split; [intros _; exact Hall|reflexivity]|].
    split; split; try discriminate.
    + intros [[u Hu] Hn]. exfalso. exact (Hn u Hu (Hall u Hu)).
    + intros [_ (u & Hu & Hn)]. exfalso. exact (Hn (Hall u Hu)).
  - assert (He : In e (List.filter (fun u => negb (owner_eqb (owner u) player)) l))
      by (rewrite Ee; left; reflexivity).
    apply filter_In in He as [He Hne]. apply negb_true_iff in Hne.
    assert (Hne' : owner e <> player) by (intros E; apply owner_eqb_true in E; congruence).
    destruct (List.filter (fun u => owner_eqb (owner u) player) l) as [|p ps] eqn:Ep; simpl.
    + assert (Hall : forall u, In u l -> owner u <> player) by (apply HP; reflexivity).
      split; [split; [discriminate|intros H; exfalso; exact (Hne' (H e He))]|].
      split; split; try discriminate.
      * intros _. split; [exists e; exact He|exact Hall].
      * intros _. reflexivity.
      * intros [(u & Hu & Hp) _]. exfalso. exact (Hall u Hu Hp).
    + assert (Hp : In p (List.filter (fun u => owner_eqb (owner u) player) l))
        by (rewrite Ep; left; reflexivity).
      apply filter_In in Hp as [Hp Hpo]. apply owner_eqb_true in Hpo.
      split; [split; [discriminate|intros H; exfalso; exact (Hne' (H e He))]|].
      split; split; try discriminate.
      * intros [_ H]. exfalso. exact (H p Hp Hpo).
      * intros _. split; [exists p; split; assumption|exists e; split; assumption].
      * intros _. reflexivity.
Qed.

(** A new game is undecided: [checkWinCondition] gives [null] after
    [initGameState], whatever the board. *)
Theorem initGameState_undecided cache b : checkWinCondition (initGameState cache b) = None.
Proof. vm_compute. reflexivity. Qed.


Lemma reset_fold_keep l o ref :
  ~ In ref l -> fold_left reset_step l o !! ref = o !! ref.
Proof.
  revert o. induction l as [|x l IH]; intros o Hn; simpl; [reflexivity|].
  rewrite IH by (intros H; apply Hn; right; exact H). unfold reset_step.
  destruct (o !! x) as [u|]; [|reflexivity].
  destruct (owner_eqb (owner u) player); [|reflexivity].
  apply lookup_insert_ne. intros ->. apply Hn. left. reflexivity.
Qed.

Lemma reset_fold_spec l o ref u :
  In ref l -> fold_left reset_step l o !! ref = Some u -> owner u = player ->
  movementRemaining u = moveRange u /\ hasActed u = false.
Proof.
  revert o. induction l as [|x l IH]; intros o Hin Hl Ho; [destruct Hin|].
  simpl in Hl. destruct (in_dec Nat.eq_dec ref l) as [Hin'|Hn]; [exact (IH _ Hin' Hl Ho)|].
  destruct Hin as [->|]; [|contradiction].
  rewrite reset_fold_keep in Hl by exact Hn. unfold reset_step in Hl.
  destruct (o !! ref) as [u0|] eqn:E; [|congruence].
  destruct (owner_eqb (owner u0) player) eqn:Eo.
  - rewrite lookup_insert_eq in Hl. injection Hl as <-. split; reflexivity.
  - rewrite E in Hl. injection Hl as ->. apply owner_eqb_true in Ho. congruence.
Qed.

(** After [executeAITurn] it is the player's turn, and every player unit
    has its full movement and has not acted. *)
Theorem executeAITurn_player_phase st :
  turn (executeAITurn st) = TPlayer /\
  forall ref u, In ref (units (executeAITurn st)) -> objs (executeAITurn st) !! ref = Some u ->
    owner u = player -> movementRemaining u = moveRange u /\ hasActed u = false.
Proof.
  unfold executeAITurn. cbv zeta.
  set (st1 := fold_left ai_activate _ _).
  split; [reflexivity|]. intros ref u Hin Hl Ho.
  unfold reset_player_units in Hl, Hin. simpl in Hl, Hin.
  apply (reset_fold_spec (units st1) (objs st1) ref u Hin); [|exact Ho].
  rewrite <- Hl. f_equal.
Qed.

Lemma structures_getReachableHexes st u :
  structures (fst (getReachableHexes st u)) = structures st.
Proof. rewrite getReachableHexes_fst. reflexivity. Qed.

Lemma structures_moveUnit st ref c rw : structures (moveUnit st ref c rw) = structures st.
Proof.
  unfold moveUnit. destruct (objs st !! ref) as [u|]; [|reflexivity].
  rewrite (let_pair_fst (applyMovement _ _ _ _)).
  set (u1 := fst (applyMovement (cachedMoveCosts st) u c rw)).
  destruct (owner_eqb (owner u1) player), (0 <? movementRemaining u1);
    rewrite ?let_pair_fst, ?getReachableHexes_fst;
    destruct (negb (hasActed u1)), ((movementRemaining u1 <=? 0) && hasActed u1);
    reflexivity.
Qed.

Lemma structures_attackUnit st a d : structures (attackUnit st a d) = structures st.
Proof.
  unfold attackUnit. destruct (objs st !! a), (objs st !! d); try reflexivity.
  cbv zeta. repeat match goal with |- context [match ?e with _ => _ end] => destruct e end;
    reflexivity.
Qed.

Ltac frame_struct :=
  repeat first
    [ reflexivity
    | rewrite structures_moveUnit
    | rewrite structures_attackUnit
    | progress rewrite ?let_pair_fst, ?getReachableHexes_fst
    | match goal with |- context [match ?e with _ => _ end] => destruct e end ].

Lemma structures_handleSelection st c rw :
  structures (handleSelection st c rw) = structures st.
Proof. unfold handleSelection. cbv zeta. frame_struct. Qed.

Lemma structures_findBestMoveTowards st u t :
  structures (fst (findBestMoveTowards st u t)) = structures st.
Proof. rewrite findBestMoveTowards_fst. reflexivity. Qed.

Lemma structures_ai_activate st ref : structures (ai_activate st ref) = structures st.
Proof.
  unfold ai_activate, ai_attack_after_move. cbv zeta.
  repeat first
    [ reflexivity
    | rewrite structures_moveUnit
    | rewrite structures_attackUnit
    | rewrite (let_pair_fst (findBestMoveTowards _ _ _))
    | rewrite structures_findBestMoveTowards
    | progress cbv beta iota
    | match goal with |- context [match ?e with _ => _ end] =>
        lazymatch e with match _ with _ => _ end => fail | _ => destruct e end end ].
Qed.

Lemma structures_fold_ai l st : structures (fold_left ai_activate l st) = structures st.
Proof.
  revert st. induction l as [|ref l IH]; intros st; simpl; [reflexivity|].
  rewrite IH. apply structures_ai_activate.
Qed.

Lemma structures_executeAITurn st : structures (executeAITurn st) = structures st.
Proof. unfold executeAITurn. cbv zeta. simpl. rewrite structures_fold_ai. reflexivity. Qed.

Lemma structure_cells_settleCity st ref :
  structure_cells (settleCity st ref)
  = if canSettle st ref then
      match objs st !! ref with
      | Some u => structure_cells st ++ [(unit_col u, unit_row u)]
      | None => structure_cells st
      end
    else structure_cells st.
Proof.
  unfold settleCity. destruct (canSettle st ref); simpl; [|reflexivity].
  destruct (objs st !! ref) as [u|]; [|reflexivity].
  unfold structure_cells. simpl. rewrite map_app. reflexivity.
Qed.

Lemma canSettle_free_cell st ref u :
  canSettle st ref = true -> objs st !! ref = Some u ->
  ~ In (unit_col u, unit_row u) (structure_cells st).
Proof.
  unfold canSettle. intros H Hu. rewrite Hu in H.
  destruct (negb _); [discriminate|]. destruct (hasActed u); [discriminate|].
  destruct (board_get _ _ _) as [t|]; [|discriminate].
  intros Hin; unfold structure_cells in Hin; apply in_map_iff in Hin as (x & Ex & Hx).
  injection Ex as E1 E2.
  destruct (terrain t); try discriminate;
  destruct (List.find _ (structures st)) eqn:Ef; try discriminate;
  (eapply find_none in Ef; [|exact Hx]);
  rewrite E1, E2, !Z.eqb_refl in Ef; discriminate.
Qed.

(** In every state of a game, no two structures stand on the same hex. *)
Theorem structures_apart_reachable st : reachable st -> NoDup (structure_cells st).
Proof.
  induction 1 as [cache tf|st st' _ IH Hs].
  - apply NoDup_nil_2.
  - destruct Hs as [st c rw _|st ref _ _|st _].
    + unfold structure_cells. rewrite structures_handleSelection. exact IH.
    + rewrite structure_cells_settleCity.
      destruct (canSettle st ref) eqn:Ec; [|exact IH].
      destruct (objs st !! ref) as [u|] eqn:Eu; [|exact IH].
      apply NoDup_app. split; [exact IH|]. split; [|apply NoDup_singleton].
      intros x Hx Hx'. apply list_elem_of_singleton in Hx'. subst x.
      apply list_elem_of_In in Hx. exact (canSettle_free_cell st ref u Ec Eu Hx).
    + unfold structure_cells. rewrite structures_executeAITurn. exact IH.
Qed.

(** A settle that [canSettle] allows appends a City of 50 HP with the next
    structure id at the settler's hex, removes the settler from the unit
    list, and clears the selection. *)
Theorem settleCity_founds_city st ref u :
  canSettle st ref = true -> objs st !! ref = Some u ->
  let st' := settleCity st ref in
  structures st' = structures st ++
    [mkStructure (structureIdCounter st + 1) City (owner u) (unit_col u) (unit_row u) 50 50] /\
  structureIdCounter st' = structureIdCounter st + 1 /\
  (forall r, In r (units st') <-> In r (units st) /\ r <> ref) /\
  objs st' = objs st /\
  selectedUnit st' = None /\ validMoves st' = [] /\ validTargets st' = [].
Proof.
  intros Hc Hu. unfold settleCity. rewrite Hc, Hu. simpl.
  split; [reflexivity|]. split; [reflexivity|]. split; [|auto].
  intros r. rewrite filter_In, negb_true_iff, Nat.eqb_neq. reflexivity.
Qed.


Lemma settleCity_founds_city_witness :
  canSettle settler_state 1%nat = true /\ objs settler_state !! 1%nat = Some settler1 /\
  let st' := settleCity settler_state 1%nat in
  structures st' = structures settler_state ++
    [mkStructure (structureIdCounter settler_state + 1) City (owner settler1)
       (unit_col settler1) (unit_row settler1) 50 50] /\
  structureIdCounter st' = structureIdCounter settler_state + 1 /\
  (forall r, In r (units st') <-> In r (units settler_state) /\ r <> 1%nat) /\
  objs st' = objs settler_state /\
  selectedUnit st' = None /\ validMoves st' = [] /\ validTargets st' = [].
Proof.
  assert (Hc : canSettle settler_state 1%nat = true) by (vm_compute; reflexivity).
  assert (Hu : objs settler_state !! 1%nat = Some settler1) by (vm_compute; reflexivity).
  split; [exact Hc|]. split; [exact Hu|].
  exact (settleCity_founds_city settler_state 1%nat settler1 Hc Hu).
Defined.

Lemma structures_apart_reachable_witness :
  reachable settler_state /\ NoDup (structure_cells settler_state).
Proof.
  assert (H : reachable settler_state).
  { unfold settler_state, plains_board.
    change (generateEmptyBoard plains) with (generatedBoard (fun _ _ => plains)).
    apply reach_init. }
  split; [exact H|]. exact (structures_apart_reachable settler_state H).
Defined.

Module ViewportProofs.
Import Pixel Camera Viewport CameraProofs.
Local Open Scope R_scope.

Lemma floor_le_int x n : x <= IZR n + 3 / 2 -> (Math_floor x <= n + 1)%Z.
Proof.
  unfold Math_floor. intros H. destruct (base_Int_part x) as [H1 _].
  assert (IZR (Int_part x) < IZR (n + 2)) by (rewrite plus_IZR; lra).
  apply lt_IZR in H0. lia.
Qed.

Lemma ceil_ge_int x n : IZR n <= x -> (n <= Math_ceil x)%Z.
Proof.
  unfold Math_ceil. intros H. destruct (base_Int_part (- x)) as [H1 _].
  assert (IZR (Int_part (- x)) <= IZR (- n)) by (rewrite opp_IZR; lra).
  apply le_IZR in H0. lia.
Qed.

Lemma div_le_l a b d : 0 < d -> a <= b * d -> a / d <= b.
Proof.
  intros Hd H. apply Rmult_le_reg_r with d; [exact Hd|].
  unfold Rdiv. rewrite Rmult_assoc, Rinv_l by lra. lra.
Qed.

Lemma div_ge_r a b d : 0 < d -> b * d <= a -> b <= a / d.
Proof.
  intros Hd H. apply Rmult_le_reg_r with d; [exact Hd|].
  unfold Rdiv. rewrite Rmult_assoc, Rinv_l by lra. lra.
Qed.

(** Viewport culling never drops a visible hex: every in-bounds hex whose
    centre [worldToScreen] puts on the canvas lies within the range that
    [getVisibleHexRange] returns. *)
Theorem getVisibleHexRange_covers camera canvasWidth canvasHeight c rw :
  0 < zoom camera ->
  isValidHex c rw = true ->
  let p := worldToScreen camera (px (hexToPixel c rw)) (py (hexToPixel c rw)) in
  0 <= px p <= canvasWidth -> 0 <= py p <= canvasHeight ->
  let vr := getVisibleHexRange camera canvasWidth canvasHeight in
  (minCol vr <= c <= maxCol vr)%Z /\ (minRow vr <= rw <= maxRow vr)%Z.
Proof.
  intros Hz Hv p Hx Hy. apply isValidHex_spec in Hv.
  unfold p, worldToScreen, hexToPixel, HEX_SIZE_R, HEX_SIZE in Hx, Hy. simpl in Hx, Hy.
  unfold getVisibleHexRange, HEX_WIDTH, HEX_HEIGHT, HEX_SIZE_R, HEX_SIZE. simpl.
  pose proof sqrt3_ge_1 as H3.
  assert (Hpar : 0 <= IZR (parity rw) <= 1).
  { rewrite parity_mod. split; apply IZR_le; pose proof (Z.mod_pos_bound rw 2); lia. }
  set (t := sqrt 3) in *. set (zm := zoom camera) in *.
  set (X := 35 * t * (IZR c + / 2 * IZR (parity rw)) + 35) in *.
  set (Y := 35 * 3 / 2 * IZR rw + 35) in *.
  assert (HX1 : cam_x camera <= X).
  { destruct Hx as [Hx _]. apply Rmult_le_reg_r with zm; [exact Hz|]. nra. }
  assert (HX2 : X <= cam_x camera + canvasWidth / zm).
  { destruct Hx as [_ Hx]. apply Rmult_le_reg_r with zm; [exact Hz|].
    unfold Rdiv. rewrite Rmult_plus_distr_r, Rmult_assoc, Rinv_l by lra. nra. }
  assert (HY1 : cam_y camera <= Y).
  { destruct Hy as [Hy _]. apply Rmult_le_reg_r with zm; [exact Hz|]. nra. }
  assert (HY2 : Y <= cam_y camera + canvasHeight / zm).
  { destruct Hy as [_ Hy]. apply Rmult_le_reg_r with zm; [exact Hz|].
    unfold Rdiv. rewrite Rmult_plus_distr_r, Rmult_assoc, Rinv_l by lra. nra. }
  assert (Ht : 0 < 35 * t) by lra.
  split; split.
  - apply Z.max_lub; [lia|].
    enough (Math_floor (cam_x camera / (t * 35)) <= c + 1)%Z by lia.
    apply floor_le_int, div_le_l; [lra|]. unfold X in HX1. nra.
  - apply Z.min_glb; [unfold BOARD_COLS in *; lia|].
    enough (c <= Math_ceil ((cam_x camera + canvasWidth / zm) / (t * 35)))%Z by lia.
    apply ceil_ge_int, div_ge_r; [lra|]. unfold X in HX2. nra.
  - apply Z.max_lub; [lia|].
    enough (Math_floor (cam_y camera / (2 * 35 * (3 / 4))) <= rw + 1)%Z by lia.
    apply floor_le_int, div_le_l; [lra|]. unfold Y in HY1. lra.
  - apply Z.min_glb; [unfold BOARD_ROWS in *; lia|].
    enough (rw <= Math_ceil ((cam_y camera + canvasHeight / zm) / (2 * 35 * (3 / 4))))%Z by lia.
    apply ceil_ge_int, div_ge_r; [lra|]. unfold Y in HY2. lra.
Qed.

Lemma getVisibleHexRange_covers_witness :
  0 < zoom resetCamera /\ isValidHex 3 2 = true /\
  0 <= px (worldToScreen resetCamera (px (hexToPixel 3 2)) (py (hexToPixel 3 2))) <= 800 /\
  0 <= py (worldToScreen resetCamera (px (hexToPixel 3 2)) (py (hexToPixel 3 2))) <= 600 /\
  (minCol (getVisibleHexRange resetCamera 800 600) <= 3
     <= maxCol (getVisibleHexRange resetCamera 800 600))%Z /\
  (minRow (getVisibleHexRange resetCamera 800 600) <= 2
     <= maxRow (getVisibleHexRange resetCamera 800 600))%Z.
Proof.
  assert (Hz : 0 < zoom resetCamera) by (simpl; lra).
  assert (Hv : isValidHex 3 2 = true) by reflexivity.
  pose proof sqrt3_ge_1 as H3.
  assert (H3' : sqrt 3 <= 2).
  { rewrite <- (sqrt_square 2) by lra. apply sqrt_le_1_alt. lra. }
  assert (Hx : 0 <= px (worldToScreen resetCamera (px (hexToPixel 3 2)) (py (hexToPixel 3 2)))
               <= 800).
  { unfold worldToScreen, hexToPixel, HEX_SIZE_R, HEX_SIZE. simpl.
    change (parity 2) with 0%Z. split; nra. }
  assert (Hy : 0 <= py (worldToScreen resetCamera (px (hexToPixel 3 2)) (py (hexToPixel 3 2)))
               <= 600).
  { unfold worldToScreen, hexToPixel, HEX_SIZE_R, HEX_SIZE. simpl. lra. }
  split; [exact Hz|]. split; [exact Hv|]. split; [exact Hx|]. split; [exact Hy|].
  exact (getVisibleHexRange_covers resetCamera 800 600 3 2 Hz Hv Hx Hy).
Defined.
End ViewportProofs.
